(** * Bitboards for grid games: a shallow embedding of [benwebber/bitboard]

    The development follows the two Go packages of the repository:
    package [util] (bit primitives, population count, coordinate
    conversions) and package [bitboard] (flips and rotations, the [Bitboard]
    aggregate, its mutators and its constructors).

    Go values are modelled as follows.
    - [uint64] is a [Z] in [0, 2^64); every operation that can leave that
      range is wrapped explicitly with [Go.wrap_uint64].
    - [int] is the 64-bit signed [int] of the usual targets, a [Z] in
      [-2^63, 2^63), wrapped with [Go.wrap_int].
    - a Go [string] is a sequence of bytes: [String.string].
    - a slice is a [list]; indexing out of range panics.
    - a method with a pointer receiver is a state transformer over the
      record it mutates; a panic keeps the mutations made before it. *)

From Stdlib Require Import ZArith Lia Bool List Ascii String DecimalString.
From stdpp Require Import base list.

Local Open Scope Z_scope.

(* ===================================================================== *)
(** * Go's machine integers *)
(* ===================================================================== *)

Module Go.

(** Reduction of a mathematical integer to [uint64]. *)
Definition wrap_uint64 (z : Z) : Z := z mod 2 ^ 64.

(** Reduction of a mathematical integer to the signed 64-bit [int]. *)
Definition wrap_int (z : Z) : Z := (z + 2 ^ 63) mod 2 ^ 64 - 2 ^ 63.

(** The conversion [uint(p)] of an [int]. *)
Definition uint_of_int (p : Z) : Z := p mod 2 ^ 64.

(** The conversion [int(u)] of a [uint64]. *)
Definition int_of_uint64 (u : Z) : Z := wrap_int u.

(** [x << s] on [uint64] with an unsigned count: bits shifted out are
    lost, and a count of 64 or more gives 0. *)
Definition shl (x s : Z) : Z :=
  if s <? 64 then wrap_uint64 (Z.shiftl x s) else 0.

(** [x >> s] on [uint64] with an unsigned count. *)
Definition shr (x s : Z) : Z :=
  if s <? 64 then Z.shiftr x s else 0.

(** [^x] on [uint64]. *)
Definition not (x : Z) : Z := wrap_uint64 (Z.lnot x).

(** [x + y], [x - y] and [x * y] on [uint64]. *)
Definition add (x y : Z) : Z := wrap_uint64 (x + y).
Definition sub (x y : Z) : Z := wrap_uint64 (x - y).
Definition mul (x y : Z) : Z := wrap_uint64 (x * y).

(** [x + y], [x - y], [x * y] on [int]. *)
Definition iadd (x y : Z) : Z := wrap_int (x + y).
Definition isub (x y : Z) : Z := wrap_int (x - y).
Definition imul (x y : Z) : Z := wrap_int (x * y).

(** [x / y] and [x % y] on [int]: truncated division; a zero divisor
    panics ([None]). *)
Definition idiv (x y : Z) : option Z :=
  if y =? 0 then None else Some (wrap_int (Z.quot x y)).
Definition irem (x y : Z) : option Z :=
  if y =? 0 then None else Some (wrap_int (Z.rem x y)).

(** The type invariants. *)
Definition is_uint64 (x : Z) : Prop := 0 <= x < 2 ^ 64.
Definition is_int (x : Z) : Prop := - 2 ^ 63 <= x < 2 ^ 63.

(** [s[i]] on a string: the byte at index [i], a panic out of range. *)
Definition index (s : string) (i : nat) : option ascii := String.get i s.

(** [string(b)] for a byte [b]: the UTF-8 encoding of the code point
    whose number is [b] (one byte below 128, two bytes from 128 on). *)
Definition string_of_byte (b : ascii) : string :=
  let n := N_of_ascii b in
  if (n <? 128)%N then String b EmptyString
  else String (ascii_of_N (192 + n / 64))
         (String (ascii_of_N (128 + n mod 64)) EmptyString).

(** The UTF-8 encoding of a code point, as a Go string holds it. *)
Definition utf8 (c : N) : string :=
  if (c <? 128)%N then String (ascii_of_N c) EmptyString
  else if (c <? 2048)%N then
    String (ascii_of_N (192 + c / 64))
      (String (ascii_of_N (128 + c mod 64)) EmptyString)
  else if (c <? 65536)%N then
    String (ascii_of_N (224 + c / 4096))
      (String (ascii_of_N (128 + (c / 64) mod 64))
         (String (ascii_of_N (128 + c mod 64)) EmptyString))
  else
    String (ascii_of_N (240 + c / 262144))
      (String (ascii_of_N (128 + (c / 4096) mod 64))
         (String (ascii_of_N (128 + (c / 64) mod 64))
            (String (ascii_of_N (128 + c mod 64)) EmptyString))).

(** A Unicode code point. *)
Definition is_rune (c : N) : Prop := (c < 1114112)%N.

(** [fmt.Sprintf("%v", n)] for an [int]: its decimal numeral. *)
Definition sprint_int (n : Z) : string := NilZero.string_of_int (Z.to_int n).

(** [strconv.Atoi]: an optional sign and a non-empty run of decimal
    digits; the value, and whether an error was reported.  On a syntax
    error the value is 0; out of the range of [int] it is the nearest
    bound (and an error). *)
Definition is_digit (c : ascii) : bool :=
  ((48 <=? N_of_ascii c) && (N_of_ascii c <=? 57))%N.

Fixpoint digits (s : string) (acc : Z) : option Z :=
  match s with
  | EmptyString => Some acc
  | String c r =>
      if is_digit c then digits r (10 * acc + (Z.of_N (N_of_ascii c) - 48))
      else None
  end.

Definition Atoi (s : string) : Z * bool :=
  match s with
  | EmptyString => (0, true)
  | String c r =>
      let neg := Ascii.eqb c "-" in
      let body := if neg || Ascii.eqb c "+" then r else s in
      match body with
      | EmptyString => (0, true)
      | _ =>
          match digits body 0 with
          | None => (0, true)
          | Some n =>
              let v := if neg then - n else n in
              if 2 ^ 63 <=? v then (2 ^ 63 - 1, true)
              else if v <? - 2 ^ 63 then (- 2 ^ 63, true)
              else (v, false)
          end
      end
  end.

End Go.

(* ===================================================================== *)
(** * Package [util] *)
(* ===================================================================== *)

Module util.

(** ** Bit operations.  The pointer argument [i *uint64] becomes the
    value read and the value written back. *)

Definition SetBit (i p : Z) : Z :=
  let mask := Go.shl 1 (Go.uint_of_int p) in
  Z.lor i mask.

Definition ClearBit (i p : Z) : Z :=
  let mask := Go.not (Go.shl 1 (Go.uint_of_int p)) in
  Z.land i mask.

Definition ToggleBit (i p : Z) : Z :=
  let mask := Go.shl 1 (Go.uint_of_int p) in
  Z.lxor i mask.

Definition GetBit (i p : Z) : Z :=
  Go.int_of_uint64 (Z.land (Go.shr i (Go.uint_of_int p)) 1).

Definition IsBitSet (i p : Z) : bool :=
  let mask := Go.shl 1 (Go.uint_of_int p) in
  negb (Z.land i mask =? 0).

(** [Union]: the loop [for _, v := range i { u = u | v }]. *)
Definition Union (i : list Z) : Z :=
  fold_left (fun u v => Z.lor u v) i 0.

Definition mask1 : Z := 0x5555555555555555.
Definition mask2 : Z := 0x3333333333333333.
Definition mask4 : Z := 0x0f0f0f0f0f0f0f0f.

Definition PopCount (i : Z) : Z :=
  let i := Go.sub i (Z.land (Go.shr i 1) mask1) in
  let i := Go.add (Z.land i mask2) (Z.land (Go.shr i 2) mask2) in
  let i := Z.land (Go.add i (Go.shr i 4)) mask4 in
  let i := Go.add i (Go.shr i 8) in
  let i := Go.add i (Go.shr i 16) in
  let i := Go.add i (Go.shr i 32) in
  Go.int_of_uint64 (Z.land i 0x7f).

(** ** Coordinate conversions *)

Definition symbols : list string :=
  ["a"; "b"; "c"; "d"; "e"; "f"; "g"; "h"]%string.

(** The loop [for i, v := range symbols { if string(p[0]) == v { x = i } }]:
    [p[0]] is read at every iteration, and the last match wins. *)
Fixpoint find_file (p : string) (vs : list string) (i x : Z) : option Z :=
  match vs with
  | [] => Some x
  | v :: vs' =>
      match Go.index p 0 with
      | None => None
      | Some c =>
          find_file p vs' (i + 1)
            (if String.eqb (Go.string_of_byte c) v then i else x)
      end
  end.

Definition AlgebraicToCartesian (p : string) (files : Z) : option (Z * Z) :=
  match find_file p symbols 0 0 with
  | None => None
  | Some x =>
      match Go.index p 1 with
      | None => None
      | Some c =>
          let y := fst (Go.Atoi (Go.string_of_byte c)) in
          Some (x, Go.isub y 1)
      end
  end.

Definition CartesianToBit (x y files : Z) : Z :=
  let bit := Go.iadd (Go.imul y files) x in
  bit.

Definition BitToCartesian (p files : Z) : option (Z * Z) :=
  match Go.irem p files with
  | None => None
  | Some x =>
      match Go.idiv p files with
      | None => None
      | Some y => Some (x, y)
      end
  end.

(** [symbols[x]] panics out of range. *)
Definition CartesianToAlgebraic (x y files : Z) : option string :=
  if (0 <=? x) && (x <? Z.of_nat (length symbols)) then
    match symbols !! Z.to_nat x with
    | Some s => Some (s ++ Go.sprint_int (Go.iadd y 1))%string
    | None => None
    end
  else None.

Definition AlgebraicToBit (p : string) (files : Z) : option Z :=
  match AlgebraicToCartesian p files with
  | None => None
  | Some (x, y) => Some (CartesianToBit x y files)
  end.

Definition BitToAlgebraic (p files : Z) : option string :=
  match BitToCartesian p files with
  | None => None
  | Some (x, y) => CartesianToAlgebraic x y files
  end.

End util.


(* ===================================================================== *)
(** * Package [bitboard] *)
(* ===================================================================== *)

Module bitboard.

(** ** Flipping and rotating *)

Definition FlipVertical (i : Z) : Z :=
  let k1 := 0x00FF00FF00FF00FF in
  let k2 := 0x0000FFFF0000FFFF in
  let i := Z.lor (Z.land (Go.shr i 8) k1) (Go.shl (Z.land i k1) 8) in
  let i := Z.lor (Z.land (Go.shr i 16) k2) (Go.shl (Z.land i k2) 16) in
  let i := Z.lor (Go.shr i 32) (Go.shl i 32) in
  i.

Definition FlipHorizontal (i : Z) : Z :=
  let k1 := 0x5555555555555555 in
  let k2 := 0x3333333333333333 in
  let k4 := 0x0f0f0f0f0f0f0f0f in
  let i := Go.add (Z.land (Go.shr i 1) k1) (Go.mul 2 (Z.land i k1)) in
  let i := Go.add (Z.land (Go.shr i 2) k2) (Go.mul 4 (Z.land i k2)) in
  let i := Go.add (Z.land (Go.shr i 4) k4) (Go.mul 16 (Z.land i k4)) in
  i.

Definition FlipDiagonalA1H8 (i : Z) : Z :=
  let k1 := 0x5500550055005500 in
  let k2 := 0x3333000033330000 in
  let k4 := 0x0f0f0f0f00000000 in
  let t := Z.land k4 (Z.lxor i (Go.shl i 28)) in
  let i := Z.lxor i (Z.lxor t (Go.shr t 28)) in
  let t := Z.land k2 (Z.lxor i (Go.shl i 14)) in
  let i := Z.lxor i (Z.lxor t (Go.shr t 14)) in
  let t := Z.land k1 (Z.lxor i (Go.shl i 7)) in
  let i := Z.lxor i (Z.lxor t (Go.shr t 7)) in
  i.

Definition FlipDiagonalA8H1 (i : Z) : Z :=
  let k1 := 0xaa00aa00aa00aa00 in
  let k2 := 0xcccc0000cccc0000 in
  let k4 := 0xf0f0f0f00f0f0f0f in
  let t := Z.lxor i (Go.shl i 36) in
  let i := Z.lxor i (Z.land k4 (Z.lxor t (Go.shr i 36))) in
  let t := Z.land k2 (Z.lxor i (Go.shl i 18)) in
  let i := Z.lxor i (Z.lxor t (Go.shr t 18)) in
  let t := Z.land k1 (Z.lxor i (Go.shl i 9)) in
  let i := Z.lxor i (Z.lxor t (Go.shr t 9)) in
  i.

Definition Rotate180 (i : Z) : Z := FlipHorizontal (FlipVertical i).
Definition Rotate90 (i : Z) : Z := FlipVertical (FlipDiagonalA1H8 i).
Definition Rotate270 (i : Z) : Z := FlipDiagonalA1H8 (FlipVertical i).

(** ** The aggregate *)

Record Bitboard : Type := mkBitboard {
  Bitmaps : list Z;       (* Bitmaps for each colour/piece combination *)
  Symbols : list string;  (* Symbols representing each combination *)
  Occupied : Z;           (* Union of all bitmaps (occupied squares) *)
  Ranks : Z;              (* Number of rows *)
  Files : Z               (* Number of columns *)
}.

Definition set_Bitmaps (v : list Z) (b : Bitboard) : Bitboard :=
  mkBitboard v (Symbols b) (Occupied b) (Ranks b) (Files b).
Definition set_Occupied (v : Z) (b : Bitboard) : Bitboard :=
  mkBitboard (Bitmaps b) (Symbols b) v (Ranks b) (Files b).
Definition set_Ranks (v : Z) (b : Bitboard) : Bitboard :=
  mkBitboard (Bitmaps b) (Symbols b) (Occupied b) v (Files b).
Definition set_Files (v : Z) (b : Bitboard) : Bitboard :=
  mkBitboard (Bitmaps b) (Symbols b) (Occupied b) (Ranks b) v.

(** ** Methods on [*Bitboard]: a state monad with panics.  The receiver
    is mutated in place, so what was written before a panic stays. *)

Inductive outcome (A : Type) : Type :=
| Ret (a : A)
| Panic.
Arguments Ret {A} a.
Arguments Panic {A}.

Definition M (A : Type) : Type := Bitboard -> outcome A * Bitboard.

#[export] Instance M_ret : MRet M := fun A a b => (Ret a, b).

#[export] Instance M_bind : MBind M := fun A B k m b =>
  match m b with
  | (Ret a, b') => k a b'
  | (Panic, b') => (Panic, b')
  end.

(** [f(&b.Occupied)] for a function [f] that rewrites the word. *)
Definition with_Occupied (f : Z -> Z) : M unit :=
  fun b => (Ret tt, set_Occupied (f (Occupied b)) b).

(** [f(&b.Bitmaps[m])]: the index expression panics out of range. *)
Definition with_Bitmap (m : Z) (f : Z -> Z) : M unit :=
  fun b =>
    if (0 <=? m) && (m <? Z.of_nat (length (Bitmaps b))) then
      match Bitmaps b !! Z.to_nat m with
      | Some w => (Ret tt, set_Bitmaps (<[Z.to_nat m := f w]> (Bitmaps b)) b)
      | None => (Panic, b)
      end
    else (Panic, b).

Definition PlacePieceBit (m p : Z) : M unit :=
  with_Occupied (fun w => util.SetBit w p) ;;
  with_Bitmap m (fun w => util.SetBit w p).

Definition RemovePieceBit (m p : Z) : M unit :=
  with_Occupied (fun w => util.ClearBit w p) ;;
  with_Bitmap m (fun w => util.ClearBit w p).

Definition MovePieceBit (m p1 p2 : Z) : M unit :=
  RemovePieceBit m p1 ;;
  PlacePieceBit m p2.

(** The loop of [GetBitmapIndex], from index [i] on. *)
Fixpoint scan (ws : list Z) (i p : Z) : Z :=
  match ws with
  | [] => -1
  | w :: ws' => if negb (util.GetBit w p =? 0) then i else scan ws' (i + 1) p
  end.

Definition GetBitmapIndex (b : Bitboard) (p : Z) : Z :=
  if util.GetBit (Occupied b) p =? 0 then -1
  else scan (Bitmaps b) 0 p.

(** ** Constructors.  A [*Bitboard] result is an [option]: [None] is the
    nil pointer. *)

Definition error : Type := string.

Definition New (ranks files : Z) : option Bitboard * option error :=
  let b := mkBitboard [] [] 0 0 0 in
  let err : option error := None in
  let err :=
    if ranks <? 0
    then Some "bitboard: number of ranks must be greater than zero"%string
    else err in
  let err :=
    if files <? 0
    then Some "bitboard: number of files must be greater than zero"%string
    else err in
  let err :=
    if 64 <? Go.imul ranks files
    then Some "bitboard: bitboards cannot be larger than 64 squares"%string
    else err in
  let b := set_Ranks ranks b in
  let b := set_Files files b in
  (Some b, err).

Definition preset (bitmaps : list Z) (symbols : list string) (ranks files : Z)
  : Bitboard :=
  let occupied := util.Union bitmaps in
  mkBitboard bitmaps symbols occupied ranks files.

Definition NewChessBoard : Bitboard :=
  preset
    [ 0x0000000000000081; 0x0000000000000042; 0x0000000000000024;
      0x0000000000000008; 0x0000000000000010; 0x000000000000ff00;
      0x8100000000000000; 0x4200000000000000; 0x2400000000000000;
      0x0800000000000000; 0x1000000000000000; 0x00ff000000000000 ]
    [ "R"; "N"; "B"; "Q"; "K"; "P"; "r"; "n"; "b"; "q"; "k"; "p" ]%string
    8 8.

Definition NewCheckersBoard : Bitboard :=
  preset [ 0xaa55aa0000000000; 0x000000000055aa55 ] [ "R"; "W" ]%string 8 8.

Definition NewOthelloBoard : Bitboard :=
  preset [ 0x0000001008000000; 0x0000000810000000 ] [ "B"; "W" ]%string 8 8.

Definition NewReversiBoard : Bitboard :=
  preset [ 0x0000000000000000; 0x0000000000000000 ] [ "B"; "W" ]%string 8 8.

Definition NewTicTacToeBoard : Bitboard :=
  preset [ 0x0000000000000000; 0x0000000000000000 ] [ "X"; "O" ]%string 3 3.

Definition NewConnectFourBoard : Bitboard :=
  preset [ 0x0000000000000000; 0x0000000000000000 ] [ "R"; "Y" ]%string 6 7.

(** ** Addressing by algebraic and Cartesian coordinates.  The methods
    read [b.Files]; a panic of the conversion stops the method before the
    board is touched. *)

Definition get : M Bitboard := fun b => (Ret b, b).

Definition lift {A : Type} (o : option A) : M A :=
  fun b => match o with Some a => (Ret a, b) | None => (Panic, b) end.

Definition AlgebraicToBit (b : Bitboard) (p : string) : option Z :=
  util.AlgebraicToBit p (Files b).

Definition AlgebraicToCartesian (b : Bitboard) (p : string) : option (Z * Z) :=
  util.AlgebraicToCartesian p (Files b).

Definition BitToAlgebraic (b : Bitboard) (p : Z) : option string :=
  util.BitToAlgebraic p (Files b).

Definition BitToCartesian (b : Bitboard) (p : Z) : option (Z * Z) :=
  util.BitToCartesian p (Files b).

Definition CartesianToAlgebraic (b : Bitboard) (x y : Z) : option string :=
  util.CartesianToAlgebraic x y (Files b).

Definition CartesianToBit (b : Bitboard) (x y : Z) : Z :=
  util.CartesianToBit x y (Files b).

Definition PlacePieceAlgebraic (m : Z) (p : string) : M unit :=
  b ← get; i ← lift (AlgebraicToBit b p); PlacePieceBit m i.

Definition PlacePieceCartesian (m x y : Z) : M unit :=
  b ← get; PlacePieceBit m (CartesianToBit b x y).

Definition RemovePieceAlgebraic (m : Z) (p : string) : M unit :=
  b ← get; i ← lift (AlgebraicToBit b p); RemovePieceBit m i.

Definition RemovePieceCartesian (m x y : Z) : M unit :=
  b ← get; RemovePieceBit m (CartesianToBit b x y).

Definition MovePieceAlgebraic (m : Z) (p1 p2 : string) : M unit :=
  RemovePieceAlgebraic m p1 ;; PlacePieceAlgebraic m p2.

Definition MovePieceCartesian (m x1 y1 x2 y2 : Z) : M unit :=
  RemovePieceCartesian m x1 y1 ;; PlacePieceCartesian m x2 y2.

(** ** [PrettyPrint].  The text written to standard output is returned
    next to the outcome; what was printed before a panic stays printed.
    The loop [for f := 0; f < b.Files; f++] runs [Files] times (no time
    when [Files] is not positive), and so does the loop over the ranks. *)





End bitboard.

(* ===================================================================== *)
(** * Package [board64]: the earlier aggregate, without [Occupied] *)
(* ===================================================================== *)

Module board64.

Record Bitboard : Type := mkBitboard {
  Bitmaps : list Z;       (* Bitmaps for each colour/piece combination *)
  Symbols : list string;  (* Symbols representing each combination *)
  Ranks : Z;              (* Number of rows *)
  Files : Z               (* Number of columns *)
}.

Definition GetBit (i p : Z) : Z :=
  Go.int_of_uint64 (Z.land (Go.shr i (Go.uint_of_int p)) 1).

(** The loop of [GetBitmapIndex], from index [i] on. *)
Fixpoint scan (ws : list Z) (i p : Z) : Z :=
  match ws with
  | [] => -1
  | w :: ws' => if negb (GetBit w p =? 0) then i else scan ws' (i + 1) p
  end.

Definition GetBitmapIndex (b : Bitboard) (p : Z) : Z :=
  scan (Bitmaps b) 0 p.

Definition files : list string :=
  ["a"; "b"; "c"; "d"; "e"; "f"; "g"; "h"]%string.

(** The loop [for i, v := range files { if file == v { f = i } }]. *)
Fixpoint find_file (file : string) (vs : list string) (i f : Z) : Z :=
  match vs with
  | [] => f
  | v :: vs' => find_file file vs' (i + 1) (if String.eqb file v then i else f)
  end.

Definition CoordsToBit (b : Bitboard) (file : string) (rank : Z) : Z :=
  let f := find_file file files 0 0 in
  let bit := Go.iadd (Go.imul (Go.isub rank 1) (Files b)) f in
  bit.

Definition BitToSquareIndex (b : Bitboard) (p : Z) : option string :=
  match Go.idiv p (Files b) with
  | None => None
  | Some q =>
      let r := Go.iadd q 1 in
      match Go.irem p (Files b) with
      | None => None
      | Some f =>
          if (0 <=? f) && (f <? Z.of_nat (length files)) then
            match files !! Z.to_nat f with
            | Some s => Some (s ++ Go.sprint_int r)%string
            | None => None
            end
          else None
      end
  end.

Definition NewBitboard : Bitboard := mkBitboard [] [] 0 0.

End board64.


Import bitboard.

(* ===================================================================== *)
(** * Reference notions the properties are stated with *)
(* ===================================================================== *)

(** The naive per-bit count: the number of indices below [n] whose bit is
    set in [i]; the reference for [PopCount] is [naive_popcount]. *)
Fixpoint count_bits (n : nat) (i : Z) : Z :=
  match n with
  | O => 0
  | S k => count_bits k i + (if Z.testbit i (Z.of_nat k) then 1 else 0)
  end.

Definition naive_popcount (i : Z) : Z := count_bits 64 i.

(** A word read as its sixteen nibbles, least significant first: the
    fields on which the first steps of [PopCount] work one by one. *)
Fixpoint pack (l : list Z) : Z :=
  match l with
  | [] => 0
  | a :: r => a + 16 * pack r
  end.

Fixpoint nibbles (n : nat) (i : Z) : list Z :=
  match n with
  | O => []
  | S k => i mod 16 :: nibbles k (i / 16)
  end.

Definition is_nibble (a : Z) : Prop := 0 <= a < 16.

(** The first two steps of [PopCount] on one nibble. *)
Definition pairs4 (a : Z) : Z := a - Z.land (Z.shiftr a 1) 5.
Definition quads4 (a : Z) : Z := Z.land a 3 + Z.land (Z.shiftr a 2) 3.

Definition sum_list (l : list Z) : Z := fold_right Z.add 0 l.

(** [PopCount] cut at the points where the proof changes its reading of
    the word: pairs, then nibbles, then the folding of the byte sums. *)
Definition pc_pairs (i : Z) : Z :=
  Go.sub i (Z.land (Go.shr i 1) util.mask1).

Definition pc_quads (i : Z) : Z :=
  Go.add (Z.land i util.mask2) (Z.land (Go.shr i 2) util.mask2).

Definition pc_fold (i : Z) : Z :=
  let i := Z.land (Go.add i (Go.shr i 4)) util.mask4 in
  let i := Go.add i (Go.shr i 8) in
  let i := Go.add i (Go.shr i 16) in
  let i := Go.add i (Go.shr i 32) in
  Go.int_of_uint64 (Z.land i 0x7f).

(** A word given by its eight bytes, least significant first. *)
Definition bytes8 (a0 a1 a2 a3 a4 a5 a6 a7 : Z) : Z :=
  a0 + 256 * (a1 + 256 * (a2 + 256 * (a3 + 256 * (a4 + 256 * (a5 +
    256 * (a6 + 256 * a7)))))).

(** The test that settles the two nibble steps on each of the 16 nibbles. *)
Definition nibble_checks (a : Z) : bool :=
  (0 <=? pairs4 a) && (pairs4 a <? 16) &&
  (0 <=? quads4 (pairs4 a)) && (quads4 (pairs4 a) <=? 4) &&
  (quads4 (pairs4 a) =? count_bits 4 a).

(** A Cartesian pair that is valid for a board [files] wide. *)
Definition valid_xy (x y files : Z) : Prop :=
  0 <= x < files /\ 0 <= y /\ y * files + x < 64.

(** The algebraic round trip of a Cartesian pair. *)
Definition algebraic_round_trip (x y files : Z) : Prop :=
  exists s : string,
    util.CartesianToAlgebraic x y files = Some s /\
    util.AlgebraicToCartesian s files = Some (x, y).

(** The same, as a test that can be run. *)
Definition algebraic_round_tripb (files x y : Z) : bool :=
  match util.CartesianToAlgebraic x y files with
  | Some s =>
      match util.AlgebraicToCartesian s files with
      | Some (x', y') => (x' =? x) && (y' =? y)
      | None => false
      end
  | None => false
  end.

(** What [AlgebraicToCartesian] makes of the first and of the second byte
    of its argument. *)
Definition file_of_byte (a : ascii) : Z :=
  let n := N_of_ascii a in
  if ((97 <=? n) && (n <=? 104))%N then Z.of_N n - 97 else 0.

Definition rank_of_byte (b : ascii) : Z :=
  let n := N_of_ascii b in
  if ((48 <=? n) && (n <=? 57))%N then Z.of_N n - 49 else -1.

(** The aggregate-level invariant: [Occupied] is the union of the category
    bitmaps. *)
Definition occupied_is_union (b : Bitboard) : Prop :=
  Occupied b = util.Union (Bitmaps b).

(** The words of a well-formed aggregate are [uint64] values. *)
Definition wf_board (b : Bitboard) : Prop :=
  Go.is_uint64 (Occupied b) /\ Forall Go.is_uint64 (Bitmaps b).

Definition presets : list Bitboard :=
  [ NewChessBoard; NewCheckersBoard; NewOthelloBoard; NewReversiBoard;
    NewTicTacToeBoard; NewConnectFourBoard ].

(** The public mutators, as the labels of a step relation. *)
Inductive op : Type :=
| Place (m p : Z)
| Remove (m p : Z)
| Move (m p1 p2 : Z).

Definition run_op (o : op) : M unit :=
  match o with
  | Place m p => PlacePieceBit m p
  | Remove m p => RemovePieceBit m p
  | Move m p1 p2 => MovePieceBit m p1 p2
  end.

Definition pos_in_range (b : Bitboard) (p : Z) : bool :=
  (0 <=? p) && (p <? Ranks b * Files b).

Definition cat_in_range (b : Bitboard) (m : Z) : bool :=
  (0 <=? m) && (m <? Z.of_nat (length (Bitmaps b))).

(** A call at an existing category and at in-range positions. *)
Definition in_range (b : Bitboard) (o : op) : bool :=
  match o with
  | Place m p => cat_in_range b m && pos_in_range b p
  | Remove m p => cat_in_range b m && pos_in_range b p
  | Move m p1 p2 => cat_in_range b m && pos_in_range b p1 && pos_in_range b p2
  end.

(** No category other than [m] holds bit [p]; [i] is the index of the
    head of [ws]. *)
Fixpoint others_clear (ws : list Z) (i m p : Z) : bool :=
  match ws with
  | [] => true
  | w :: ws' =>
      ((i =? m) || negb (Z.testbit w p)) && others_clear ws' (i + 1) m p
  end.

(** An in-range call that, when it clears a square, clears one that no
    other category holds. *)
Definition respects_owner (b : Bitboard) (o : op) : bool :=
  in_range b o &&
  match o with
  | Place _ _ => true
  | Remove m p => others_clear (Bitmaps b) 0 m p
  | Move m p1 _ => others_clear (Bitmaps b) 0 m p1
  end.

(** One public operation that is allowed by [guard] and returns. *)
Definition step (guard : Bitboard -> op -> bool) (b : Bitboard) (o : op)
    (b' : Bitboard) : Prop :=
  guard b o = true /\ run_op o b = (Ret tt, b').

(** The states reachable from a preset constructor. *)
Inductive reachable (guard : Bitboard -> op -> bool) : Bitboard -> Prop :=
| reach_preset b : In b presets -> reachable guard b
| reach_step b o b' :
    reachable guard b -> step guard b o b' -> reachable guard b'.

(** The inductive invariant of the mutators: the words are [uint64], the
    board has at most 64 squares, and [Occupied] is the union. *)
Definition board_inv (b : Bitboard) : Prop :=
  wf_board b /\ Ranks b * Files b <= 64 /\ occupied_is_union b.

(** The conditions of the claim on construction, and the checks of [New]. *)
Definition invalid_dimensions (ranks files : Z) : Prop :=
  ranks <= 0 \/ files <= 0 \/ 64 < ranks * files.

Definition rejected_by_New (ranks files : Z) : Prop :=
  ranks < 0 \/ files < 0 \/ 64 < Go.imul ranks files.

(** Bit [p] of a word is set. *)
Definition bit_set (w p : Z) : Prop := Z.testbit w p = true.

(** ** Bit-level reading of the flips.  A word is read as the function
    from bit indices to bits; each stage of a flip is read as a function on
    such functions. *)

Definition in_word (n : Z) : bool := (0 <=? n) && (n <? 64).

(** Bit [n] of [((x >> s) & k) | ((x & k) << s)]. *)
Definition swap_bits (k s : Z) (f : Z -> bool) (n : Z) : bool :=
  if in_word n then
    if Z.testbit k n then
      if Z.testbit k (n - s) then f (n + s) || f (n - s) else f (n + s)
    else if Z.testbit k (n - s) then f (n - s) else false
  else false.

(** Bit [n] of [(x >> 32) | (x << 32)]. *)
Definition rot32_bits (f : Z -> bool) (n : Z) : bool :=
  if in_word n then (if n <? 32 then f (n + 32) else f (n - 32)) else false.

(** Bit [n] of [x ^ t ^ (t >> s)] for [t = k & (x ^ (x << s))]. *)
Definition delta_bits (k s : Z) (f : Z -> bool) (n : Z) : bool :=
  if in_word n then
    if Z.testbit k n then
      if Z.testbit k (n + s)
      then xorb (f n) (xorb (xorb (f n) (f (n - s))) (xorb (f (n + s)) (f n)))
      else f (n - s)
    else if Z.testbit k (n + s) then f (n + s) else f n
  else false.

Definition FlipVertical_bits (f : Z -> bool) : Z -> bool :=
  rot32_bits
    (swap_bits 0x0000FFFF0000FFFF 16 (swap_bits 0x00FF00FF00FF00FF 8 f)).

Definition FlipHorizontal_bits (f : Z -> bool) : Z -> bool :=
  swap_bits 0x0f0f0f0f0f0f0f0f 4
    (swap_bits 0x3333333333333333 2 (swap_bits 0x5555555555555555 1 f)).

Definition FlipDiagonalA1H8_bits (f : Z -> bool) : Z -> bool :=
  delta_bits 0x5500550055005500 7
    (delta_bits 0x3333000033330000 14 (delta_bits 0x0f0f0f0f00000000 28 f)).

Definition Rotate180_bits (f : Z -> bool) : Z -> bool :=
  FlipHorizontal_bits (FlipVertical_bits f).

Definition Rotate90_bits (f : Z -> bool) : Z -> bool :=
  FlipVertical_bits (FlipDiagonalA1H8_bits f).

(** The squares of the 8x8 grid, as bit indices. *)
Definition squares : list Z := map Z.of_nat (seq 0 64).

(** ** Notions for the properties beyond the claims *)

(** At most one category holds a square. *)
Definition one_owner (b : Bitboard) : Prop :=
  forall i j wi wj,
    Bitmaps b !! i = Some wi -> Bitmaps b !! j = Some wj -> i <> j ->
    Z.land wi wj = 0.

(** An in-range call that touches only squares no other category holds. *)
Definition plays_fair (b : Bitboard) (o : op) : bool :=
  in_range b o &&
  match o with
  | Place m p => others_clear (Bitmaps b) 0 m p
  | Remove m p => others_clear (Bitmaps b) 0 m p
  | Move m p1 p2 =>
      others_clear (Bitmaps b) 0 m p1 && others_clear (Bitmaps b) 0 m p2
  end.

(** The test of [one_owner] on a slice given in full. *)
Fixpoint pairwise_disjointb (ws : list Z) : bool :=
  match ws with
  | [] => true
  | w :: r => forallb (fun v => Z.land w v =? 0) r && pairwise_disjointb r
  end.

(** Only the bits of the squares of the board are used. *)
Definition within_extent (b : Bitboard) : Prop :=
  0 <= Occupied b < 2 ^ (Ranks b * Files b) /\
  Forall (fun w => 0 <= w < 2 ^ (Ranks b * Files b)) (Bitmaps b).

(** What every board reached by fair play satisfies. *)
Definition good_board (b : Bitboard) : Prop :=
  board_inv b /\ one_owner b /\ within_extent b /\
  length (Symbols b) = length (Bitmaps b) /\
  Forall (fun s => String.length s = 1%nat) (Symbols b).

(** The earlier aggregate that a board gives when [Occupied] is dropped. *)
Definition without_Occupied (b : Bitboard) : board64.Bitboard :=
  board64.mkBitboard (Bitmaps b) (Symbols b) (Ranks b) (Files b).

(** Bit [n] of [x ^ (k & (x ^ (x << s) ^ (x >> s)))], the first stage of
    [FlipDiagonalA8H1]: under the mask a bit is taken from [s] places
    below or above, whichever lies in the word. *)
Definition cross_bits (k s : Z) (f : Z -> bool) (n : Z) : bool :=
  if in_word n then
    if Z.testbit k n then
      if in_word (n - s) then
        if in_word (n + s) then xorb (f (n - s)) (f (n + s)) else f (n - s)
      else if in_word (n + s) then f (n + s) else false
    else f n
  else false.

Definition FlipDiagonalA8H1_bits (f : Z -> bool) : Z -> bool :=
  delta_bits 0xaa00aa00aa00aa00 9
    (delta_bits 0xcccc0000cccc0000 18 (cross_bits 0xf0f0f0f00f0f0f0f 36 f)).

Definition Rotate270_bits (f : Z -> bool) : Z -> bool :=
  FlipDiagonalA1H8_bits (FlipVertical_bits f).

(** The per-bit count written as a sum over the 64 squares. *)
Definition count_on (f : Z -> bool) (l : list Z) : Z :=
  sum_list (map (fun n => if f n then 1 else 0) l).

(* ===================================================================== *)
(** * Machine integers: basic facts *)
(* ===================================================================== *)

(** Linear arithmetic with divisions and remainders by constants. *)
Ltac lia_div := zify; Z.to_euclidean_division_equations; lia.

Section GoFacts.

Lemma wrap_uint64_small z : Go.is_uint64 z -> Go.wrap_uint64 z = z.
Proof. unfold Go.is_uint64, Go.wrap_uint64. intros. apply Z.mod_small. lia. Qed.

Lemma wrap_int_small z : Go.is_int z -> Go.wrap_int z = z.
Proof.
  unfold Go.is_int, Go.wrap_int. intros.
  rewrite Z.mod_small by lia. lia.
Qed.

Lemma wrap_uint64_range z : Go.is_uint64 (Go.wrap_uint64 z).
Proof. unfold Go.is_uint64, Go.wrap_uint64. apply Z.mod_pos_bound. lia. Qed.

Lemma uint_of_int_nonneg p : 0 <= p -> Go.is_int p -> Go.uint_of_int p = p.
Proof.
  unfold Go.is_int, Go.uint_of_int. intros. apply Z.mod_small. lia.
Qed.

Lemma uint_of_int_out_of_range p :
  Go.is_int p -> p < 0 \/ 64 <= p -> 64 <= Go.uint_of_int p.
Proof.
  unfold Go.is_int, Go.uint_of_int. intros Hp [Hn | Hb].
  - replace p with (p + 2 ^ 64 + (-1) * 2 ^ 64) by ring.
    rewrite Z.mod_add by lia. rewrite Z.mod_small; lia.
  - rewrite Z.mod_small; lia.
Qed.

Lemma land_ones64 z : Go.is_uint64 z -> Z.land z (2 ^ 64 - 1) = z.
Proof.
  unfold Go.is_uint64. intros.
  change (2 ^ 64 - 1) with (Z.ones 64).
  rewrite Z.land_ones by lia. apply Z.mod_small. lia.
Qed.

End GoFacts.

(* ===================================================================== *)
(** * Bit primitives outside the word *)
(* ===================================================================== *)

(** C9.  For every 64-bit board value [i] and every [int] position [p]
    outside [0, 64) (negative, or 64 and more), [SetBit], [ClearBit] and
    [ToggleBit] leave the board unchanged and [GetBit] returns 0: the shift
    count [uint(p)] is at least 64, so the mask is zero (all ones once
    complemented) and no other bit is touched. *)
Theorem bit_primitives_out_of_range (i p : Z) :
  Go.is_uint64 i -> Go.is_int p -> p < 0 \/ 64 <= p ->
  util.SetBit i p = i /\ util.ClearBit i p = i /\
  util.ToggleBit i p = i /\ util.GetBit i p = 0.
Proof.
  intros Hi Hp Hout.
  pose proof (uint_of_int_out_of_range p Hp Hout) as Hu.
  assert (Hs : (Go.uint_of_int p <? 64) = false) by (apply Z.ltb_ge; lia).
  unfold util.SetBit, util.ClearBit, util.ToggleBit, util.GetBit, Go.shl, Go.shr.
  rewrite Hs. split; [| split; [| split]].
  - apply Z.lor_0_r.
  - change (Go.not 0) with (2 ^ 64 - 1). now apply land_ones64.
  - apply Z.lxor_0_r.
  - reflexivity.
Qed.

Lemma bit_primitives_out_of_range_witness :
  util.SetBit 5 (-1) = 5 /\ util.ClearBit 5 (-1) = 5 /\
  util.ToggleBit 5 (-1) = 5 /\ util.GetBit 5 (-1) = 0.
Proof.
  apply (bit_primitives_out_of_range 5 (-1)).
  - unfold Go.is_uint64. lia.
  - unfold Go.is_int. lia.
  - left. lia.
Defined.

(* ===================================================================== *)
(** * Construction *)
(* ===================================================================== *)

Section Construction.

(** What [New] checks: the error is set exactly by its three tests. *)
Lemma New_error_iff (ranks files : Z) :
  snd (New ranks files) <> None <-> rejected_by_New ranks files.
Proof.
  unfold New, rejected_by_New; cbn [snd].
  destruct (Z.ltb_spec ranks 0), (Z.ltb_spec files 0),
    (Z.ltb_spec 64 (Go.imul ranks files));
    split; intros H'; try discriminate; try lia; try congruence.
Qed.

(** [New] always hands back a board: the zero value with the requested
    dimensions stored in it. *)
Lemma New_board (ranks files : Z) :
  fst (New ranks files) = Some (mkBitboard [] [] 0 ranks files).
Proof. reflexivity. Qed.

End Construction.

(** C5, at the failing input.  [New(0, 8)] reports no error although the
    number of ranks is not greater than zero: the tests are [ranks < 0] and
    [files < 0], while the messages and the claim ask for strictly positive
    dimensions. *)
Theorem New_accepts_zero_ranks :
  invalid_dimensions 0 8 /\ snd (New 0 8) = None.
Proof. split; [left; lia | reflexivity]. Qed.

(** C6, as stated, fails: [New(9, 9)] returns the error together with a
    board, not instead of one. *)
Lemma New_9_9_not_fail_closed :
  ~ (snd (New 9 9) <> None -> fst (New 9 9) = None).
Proof. intros H. cbn in H. discriminate H. discriminate. Qed.

(** C6, amended.  When the dimensions fail one of the tests of [New]
    ([ranks < 0], [files < 0], or the [int] product above 64, as for 9 by
    9), [New] returns the construction error, and next to it a board that
    is not nil: the zero value (no bitmaps, no symbols, [Occupied] 0) with
    the requested [Ranks] and [Files] stored in it. *)
Theorem New_rejected_error_and_zero_board (ranks files : Z) :
  rejected_by_New ranks files ->
  exists e : error,
    New ranks files = (Some (mkBitboard [] [] 0 ranks files), Some e).
Proof.
  intros H. apply New_error_iff in H.
  pose proof (New_board ranks files) as Hb.
  destruct (New ranks files) as [b e]. cbn [fst snd] in Hb, H.
  destruct e as [e |]; [| congruence].
  exists e. now rewrite Hb.
Qed.

Lemma New_rejected_error_and_zero_board_witness :
  exists e : error, New 9 9 = (Some (mkBitboard [] [] 0 9 9), Some e).
Proof.
  apply (New_rejected_error_and_zero_board 9 9).
  right; right. vm_compute. reflexivity.
Defined.

(* ===================================================================== *)
(** * Coordinate conversions *)
(* ===================================================================== *)

Section Enumeration.

(** A boolean test that holds on a whole initial segment of [Z]. *)
Lemma Zrange_forallb (P : Z -> bool) (n : nat) :
  forallb P (map Z.of_nat (seq 0 n)) = true ->
  forall z, 0 <= z < Z.of_nat n -> P z = true.
Proof.
  intros H z Hz. rewrite forallb_forall in H. apply H.
  apply in_map_iff. exists (Z.to_nat z). split; [lia |].
  apply in_seq. lia.
Qed.

(** A property of bytes that holds of each of the 256 bytes. *)
Lemma ascii_forall (P : ascii -> bool) :
  forallb (fun n => P (ascii_of_nat n)) (seq 0 256) = true ->
  forall a, P a = true.
Proof.
  intros H a. rewrite forallb_forall in H.
  rewrite <- (ascii_nat_embedding a). apply H.
  apply in_seq. pose proof (nat_ascii_bounded a). lia.
Qed.

End Enumeration.

Section Algebraic.

(** Only the first byte of the string matters to the file loop. *)
Lemma find_file_head (a : ascii) (r : string) vs i x :
  util.find_file (String a r) vs i x =
  util.find_file (String a EmptyString) vs i x.
Proof.
  revert i x. induction vs as [| v vs IH]; intros i x; [reflexivity |].
  cbn [util.find_file Go.index String.get]. apply IH.
Qed.

Lemma find_file_byte (a : ascii) (r : string) :
  util.find_file (String a r) util.symbols 0 0 = Some (file_of_byte a).
Proof.
  rewrite find_file_head.
  pose proof (ascii_forall (fun a =>
    match util.find_file (String a EmptyString) util.symbols 0 0 with
    | Some x => x =? file_of_byte a
    | None => false
    end)) as H.
  specialize (H ltac:(vm_compute; reflexivity) a). cbv beta in H.
  destruct (util.find_file _ _ _ _) as [x |]; [| discriminate].
  apply Z.eqb_eq in H. now subst.
Qed.

Lemma rank_byte (b : ascii) :
  Go.isub (fst (Go.Atoi (Go.string_of_byte b))) 1 = rank_of_byte b.
Proof.
  apply Z.eqb_eq.
  apply (ascii_forall (fun b =>
    Go.isub (fst (Go.Atoi (Go.string_of_byte b))) 1 =? rank_of_byte b)).
  vm_compute. reflexivity.
Qed.

(** [AlgebraicToCartesian] reads two bytes and nothing else. *)
Lemma AlgebraicToCartesian_bytes (a b : ascii) (r : string) (files : Z) :
  util.AlgebraicToCartesian (String a (String b r)) files =
  Some (file_of_byte a, rank_of_byte b).
Proof.
  unfold util.AlgebraicToCartesian. rewrite find_file_byte.
  cbn [Go.index String.get]. now rewrite rank_byte.
Qed.

(** The first byte of the encoding of a code point: the code point
    itself below 128, a lead byte from 192 on otherwise, which is then
    followed by a continuation byte in [128, 192). *)
Lemma utf8_shape (c : N) :
  Go.is_rune c ->
  ((c < 128)%N /\ Go.utf8 c = String (ascii_of_N c) EmptyString) \/
  exists a b r,
    Go.utf8 c = String a (String b r) /\
    (192 <= N_of_ascii a)%N /\ (128 <= N_of_ascii b < 192)%N.
Proof.
  unfold Go.is_rune, Go.utf8. intros Hc.
  destruct (N.ltb_spec c 128); [left; now split | right].
  destruct (N.ltb_spec c 2048); [| destruct (N.ltb_spec c 65536)];
    eexists _, _, _; (split; [reflexivity |]);
    rewrite !N_ascii_embedding by lia_div; lia_div.
Qed.

End Algebraic.

(** C10.  For every string [p] made of two characters (code points [c1]
    and [c2], held in UTF-8 as Go strings are), [AlgebraicToCartesian]
    returns a pair and never panics; the file is 0 when [c1] is not one of
    ['a'..'h'], the rank is -1 when [c2] is not a decimal digit, and the
    [files] argument does not change the pair. *)
Theorem AlgebraicToCartesian_never_fails (c1 c2 : N) (files files' : Z) :
  Go.is_rune c1 -> Go.is_rune c2 ->
  exists x y : Z,
    util.AlgebraicToCartesian (Go.utf8 c1 ++ Go.utf8 c2) files = Some (x, y) /\
    (~ (97 <= c1 <= 104)%N -> x = 0) /\
    (~ (48 <= c2 <= 57)%N -> y = -1) /\
    util.AlgebraicToCartesian (Go.utf8 c1 ++ Go.utf8 c2) files' = Some (x, y).
Proof.
  intros H1 H2.
  assert (Hfile : forall a, ~ (97 <= N_of_ascii a <= 104)%N -> file_of_byte a = 0).
  { intros a Ha. unfold file_of_byte.
    destruct (N.leb_spec 97 (N_of_ascii a)), (N.leb_spec (N_of_ascii a) 104);
      cbn; lia. }
  assert (Hrank : forall b, ~ (48 <= N_of_ascii b <= 57)%N -> rank_of_byte b = -1).
  { intros b Hb. unfold rank_of_byte.
    destruct (N.leb_spec 48 (N_of_ascii b)), (N.leb_spec (N_of_ascii b) 57);
      cbn; lia. }
  destruct (utf8_shape c1 H1) as [[Hlt1 E1] | (a & b & r & E1 & Ha & Hb)];
    rewrite E1.
  - destruct (utf8_shape c2 H2) as [[Hlt2 E2] | (a' & b' & r' & E2 & Ha' & Hb')];
      rewrite E2; cbn [String.append]; rewrite !AlgebraicToCartesian_bytes;
      eexists _, _; (split; [reflexivity |]).
    + repeat split.
      * intros Hn. apply Hfile. rewrite N_ascii_embedding by lia. exact Hn.
      * intros Hn. apply Hrank. rewrite N_ascii_embedding by lia. exact Hn.
    + repeat split.
      * intros Hn. apply Hfile. rewrite N_ascii_embedding by lia. exact Hn.
      * intros _. apply Hrank. lia.
  - cbn [String.append]. rewrite !AlgebraicToCartesian_bytes.
    eexists _, _; (split; [reflexivity |]). repeat split.
    + intros _. apply Hfile. lia.
    + intros _. apply Hrank. lia.
Qed.

Lemma AlgebraicToCartesian_never_fails_witness :
  exists x y : Z,
    util.AlgebraicToCartesian (Go.utf8 122 ++ Go.utf8 63) 8 = Some (x, y) /\
    (~ (97 <= 122 <= 104)%N -> x = 0) /\
    (~ (48 <= 63 <= 57)%N -> y = -1) /\
    util.AlgebraicToCartesian (Go.utf8 122 ++ Go.utf8 63) 3 = Some (x, y).
Proof.
  apply (AlgebraicToCartesian_never_fails 122 63 8 3);
    unfold Go.is_rune; lia.
Defined.

Section RoundTrips.

(** The linear round trip holds for any positive width, as long as the
    bit index fits an [int]. *)
Lemma BitToCartesian_CartesianToBit (x y files : Z) :
  0 <= x < files -> 0 <= y -> y * files + x < 2 ^ 63 ->
  util.BitToCartesian (util.CartesianToBit x y files) files = Some (x, y).
Proof.
  intros Hx Hy Hb.
  assert (Hyf : 0 <= y * files) by nia.
  unfold util.CartesianToBit, Go.iadd, Go.imul.
  rewrite (wrap_int_small (y * files)) by (unfold Go.is_int; lia).
  rewrite (wrap_int_small (y * files + x)) by (unfold Go.is_int; lia).
  unfold util.BitToCartesian, Go.irem, Go.idiv.
  destruct (Z.eqb_spec files 0) as [-> | Hnz]; [lia |].
  rewrite Z.rem_mod_nonneg, Z.quot_div_nonneg by lia.
  rewrite Z.add_comm, Z.mod_add, Z.div_add by lia.
  rewrite Z.mod_small, Z.div_small by lia.
  rewrite !wrap_int_small by (unfold Go.is_int; lia).
  reflexivity.
Qed.

(** The algebraic round trip holds on the eight files and on the ranks
    that print as one digit. *)
Lemma algebraic_round_trip_one_digit (x y files : Z) :
  0 <= x < 8 -> 0 <= y < 9 -> algebraic_round_trip x y files.
Proof.
  intros Hx Hy.
  assert (H : algebraic_round_tripb files x y = true).
  { change (algebraic_round_tripb files x y)
      with (algebraic_round_tripb 0 x y).
    revert y Hy. apply (Zrange_forallb _ 9).
    revert x Hx.
    apply (Zrange_forallb
             (fun x => forallb (algebraic_round_tripb 0 x)
                         (map Z.of_nat (seq 0 9))) 8).
    vm_compute. reflexivity. }
  unfold algebraic_round_tripb in H. unfold algebraic_round_trip.
  destruct (util.CartesianToAlgebraic x y files) as [s |]; [| discriminate].
  exists s. split; [reflexivity |].
  destruct (util.AlgebraicToCartesian s files) as [[x' y'] |]; [| discriminate].
  apply andb_true_iff in H. destruct H as [H1 H2].
  apply Z.eqb_eq in H1, H2. now subst.
Qed.

End RoundTrips.

(** C2, as stated, fails: on a board three files wide the pair (0, 9) is
    valid (bit 27), it prints as ["a10"], and only the first rank digit is
    read back. *)
Lemma algebraic_round_trip_fails_at_rank_10 :
  valid_xy 0 9 3 /\ ~ algebraic_round_trip 0 9 3.
Proof.
  split; [unfold valid_xy; lia |].
  intros [s [Hs Hback]]. vm_compute in Hs. injection Hs as <-.
  vm_compute in Hback. discriminate Hback.
Qed.

(** C2, amended.  For [files] in {3, 7, 8} and every valid pair [(x, y)]
    ([0 <= x < files], [0 <= y], [y * files + x < 64]),
    [BitToCartesian (CartesianToBit x y files) files] is [(x, y)]; and, when
    moreover [y <= 8], so that the rank [y + 1] prints as a single digit,
    [AlgebraicToCartesian (CartesianToAlgebraic x y files) files] is
    [(x, y)]. *)
Theorem coordinate_round_trips (x y files : Z) :
  files = 3 \/ files = 7 \/ files = 8 ->
  valid_xy x y files ->
  util.BitToCartesian (util.CartesianToBit x y files) files = Some (x, y) /\
  (y <= 8 -> algebraic_round_trip x y files).
Proof.
  intros Hf (Hx & Hy & Hb). split.
  - apply BitToCartesian_CartesianToBit; lia.
  - intros Hy8. apply algebraic_round_trip_one_digit; lia.
Qed.

Lemma coordinate_round_trips_witness :
  util.BitToCartesian (util.CartesianToBit 2 8 7) 7 = Some (2, 8) /\
  (8 <= 8 -> algebraic_round_trip 2 8 7).
Proof.
  apply (coordinate_round_trips 2 8 7).
  - right; left; reflexivity.
  - unfold valid_xy. lia.
Defined.

(* ===================================================================== *)
(** * Bit primitives inside the word *)
(* ===================================================================== *)

Section Bits.

Lemma testbit_uint64_high (w n : Z) :
  Go.is_uint64 w -> 64 <= n -> Z.testbit w n = false.
Proof.
  unfold Go.is_uint64. intros Hw Hn.
  rewrite <- (Z.mod_small w (2 ^ 64)) by lia.
  apply Z.mod_pow2_bits_high. lia.
Qed.

Lemma is_uint64_of_bits (z : Z) :
  0 <= z -> (forall n, 64 <= n -> Z.testbit z n = false) -> Go.is_uint64 z.
Proof.
  intros Hz Hhigh.
  assert (E : z mod 2 ^ 64 = z).
  { apply Z.bits_inj'. intros n Hn.
    rewrite Z.testbit_mod_pow2 by lia.
    destruct (Z.ltb_spec n 64); cbn; [reflexivity |].
    symmetry. now apply Hhigh. }
  unfold Go.is_uint64. rewrite <- E. apply Z.mod_pos_bound. lia.
Qed.

Lemma is_uint64_lor (a b : Z) :
  Go.is_uint64 a -> Go.is_uint64 b -> Go.is_uint64 (Z.lor a b).
Proof.
  intros Ha Hb. apply is_uint64_of_bits.
  - apply Z.lor_nonneg. unfold Go.is_uint64 in *. lia.
  - intros n Hn. rewrite Z.lor_spec, !testbit_uint64_high by assumption.
    reflexivity.
Qed.

Lemma is_uint64_land (a b : Z) :
  Go.is_uint64 a -> Go.is_uint64 (Z.land a b).
Proof.
  intros Ha. apply is_uint64_of_bits.
  - apply Z.land_nonneg. unfold Go.is_uint64 in *. lia.
  - intros n Hn. rewrite Z.land_spec, testbit_uint64_high by assumption.
    reflexivity.
Qed.

Lemma is_uint64_shl (x s : Z) : Go.is_uint64 (Go.shl x s).
Proof.
  unfold Go.shl. destruct (s <? 64); [apply wrap_uint64_range |].
  unfold Go.is_uint64. lia.
Qed.

Lemma shl_1 (p : Z) : 0 <= p < 64 -> Go.shl 1 p = 2 ^ p.
Proof.
  intros Hp. unfold Go.shl, Go.wrap_uint64.
  destruct (Z.ltb_spec p 64); [| lia].
  rewrite Z.shiftl_1_l. apply Z.mod_small.
  split; [apply Z.pow_nonneg; lia | apply Z.pow_lt_mono_r; lia].
Qed.

Lemma SetBit_bits (w p n : Z) :
  Go.is_int p -> 0 <= p < 64 ->
  Z.testbit (util.SetBit w p) n = Z.testbit w n || (p =? n).
Proof.
  intros Hi Hp. unfold util.SetBit.
  rewrite uint_of_int_nonneg, shl_1 by (assumption || lia).
  rewrite Z.lor_spec, Z.pow2_bits_eqb by lia. reflexivity.
Qed.

Lemma ClearBit_bits (w p n : Z) :
  Go.is_uint64 w -> Go.is_int p -> 0 <= p < 64 ->
  Z.testbit (util.ClearBit w p) n = Z.testbit w n && negb (p =? n).
Proof.
  intros Hw Hi Hp. unfold util.ClearBit, Go.not, Go.wrap_uint64.
  rewrite uint_of_int_nonneg, shl_1 by (assumption || lia).
  destruct (Z.ltb_spec n 0) as [Hneg | Hn].
  { rewrite (Z.testbit_neg_r _ n Hneg), (Z.testbit_neg_r w n Hneg).
    reflexivity. }
  rewrite Z.land_spec, Z.testbit_mod_pow2 by lia.
  destruct (Z.ltb_spec n 64) as [Hlt | Hge]; cbn [andb].
  - rewrite Z.lnot_spec, Z.pow2_bits_eqb by lia. reflexivity.
  - rewrite testbit_uint64_high by (assumption || lia). reflexivity.
Qed.

Lemma GetBit_b2z (w p : Z) :
  Go.is_uint64 w -> Go.is_int p -> 0 <= p ->
  util.GetBit w p = Z.b2z (Z.testbit w p).
Proof.
  intros Hw Hi Hp. unfold util.GetBit, Go.shr, Go.int_of_uint64.
  rewrite uint_of_int_nonneg by assumption.
  destruct (Z.ltb_spec p 64) as [Hlt | Hge].
  - change 1 with (Z.ones 1). rewrite Z.land_ones by lia.
    change (2 ^ 1) with 2. rewrite <- Z.bit0_mod.
    rewrite Z.shiftr_spec, Z.add_0_l by lia.
    rewrite wrap_int_small; [reflexivity |].
    unfold Go.is_int. destruct (Z.testbit w p); cbn; lia.
  - rewrite testbit_uint64_high by assumption. reflexivity.
Qed.

(** [Union] as a fold from any starting word. *)
Lemma fold_lor_start (ws : list Z) (a : Z) :
  fold_left (fun u v => Z.lor u v) ws a = Z.lor a (util.Union ws).
Proof.
  unfold util.Union. revert a.
  induction ws as [| w ws IH]; intros a; cbn [fold_left].
  - now rewrite Z.lor_0_r.
  - rewrite (IH (Z.lor a w)), (IH (Z.lor 0 w)). cbn [Z.lor].
    now rewrite Z.lor_assoc.
Qed.

Lemma Union_cons (w : Z) (ws : list Z) :
  util.Union (w :: ws) = Z.lor w (util.Union ws).
Proof. unfold util.Union at 1. cbn [fold_left]. apply fold_lor_start. Qed.

Lemma Union_app (l1 l2 : list Z) :
  util.Union (l1 ++ l2) = Z.lor (util.Union l1) (util.Union l2).
Proof.
  induction l1 as [| w l1 IH]; [reflexivity |].
  cbn [app]. rewrite !Union_cons, IH. apply Z.lor_assoc.
Qed.

(** Bit [n] of the union is set exactly when some word has it. *)
Lemma Union_bits (ws : list Z) (n : Z) :
  Z.testbit (util.Union ws) n = existsb (fun w => Z.testbit w n) ws.
Proof.
  induction ws as [| w ws IH]; [apply Z.testbit_0_l |].
  rewrite Union_cons, Z.lor_spec, IH. reflexivity.
Qed.

Lemma is_uint64_Union (ws : list Z) :
  Forall Go.is_uint64 ws -> Go.is_uint64 (util.Union ws).
Proof.
  induction 1 as [| w ws Hw _ IH]; [unfold Go.is_uint64; cbn; lia |].
  rewrite Union_cons. now apply is_uint64_lor.
Qed.

End Bits.

(* ===================================================================== *)
(** * Looking a square up *)
(* ===================================================================== *)

Section Lookup.

(** The scan returns [-1] when no word has the bit. *)
Lemma scan_none (ws : list Z) (i p : Z) :
  Forall Go.is_uint64 ws -> Go.is_int p -> 0 <= p ->
  (forall j w, ws !! j = Some w -> Z.testbit w p = false) ->
  scan ws i p = -1.
Proof.
  intros Hws Hi Hp. revert i.
  induction Hws as [| w ws Hw _ IH]; intros i Hnone; [reflexivity |].
  cbn [scan]. rewrite GetBit_b2z by assumption.
  rewrite (Hnone 0%nat w eq_refl). cbn.
  apply IH. intros j w' Hj. exact (Hnone (S j) w' Hj).
Qed.

(** The scan returns the first index whose word has the bit. *)
Lemma scan_first (ws : list Z) (i p : Z) :
  Forall Go.is_uint64 ws -> Go.is_int p -> 0 <= p ->
  (exists j w, ws !! j = Some w /\ Z.testbit w p = true) ->
  exists k w,
    scan ws i p = i + Z.of_nat k /\ ws !! k = Some w /\
    Z.testbit w p = true /\
    forall j w', (j < k)%nat -> ws !! j = Some w' -> Z.testbit w' p = false.
Proof.
  intros Hws Hi Hp. revert i.
  induction Hws as [| w ws Hw _ IH]; intros i (j & w0 & Hj & Hbit).
  { discriminate Hj. }
  cbn [scan]. rewrite GetBit_b2z by assumption.
  destruct (Z.testbit w p) eqn:Ew; cbn.
  - exists 0%nat, w. repeat split; [lia | assumption | lia].
  - destruct j as [| j]; [cbn in Hj; congruence |].
    destruct (IH (i + 1) (ex_intro _ j (ex_intro _ w0 (conj Hj Hbit))))
      as (k & w1 & Hscan & Hk & Hw1 & Hmin).
    exists (S k), w1. repeat split; [lia | assumption | assumption |].
    intros [| j'] w' Hlt Hj'.
    + cbn in Hj'. congruence.
    + apply (Hmin j' w'); [lia | exact Hj'].
Qed.

(** On a board whose [Occupied] is the union, the fast reject agrees with
    the scan. *)
Lemma Occupied_bit (b : Bitboard) (p : Z) :
  occupied_is_union b ->
  Z.testbit (Occupied b) p = existsb (fun w => Z.testbit w p) (Bitmaps b).
Proof. intros ->. apply Union_bits. Qed.

End Lookup.

(** C7.  On a board whose [Occupied] is the union of its category bitmaps,
    and for a bit position [p] in [0, Ranks * Files): when some category
    bitmap has bit [p] set, [GetBitmapIndex] returns the smallest index
    whose bitmap has it; when none has, it returns the sentinel [-1]. *)
Theorem GetBitmapIndex_first_owner (b : Bitboard) (p : Z) :
  wf_board b -> occupied_is_union b ->
  Go.is_int p -> 0 <= p < Ranks b * Files b ->
  ((exists j w, Bitmaps b !! j = Some w /\ bit_set w p) ->
   exists k w,
     GetBitmapIndex b p = Z.of_nat k /\ Bitmaps b !! k = Some w /\
     bit_set w p /\
     forall j w', (j < k)%nat -> Bitmaps b !! j = Some w' -> ~ bit_set w' p) /\
  ((forall j w, Bitmaps b !! j = Some w -> ~ bit_set w p) ->
   GetBitmapIndex b p = -1).
Proof.
  intros [Hocc Hws] Hunion Hi Hp. unfold GetBitmapIndex, bit_set.
  rewrite GetBit_b2z by (assumption || lia).
  rewrite (Occupied_bit b p Hunion). split.
  - intros (j & w & Hj & Hbit).
    assert (Hex : existsb (fun w => Z.testbit w p) (Bitmaps b) = true).
    { apply existsb_exists. exists w. split; [| assumption].
      apply list_elem_of_In, list_elem_of_lookup. now exists j. }
    rewrite Hex. cbn.
    destruct (scan_first (Bitmaps b) 0 p Hws Hi ltac:(lia)
                (ex_intro _ j (ex_intro _ w (conj Hj Hbit))))
      as (k & w1 & Hscan & Hk & Hw1 & Hmin).
    exists k, w1. repeat split; try assumption.
    intros j' w' Hlt Hj'. rewrite (Hmin j' w' Hlt Hj'). discriminate.
  - intros Hnone.
    destruct (existsb _ _); cbn; [| reflexivity].
    apply scan_none; try assumption; [lia |].
    intros j w Hj. specialize (Hnone j w Hj).
    now destruct (Z.testbit w p).
Qed.

Lemma GetBitmapIndex_first_owner_witness :
  ((exists j w, Bitmaps NewChessBoard !! j = Some w /\ bit_set w 60) ->
   exists k w,
     GetBitmapIndex NewChessBoard 60 = Z.of_nat k /\
     Bitmaps NewChessBoard !! k = Some w /\ bit_set w 60 /\
     forall j w', (j < k)%nat -> Bitmaps NewChessBoard !! j = Some w' ->
                  ~ bit_set w' 60) /\
  ((forall j w, Bitmaps NewChessBoard !! j = Some w -> ~ bit_set w 60) ->
   GetBitmapIndex NewChessBoard 60 = -1).
Proof.
  apply (GetBitmapIndex_first_owner NewChessBoard 60).
  - split; [vm_compute; split; [discriminate | reflexivity] |].
    repeat constructor; discriminate.
  - reflexivity.
  - unfold Go.is_int. lia.
  - cbn. lia.
Defined.

(* ===================================================================== *)
(** * Placing, removing and moving pieces *)
(* ===================================================================== *)

Section Mutators.

(** What the two mutators compute when the category exists. *)
Lemma with_Bitmap_run (m : Z) (f : Z -> Z) (b : Bitboard) :
  cat_in_range b m = true ->
  exists w,
    Bitmaps b !! Z.to_nat m = Some w /\
    with_Bitmap m f b =
      (Ret tt, set_Bitmaps (<[Z.to_nat m := f w]> (Bitmaps b)) b).
Proof.
  unfold cat_in_range, with_Bitmap. intros Hm. rewrite Hm.
  apply andb_true_iff in Hm. destruct Hm as [H0 Hlen].
  apply Z.leb_le in H0. apply Z.ltb_lt in Hlen.
  destruct (lookup_lt_is_Some_2 (Bitmaps b) (Z.to_nat m) ltac:(lia))
    as [w Hw].
  exists w. now rewrite Hw.
Qed.

Lemma PlacePieceBit_run (m p : Z) (b : Bitboard) :
  cat_in_range b m = true ->
  exists w,
    Bitmaps b !! Z.to_nat m = Some w /\
    PlacePieceBit m p b =
      (Ret tt,
       mkBitboard (<[Z.to_nat m := util.SetBit w p]> (Bitmaps b)) (Symbols b)
         (util.SetBit (Occupied b) p) (Ranks b) (Files b)).
Proof.
  intros Hm.
  destruct (with_Bitmap_run m (fun w => util.SetBit w p)
              (set_Occupied (util.SetBit (Occupied b) p) b) Hm)
    as (w & Hw & Hrun).
  exists w. split; [exact Hw |].
  unfold PlacePieceBit, mbind, M_bind, with_Occupied. exact Hrun.
Qed.

Lemma RemovePieceBit_run (m p : Z) (b : Bitboard) :
  cat_in_range b m = true ->
  exists w,
    Bitmaps b !! Z.to_nat m = Some w /\
    RemovePieceBit m p b =
      (Ret tt,
       mkBitboard (<[Z.to_nat m := util.ClearBit w p]> (Bitmaps b)) (Symbols b)
         (util.ClearBit (Occupied b) p) (Ranks b) (Files b)).
Proof.
  intros Hm.
  destruct (with_Bitmap_run m (fun w => util.ClearBit w p)
              (set_Occupied (util.ClearBit (Occupied b) p) b) Hm)
    as (w & Hw & Hrun).
  exists w. split; [exact Hw |].
  unfold RemovePieceBit, mbind, M_bind, with_Occupied. exact Hrun.
Qed.

(** The union of a slice with one word replaced. *)
Lemma Union_insert (ws : list Z) (i : nat) (w v : Z) :
  ws !! i = Some w ->
  util.Union (<[i := v]> ws) =
  Z.lor (util.Union (take i ws)) (Z.lor v (util.Union (drop (S i) ws))).
Proof.
  intros Hw. rewrite insert_take_drop by (eapply lookup_lt_Some; eauto).
  now rewrite Union_app, Union_cons.
Qed.

Lemma Union_split (ws : list Z) (i : nat) (w : Z) :
  ws !! i = Some w ->
  util.Union ws =
  Z.lor (util.Union (take i ws)) (Z.lor w (util.Union (drop (S i) ws))).
Proof.
  intros Hw. rewrite <- (take_drop_middle ws i w Hw) at 1.
  now rewrite Union_app, Union_cons.
Qed.

(** A mask that keeps every word of a slice keeps their union. *)
Lemma Union_land_fixed (ws : list Z) (k : Z) :
  Forall (fun w => Z.land w k = w) ws ->
  Z.land (util.Union ws) k = util.Union ws.
Proof.
  induction 1 as [| w ws Hw _ IH]; [reflexivity |].
  now rewrite Union_cons, Z.land_lor_distr_l, Hw, IH.
Qed.

(** Clearing a bit that is not set changes nothing. *)
Lemma ClearBit_unset (w p : Z) :
  Go.is_uint64 w -> Go.is_int p -> 0 <= p < 64 ->
  Z.testbit w p = false -> util.ClearBit w p = w.
Proof.
  intros Hw Hi Hp Hbit. apply Z.bits_inj'. intros n Hn.
  rewrite ClearBit_bits by assumption.
  destruct (Z.eqb_spec p n) as [<- | Hne]; cbn.
  - now rewrite Hbit.
  - apply andb_true_r.
Qed.

Lemma others_clear_spec (ws : list Z) (i m p : Z) :
  others_clear ws i m p = true ->
  forall j w, ws !! j = Some w -> i + Z.of_nat j <> m -> Z.testbit w p = false.
Proof.
  revert i. induction ws as [| w0 ws IH]; intros i H j w Hj Hne.
  { discriminate Hj. }
  cbn [others_clear] in H. apply andb_true_iff in H. destruct H as [H0 Hrest].
  destruct j as [| j].
  - cbn in Hj. injection Hj as ->.
    apply orb_true_iff in H0. destruct H0 as [H0 | H0].
    + apply Z.eqb_eq in H0. lia.
    + now apply negb_true_iff in H0.
  - apply (IH (i + 1) Hrest j w Hj). lia.
Qed.

Lemma is_uint64_SetBit (w p : Z) :
  Go.is_uint64 w -> Go.is_uint64 (util.SetBit w p).
Proof. intros Hw. apply is_uint64_lor; [assumption | apply is_uint64_shl]. Qed.

Lemma is_uint64_ClearBit (w p : Z) :
  Go.is_uint64 w -> Go.is_uint64 (util.ClearBit w p).
Proof. intros Hw. now apply is_uint64_land. Qed.

(** Placing keeps the invariant, whatever the square held. *)
Lemma PlacePieceBit_inv (m p : Z) (b b' : Bitboard) :
  board_inv b -> cat_in_range b m = true ->
  PlacePieceBit m p b = (Ret tt, b') -> board_inv b'.
Proof.
  intros ((Hocc & Hws) & Hdim & Hunion) Hm Hrun.
  destruct (PlacePieceBit_run m p b Hm) as (w & Hw & E).
  rewrite E in Hrun. injection Hrun as <-.
  unfold board_inv, wf_board, occupied_is_union;
    cbn [Bitmaps Symbols Occupied Ranks Files].
  refine (conj (conj _ _) (conj Hdim _)).
  - now apply is_uint64_SetBit.
  - apply Forall_insert; [assumption |].
    apply is_uint64_SetBit. eapply Forall_lookup_1; eauto.
  - rewrite (Union_insert _ _ w _ Hw). rewrite Hunion.
    rewrite (Union_split _ _ w Hw) at 1. unfold util.SetBit.
    rewrite <- !Z.lor_assoc. f_equal.
    rewrite (Z.lor_comm (util.Union (drop _ _))).
    now rewrite !Z.lor_assoc.
Qed.

(** Removing keeps the invariant when no other category holds the
    square. *)
Lemma RemovePieceBit_inv (m p : Z) (b b' : Bitboard) :
  board_inv b -> cat_in_range b m = true -> pos_in_range b p = true ->
  others_clear (Bitmaps b) 0 m p = true ->
  RemovePieceBit m p b = (Ret tt, b') -> board_inv b'.
Proof.
  intros ((Hocc & Hws) & Hdim & Hunion) Hm Hp Hothers Hrun.
  destruct (RemovePieceBit_run m p b Hm) as (w & Hw & E).
  rewrite E in Hrun. injection Hrun as <-.
  unfold pos_in_range in Hp. apply andb_true_iff in Hp.
  destruct Hp as [Hp0 Hp1]. apply Z.leb_le in Hp0. apply Z.ltb_lt in Hp1.
  unfold cat_in_range in Hm. apply andb_true_iff in Hm.
  destruct Hm as [Hm0 _]. apply Z.leb_le in Hm0.
  assert (Hi : Go.is_int p) by (unfold Go.is_int; lia).
  assert (Hfix : forall j w', Bitmaps b !! j = Some w' -> j <> Z.to_nat m ->
                   Z.land w' (Go.not (Go.shl 1 (Go.uint_of_int p))) = w').
  { intros j w' Hj Hne. apply (ClearBit_unset w' p); try assumption.
    - eapply Forall_lookup_1; eauto.
    - lia.
    - apply (others_clear_spec _ 0 m p Hothers j w' Hj). lia. }
  unfold board_inv, wf_board, occupied_is_union;
    cbn [Bitmaps Symbols Occupied Ranks Files].
  refine (conj (conj _ _) (conj Hdim _)).
  - now apply is_uint64_ClearBit.
  - apply Forall_insert; [assumption |].
    apply is_uint64_ClearBit. eapply Forall_lookup_1; eauto.
  - rewrite (Union_insert _ _ w _ Hw). rewrite Hunion.
    rewrite (Union_split _ _ w Hw) at 1. unfold util.ClearBit.
    rewrite !Z.land_lor_distr_l.
    rewrite !Union_land_fixed; [reflexivity | |].
    + apply Forall_lookup_2. intros j w' Hj.
      rewrite lookup_drop in Hj. apply (Hfix _ _ Hj). lia.
    + apply Forall_lookup_2. intros j w' Hj.
      apply lookup_take_Some in Hj. destruct Hj as [Hj Hlt].
      apply (Hfix _ _ Hj). lia.
Qed.

(** The mutators keep the dimensions and the number of categories. *)
Lemma PlacePieceBit_shape (m p : Z) (b b' : Bitboard) :
  cat_in_range b m = true -> PlacePieceBit m p b = (Ret tt, b') ->
  Ranks b' = Ranks b /\ Files b' = Files b /\
  length (Bitmaps b') = length (Bitmaps b).
Proof.
  intros Hm Hrun. destruct (PlacePieceBit_run m p b Hm) as (w & Hw & E).
  rewrite E in Hrun. injection Hrun as <-. cbn.
  now rewrite length_insert.
Qed.

Lemma RemovePieceBit_shape (m p : Z) (b b' : Bitboard) :
  cat_in_range b m = true -> RemovePieceBit m p b = (Ret tt, b') ->
  Ranks b' = Ranks b /\ Files b' = Files b /\
  length (Bitmaps b') = length (Bitmaps b).
Proof.
  intros Hm Hrun. destruct (RemovePieceBit_run m p b Hm) as (w & Hw & E).
  rewrite E in Hrun. injection Hrun as <-. cbn.
  now rewrite length_insert.
Qed.

End Mutators.

Section Reachability.

(** Establish: every preset satisfies the invariant. *)
Lemma presets_inv (b : Bitboard) : In b presets -> board_inv b.
Proof.
  unfold presets. cbn [In].
  intros [<- | [<- | [<- | [<- | [<- | [<- | []]]]]]];
    (refine (conj (conj _ _) (conj _ _));
     [ vm_compute; split; [discriminate | reflexivity]
     | repeat constructor; discriminate
     | vm_compute; discriminate
     | reflexivity ]).
Qed.

(** Progress: a call at an existing category returns. *)
Lemma run_op_returns (b : Bitboard) (o : op) :
  in_range b o = true -> exists b', run_op o b = (Ret tt, b').
Proof.
  destruct o as [m p | m p | m p1 p2]; cbn [in_range run_op]; intros H.
  - apply andb_true_iff in H. destruct H as [Hm _].
    destruct (PlacePieceBit_run m p b Hm) as (w & _ & E). eauto.
  - apply andb_true_iff in H. destruct H as [Hm _].
    destruct (RemovePieceBit_run m p b Hm) as (w & _ & E). eauto.
  - apply andb_true_iff in H. destruct H as [H _].
    apply andb_true_iff in H. destruct H as [Hm _].
    destruct (RemovePieceBit_run m p1 b Hm) as (w & _ & E).
    pose proof (RemovePieceBit_shape m p1 b _ Hm E) as (_ & _ & Hlen).
    assert (Hm' : cat_in_range
                    (mkBitboard (<[Z.to_nat m := util.ClearBit w p1]> (Bitmaps b))
                       (Symbols b) (util.ClearBit (Occupied b) p1)
                       (Ranks b) (Files b)) m = true).
    { unfold cat_in_range in *. now rewrite Hlen. }
    destruct (PlacePieceBit_run m p2 _ Hm') as (w' & _ & E').
    unfold MovePieceBit, mbind, M_bind. rewrite E. eauto.
Qed.

(** Preserve: a step that respects the owner keeps the invariant. *)
Lemma step_inv (b b' : Bitboard) (o : op) :
  board_inv b -> step respects_owner b o b' -> board_inv b'.
Proof.
  intros Hinv [Hguard Hrun].
  unfold respects_owner in Hguard. apply andb_true_iff in Hguard.
  destruct Hguard as [Hrange Hown].
  destruct o as [m p | m p | m p1 p2]; cbn [in_range run_op] in *.
  - apply andb_true_iff in Hrange. destruct Hrange as [Hm _].
    exact (PlacePieceBit_inv m p b b' Hinv Hm Hrun).
  - apply andb_true_iff in Hrange. destruct Hrange as [Hm Hp].
    exact (RemovePieceBit_inv m p b b' Hinv Hm Hp Hown Hrun).
  - apply andb_true_iff in Hrange. destruct Hrange as [Hrange _].
    apply andb_true_iff in Hrange. destruct Hrange as [Hm Hp1].
    unfold MovePieceBit, mbind, M_bind in Hrun.
    destruct (RemovePieceBit m p1 b) as [[[] |] b1] eqn:E1;
      [| discriminate Hrun].
    pose proof (RemovePieceBit_inv m p1 b b1 Hinv Hm Hp1 Hown E1) as Hinv1.
    pose proof (RemovePieceBit_shape m p1 b b1 Hm E1) as (_ & _ & Hlen).
    assert (Hm1 : cat_in_range b1 m = true).
    { unfold cat_in_range in *. now rewrite Hlen. }
    exact (PlacePieceBit_inv m p2 b1 b' Hinv1 Hm1 Hrun).
Qed.

Lemma reachable_inv (b : Bitboard) :
  reachable respects_owner b -> board_inv b.
Proof.
  induction 1 as [b Hin | b o b' _ IH Hstep].
  - now apply presets_inv.
  - exact (step_inv b b' o IH Hstep).
Qed.

End Reachability.

(** C1, as stated, fails: removing a knight (category 1) from square a1 of
    the chess preset, where a rook (category 0) stands, is a call at an
    in-range position; it clears bit 0 of [Occupied] and leaves it set in
    the rooks' bitmap. *)
Lemma Occupied_not_union_after_foreign_remove :
  ~ (forall b, reachable in_range b -> occupied_is_union b).
Proof.
  intros H.
  specialize (H (snd (run_op (Remove 1 0) NewChessBoard))).
  assert (Hr : reachable in_range (snd (run_op (Remove 1 0) NewChessBoard))).
  { apply (reach_step in_range NewChessBoard (Remove 1 0)).
    - apply reach_preset. left. reflexivity.
    - split; reflexivity. }
  specialize (H Hr). vm_compute in H. discriminate H.
Qed.

(** C1, amended.  For every board produced by a preset constructor and
    every finite sequence of [PlacePieceBit], [RemovePieceBit] and
    [MovePieceBit] calls at existing categories and in-range positions in
    which every removal (that of a move included) clears a square that no
    other category holds, [Occupied] equals the union of the category
    bitmaps before and after every operation; and every such call
    returns. *)
Theorem Occupied_is_union_when_owner_respected (b : Bitboard) :
  reachable respects_owner b ->
  occupied_is_union b /\
  forall o, respects_owner b o = true ->
    exists b', step respects_owner b o b' /\ occupied_is_union b'.
Proof.
  intros Hr. pose proof (reachable_inv b Hr) as Hinv. split.
  - apply Hinv.
  - intros o Hguard.
    assert (Hrange : in_range b o = true).
    { unfold respects_owner in Hguard. now apply andb_true_iff in Hguard. }
    destruct (run_op_returns b o Hrange) as [b' Hrun].
    exists b'. split; [now split |].
    apply (step_inv b b' o Hinv). now split.
Qed.

Lemma Occupied_is_union_when_owner_respected_witness :
  occupied_is_union (snd (run_op (Move 5 12 28) NewChessBoard)) /\
  forall o,
    respects_owner (snd (run_op (Move 5 12 28) NewChessBoard)) o = true ->
    exists b',
      step respects_owner (snd (run_op (Move 5 12 28) NewChessBoard)) o b' /\
      occupied_is_union b'.
Proof.
  apply (Occupied_is_union_when_owner_respected
           (snd (run_op (Move 5 12 28) NewChessBoard))).
  apply (reach_step respects_owner NewChessBoard (Move 5 12 28)).
  - apply reach_preset. left. reflexivity.
  - split; reflexivity.
Defined.

(* ===================================================================== *)
(** * Flips and rotations, bit by bit *)
(* ===================================================================== *)

Section ShiftBits.

Lemma in_word_spec (n : Z) : in_word n = true <-> 0 <= n < 64.
Proof.
  unfold in_word. rewrite andb_true_iff, Z.leb_le, Z.ltb_lt. reflexivity.
Qed.

Lemma testbit_out_of_word (w n : Z) :
  Go.is_uint64 w -> in_word n = false -> Z.testbit w n = false.
Proof.
  intros Hw Hn. destruct (Z.ltb_spec n 0) as [Hneg | Hpos].
  - now apply Z.testbit_neg_r.
  - apply testbit_uint64_high; [assumption |].
    unfold in_word in Hn. apply andb_false_iff in Hn.
    destruct Hn as [Hn | Hn]; [apply Z.leb_gt in Hn | apply Z.ltb_ge in Hn];
      lia.
Qed.

Lemma shr_bits (x s n : Z) :
  0 <= s < 64 -> 0 <= n -> Z.testbit (Go.shr x s) n = Z.testbit x (n + s).
Proof.
  intros Hs Hn. unfold Go.shr.
  destruct (Z.ltb_spec s 64); [| lia]. now apply Z.shiftr_spec.
Qed.

Lemma shl_bits (x s n : Z) :
  0 <= s < 64 ->
  Z.testbit (Go.shl x s) n = in_word n && Z.testbit x (n - s).
Proof.
  intros Hs. unfold Go.shl, Go.wrap_uint64, in_word.
  destruct (Z.ltb_spec s 64); [| lia].
  destruct (Z.leb_spec 0 n) as [Hn | Hn]; cbn [andb].
  - rewrite Z.testbit_mod_pow2, Z.shiftl_spec by lia. reflexivity.
  - now apply Z.testbit_neg_r.
Qed.

Lemma is_uint64_land_r (a k : Z) :
  Go.is_uint64 k -> Go.is_uint64 (Z.land a k).
Proof. intros Hk. rewrite Z.land_comm. now apply is_uint64_land. Qed.

Lemma is_uint64_lxor (a b : Z) :
  Go.is_uint64 a -> Go.is_uint64 b -> Go.is_uint64 (Z.lxor a b).
Proof.
  intros Ha Hb. apply is_uint64_of_bits.
  - apply Z.lxor_nonneg. unfold Go.is_uint64 in *. lia.
  - intros n Hn. rewrite Z.lxor_spec, !testbit_uint64_high by assumption.
    reflexivity.
Qed.

Lemma is_uint64_shr (x s : Z) :
  0 <= s -> Go.is_uint64 x -> Go.is_uint64 (Go.shr x s).
Proof.
  intros Hs Hx. unfold Go.shr.
  destruct (Z.ltb_spec s 64); [| unfold Go.is_uint64; lia].
  apply is_uint64_of_bits.
  - apply Z.shiftr_nonneg. unfold Go.is_uint64 in Hx. lia.
  - intros n Hn. rewrite Z.shiftr_spec by lia.
    apply testbit_uint64_high; [assumption | lia].
Qed.

(** A mask bit that is set lies inside the word. *)
Lemma mask_bit_in_word (k n : Z) :
  Go.is_uint64 k -> Z.testbit k n = true -> in_word n = true.
Proof.
  intros Hk Hbit. destruct (in_word n) eqn:E; [reflexivity |].
  rewrite (testbit_out_of_word k n Hk E) in Hbit. discriminate.
Qed.

End ShiftBits.

Section Stages.

Variables (k s : Z).
Hypothesis Hk : Go.is_uint64 k.
Hypothesis Hs : 0 < s < 64.

Lemma swap_uint64 (x : Z) :
  Go.is_uint64 (Z.lor (Z.land (Go.shr x s) k) (Go.shl (Z.land x k) s)).
Proof using Hk.
  apply is_uint64_lor; [now apply is_uint64_land_r | apply is_uint64_shl].
Qed.

Lemma swap_spec (x n : Z) :
  Z.testbit (Z.lor (Z.land (Go.shr x s) k) (Go.shl (Z.land x k) s)) n =
  swap_bits k s (Z.testbit x) n.
Proof using Hk Hs.
  unfold swap_bits. destruct (in_word n) eqn:Hn.
  - pose proof (proj1 (in_word_spec n) Hn) as Hr.
    rewrite Z.lor_spec, Z.land_spec, shr_bits, shl_bits, Z.land_spec, Hn
      by lia.
    destruct (Z.testbit k n), (Z.testbit k (n - s)),
      (Z.testbit x (n + s)), (Z.testbit x (n - s)); reflexivity.
  - apply testbit_out_of_word; [apply swap_uint64 | assumption].
Qed.

Lemma swap_ext (f g : Z -> bool) :
  (forall n, f n = g n) -> forall n, swap_bits k s f n = swap_bits k s g n.
Proof using Type. intros E n. unfold swap_bits. now rewrite !E. Qed.

(** The additive form of the same stage, as [FlipHorizontal] writes it:
    the two summands have no bit in common. *)
Lemma swap_add (x : Z) :
  Z.land k (Go.shl k s) = 0 ->
  Go.add (Z.land (Go.shr x s) k) (Go.mul (2 ^ s) (Z.land x k)) =
  Z.lor (Z.land (Go.shr x s) k) (Go.shl (Z.land x k) s).
Proof using Hk Hs.
  intros Hdisj.
  assert (Hmul : Go.mul (2 ^ s) (Z.land x k) = Go.shl (Z.land x k) s).
  { unfold Go.mul, Go.shl. destruct (Z.ltb_spec s 64); [| lia].
    now rewrite Z.shiftl_mul_pow2, Z.mul_comm by lia. }
  rewrite Hmul.
  assert (Hnc : Z.land (Z.land (Go.shr x s) k) (Go.shl (Z.land x k) s) = 0).
  { apply Z.bits_inj'. intros n Hn.
    assert (Hd : Z.testbit (Z.land k (Go.shl k s)) n = false)
      by (rewrite Hdisj; apply Z.testbit_0_l).
    rewrite Z.land_spec, shl_bits in Hd by lia.
    rewrite !Z.land_spec, shl_bits, Z.land_spec, Z.testbit_0_l by lia.
    destruct (Z.testbit k n), (in_word n), (Z.testbit k (n - s));
      cbn in *; try discriminate;
      rewrite ?andb_false_r, ?andb_false_l; reflexivity. }
  unfold Go.add.
  rewrite Z.add_nocarry_lxor, Z.lxor_lor by assumption.
  apply wrap_uint64_small, swap_uint64.
Qed.

Lemma delta_uint64 (x : Z) :
  Go.is_uint64 x ->
  Go.is_uint64
    (Z.lxor x
       (Z.lxor (Z.land k (Z.lxor x (Go.shl x s)))
          (Go.shr (Z.land k (Z.lxor x (Go.shl x s))) s))).
Proof using Hk Hs.
  intros Hx.
  assert (Ht : Go.is_uint64 (Z.land k (Z.lxor x (Go.shl x s))))
    by now apply is_uint64_land.
  apply is_uint64_lxor; [assumption |].
  apply is_uint64_lxor; [assumption |].
  apply is_uint64_shr; [lia | assumption].
Qed.

Lemma delta_spec (x n : Z) :
  Go.is_uint64 x ->
  Z.testbit
    (Z.lxor x
       (Z.lxor (Z.land k (Z.lxor x (Go.shl x s)))
          (Go.shr (Z.land k (Z.lxor x (Go.shl x s))) s))) n =
  delta_bits k s (Z.testbit x) n.
Proof using Hk Hs.
  intros Hx. unfold delta_bits. destruct (in_word n) eqn:Hn.
  - pose proof (proj1 (in_word_spec n) Hn) as Hr.
    rewrite !Z.lxor_spec, shr_bits, !Z.land_spec, !Z.lxor_spec, !shl_bits, Hn
      by lia.
    replace (n + s - s) with n by lia.
    destruct (Z.testbit k (n + s)) eqn:Ek.
    + rewrite (mask_bit_in_word k (n + s) Hk Ek).
      destruct (Z.testbit k n), (Z.testbit x n),
        (Z.testbit x (n + s)), (Z.testbit x (n - s)); reflexivity.
    + destruct (Z.testbit k n), (Z.testbit x n), (Z.testbit x (n - s));
        reflexivity.
  - apply testbit_out_of_word; [now apply delta_uint64 | assumption].
Qed.

Lemma delta_ext (f g : Z -> bool) :
  (forall n, f n = g n) -> forall n, delta_bits k s f n = delta_bits k s g n.
Proof using Type. intros E n. unfold delta_bits. now rewrite !E. Qed.

End Stages.

Section Rot32.

Lemma rot32_uint64 (x : Z) :
  Go.is_uint64 x -> Go.is_uint64 (Z.lor (Go.shr x 32) (Go.shl x 32)).
Proof.
  intros Hx. apply is_uint64_lor; [| apply is_uint64_shl].
  apply is_uint64_shr; [lia | assumption].
Qed.

Lemma rot32_spec (x n : Z) :
  Go.is_uint64 x ->
  Z.testbit (Z.lor (Go.shr x 32) (Go.shl x 32)) n =
  rot32_bits (Z.testbit x) n.
Proof.
  intros Hx. unfold rot32_bits. destruct (in_word n) eqn:Hn.
  - pose proof (proj1 (in_word_spec n) Hn) as Hr.
    rewrite Z.lor_spec, shr_bits, shl_bits, Hn by lia. cbn [andb].
    destruct (Z.ltb_spec n 32).
    + rewrite (Z.testbit_neg_r x (n - 32)) by lia. apply orb_false_r.
    + rewrite (testbit_uint64_high x (n + 32)) by (assumption || lia).
      reflexivity.
  - apply testbit_out_of_word; [now apply rot32_uint64 | assumption].
Qed.

Lemma rot32_ext (f g : Z -> bool) :
  (forall n, f n = g n) -> forall n, rot32_bits f n = rot32_bits g n.
Proof. intros E n. unfold rot32_bits. now rewrite !E. Qed.

End Rot32.

(** Closed side conditions on the constants of the source. *)
Ltac uint64_const := vm_compute; split; [discriminate | reflexivity].

Section FlipSpecs.

Lemma FlipVertical_uint64 (b : Z) : Go.is_uint64 b -> Go.is_uint64 (FlipVertical b).
Proof.
  intros Hb. unfold FlipVertical; cbv zeta.
  apply rot32_uint64, swap_uint64. uint64_const.
Qed.

Lemma FlipVertical_spec (b : Z) :
  Go.is_uint64 b ->
  forall n, Z.testbit (FlipVertical b) n = FlipVertical_bits (Z.testbit b) n.
Proof.
  intros Hb n. unfold FlipVertical, FlipVertical_bits; cbv zeta.
  rewrite rot32_spec by (apply swap_uint64; uint64_const).
  apply rot32_ext. clear n. intros n.
  rewrite swap_spec by (uint64_const || lia).
  apply swap_ext. clear n. intros n.
  apply swap_spec; (uint64_const || lia).
Qed.

(** [FlipHorizontal] is three swap stages written with [+] and [*]. *)
Lemma FlipHorizontal_swaps (b : Z) :
  FlipHorizontal b =
  (let k1 := 0x5555555555555555 in
   let k2 := 0x3333333333333333 in
   let k4 := 0x0f0f0f0f0f0f0f0f in
   let i := Z.lor (Z.land (Go.shr b 1) k1) (Go.shl (Z.land b k1) 1) in
   let i := Z.lor (Z.land (Go.shr i 2) k2) (Go.shl (Z.land i k2) 2) in
   let i := Z.lor (Z.land (Go.shr i 4) k4) (Go.shl (Z.land i k4) 4) in
   i).
Proof.
  unfold FlipHorizontal; cbv zeta.
  pose proof (fun x => swap_add 0x5555555555555555 1
                ltac:(uint64_const) ltac:(lia) x eq_refl) as E1.
  pose proof (fun x => swap_add 0x3333333333333333 2
                ltac:(uint64_const) ltac:(lia) x eq_refl) as E2.
  pose proof (fun x => swap_add 0x0f0f0f0f0f0f0f0f 4
                ltac:(uint64_const) ltac:(lia) x eq_refl) as E4.
  change (2 ^ 1) with 2 in E1. change (2 ^ 2) with 4 in E2.
  change (2 ^ 4) with 16 in E4.
  now rewrite E1, E2, E4.
Qed.

Lemma FlipHorizontal_uint64 (b : Z) : Go.is_uint64 (FlipHorizontal b).
Proof.
  rewrite FlipHorizontal_swaps; cbv zeta. apply swap_uint64. uint64_const.
Qed.

Lemma FlipHorizontal_spec (b : Z) :
  forall n, Z.testbit (FlipHorizontal b) n = FlipHorizontal_bits (Z.testbit b) n.
Proof.
  intros n. rewrite FlipHorizontal_swaps. unfold FlipHorizontal_bits; cbv zeta.
  rewrite swap_spec by (uint64_const || lia).
  apply swap_ext. clear n. intros n.
  rewrite swap_spec by (uint64_const || lia).
  apply swap_ext. clear n. intros n.
  apply swap_spec; (uint64_const || lia).
Qed.

Lemma FlipDiagonalA1H8_uint64 (b : Z) :
  Go.is_uint64 b -> Go.is_uint64 (FlipDiagonalA1H8 b).
Proof.
  intros Hb. unfold FlipDiagonalA1H8; cbv zeta.
  repeat (apply delta_uint64; [uint64_const | lia |]). assumption.
Qed.

Lemma FlipDiagonalA1H8_spec (b : Z) :
  Go.is_uint64 b ->
  forall n,
    Z.testbit (FlipDiagonalA1H8 b) n = FlipDiagonalA1H8_bits (Z.testbit b) n.
Proof.
  intros Hb n. unfold FlipDiagonalA1H8, FlipDiagonalA1H8_bits; cbv zeta.
  rewrite delta_spec;
    [| uint64_const | lia
     | repeat (apply delta_uint64; [uint64_const | lia |]); assumption].
  apply delta_ext. clear n. intros n.
  rewrite delta_spec;
    [| uint64_const | lia
     | repeat (apply delta_uint64; [uint64_const | lia |]); assumption].
  apply delta_ext. clear n. intros n.
  apply delta_spec; [uint64_const | lia | assumption].
Qed.

Lemma FlipVertical_bits_ext (f g : Z -> bool) :
  (forall n, f n = g n) ->
  forall n, FlipVertical_bits f n = FlipVertical_bits g n.
Proof.
  intros E. unfold FlipVertical_bits.
  apply rot32_ext, swap_ext, swap_ext, E.
Qed.

Lemma FlipHorizontal_bits_ext (f g : Z -> bool) :
  (forall n, f n = g n) ->
  forall n, FlipHorizontal_bits f n = FlipHorizontal_bits g n.
Proof.
  intros E. unfold FlipHorizontal_bits.
  apply swap_ext, swap_ext, swap_ext, E.
Qed.

Lemma FlipDiagonalA1H8_bits_ext (f g : Z -> bool) :
  (forall n, f n = g n) ->
  forall n, FlipDiagonalA1H8_bits f n = FlipDiagonalA1H8_bits g n.
Proof.
  intros E. unfold FlipDiagonalA1H8_bits.
  apply delta_ext, delta_ext, delta_ext, E.
Qed.

Lemma Rotate180_spec (b : Z) :
  Go.is_uint64 b ->
  forall n, Z.testbit (Rotate180 b) n = Rotate180_bits (Z.testbit b) n.
Proof.
  intros Hb n. unfold Rotate180, Rotate180_bits.
  rewrite FlipHorizontal_spec.
  apply FlipHorizontal_bits_ext. now apply FlipVertical_spec.
Qed.

Lemma Rotate90_spec (b : Z) :
  Go.is_uint64 b ->
  forall n, Z.testbit (Rotate90 b) n = Rotate90_bits (Z.testbit b) n.
Proof.
  intros Hb n. unfold Rotate90, Rotate90_bits.
  rewrite FlipVertical_spec by now apply FlipDiagonalA1H8_uint64.
  apply FlipVertical_bits_ext. now apply FlipDiagonalA1H8_spec.
Qed.

Lemma Rotate90_uint64 (b : Z) : Go.is_uint64 b -> Go.is_uint64 (Rotate90 b).
Proof.
  intros Hb. unfold Rotate90.
  now apply FlipVertical_uint64, FlipDiagonalA1H8_uint64.
Qed.

Lemma Rotate180_uint64 (b : Z) : Go.is_uint64 (Rotate180 b).
Proof. apply FlipHorizontal_uint64. Qed.

Lemma Rotate180_bits_ext (f g : Z -> bool) :
  (forall n, f n = g n) -> forall n, Rotate180_bits f n = Rotate180_bits g n.
Proof.
  intros E. unfold Rotate180_bits.
  apply FlipHorizontal_bits_ext, FlipVertical_bits_ext, E.
Qed.

Lemma Rotate90_bits_ext (f g : Z -> bool) :
  (forall n, f n = g n) -> forall n, Rotate90_bits f n = Rotate90_bits g n.
Proof.
  intros E. unfold Rotate90_bits.
  apply FlipVertical_bits_ext, FlipDiagonalA1H8_bits_ext, E.
Qed.

End FlipSpecs.

Section Squares.

Lemma Forall_squares (P : Z -> Prop) :
  Forall P squares -> forall n, 0 <= n < 64 -> P n.
Proof.
  intros H n Hn. rewrite Forall_forall in H. apply H.
  apply list_elem_of_In, in_map_iff. exists (Z.to_nat n).
  split; [lia | apply in_seq; lia].
Qed.

(** Two words are equal when they agree on the 64 squares. *)
Lemma word_eq_on_squares (a b : Z) :
  Go.is_uint64 a -> Go.is_uint64 b ->
  (forall n, 0 <= n < 64 -> Z.testbit a n = Z.testbit b n) -> a = b.
Proof.
  intros Ha Hb H. apply Z.bits_inj'. intros n Hn.
  destruct (Z.ltb_spec n 64); [apply H; lia |].
  now rewrite !testbit_uint64_high by (assumption || lia).
Qed.

Variable f : Z -> bool.

(** Each of the 64 cases below is closed by evaluating the stages at a
    concrete square. *)
Ltac by_squares :=
  apply Forall_squares; unfold squares;
  cbv [map seq Z.of_nat Pos.of_succ_nat Pos.succ];
  repeat (apply List.Forall_cons; [reflexivity |]); apply List.Forall_nil.

Lemma FlipVertical_bits_mirror :
  forall n, 0 <= n < 64 ->
    FlipVertical_bits f n = f (8 * (7 - n / 8) + n mod 8).
Proof using Type. by_squares. Qed.

Lemma FlipHorizontal_bits_mirror :
  forall n, 0 <= n < 64 ->
    FlipHorizontal_bits f n = f (8 * (n / 8) + (7 - n mod 8)).
Proof using Type. by_squares. Qed.

Lemma FlipDiagonalA1H8_bits_transpose :
  forall n, 0 <= n < 64 ->
    FlipDiagonalA1H8_bits f n = f (8 * (n mod 8) + n / 8).
Proof using Type. by_squares. Qed.

Lemma FlipVertical_bits_twice :
  forall n, 0 <= n < 64 -> FlipVertical_bits (FlipVertical_bits f) n = f n.
Proof using Type. by_squares. Qed.

Lemma FlipHorizontal_bits_twice :
  forall n, 0 <= n < 64 -> FlipHorizontal_bits (FlipHorizontal_bits f) n = f n.
Proof using Type. by_squares. Qed.

Lemma Rotate180_bits_twice :
  forall n, 0 <= n < 64 -> Rotate180_bits (Rotate180_bits f) n = f n.
Proof using Type. by_squares. Qed.

Lemma Rotate90_bits_four_times :
  forall n, 0 <= n < 64 ->
    Rotate90_bits (Rotate90_bits (Rotate90_bits (Rotate90_bits f))) n = f n.
Proof using Type. by_squares. Qed.

End Squares.

(** C8.  With the 64-bit board read as an 8x8 grid, bit [8*y + x]: for all
    [x], [y] in [0, 8), bit [8*y + x] of [FlipVertical b] is bit
    [8*(7-y) + x] of [b], and bit [8*y + x] of [FlipHorizontal b] is bit
    [8*y + (7-x)] of [b]. *)
Theorem flips_mirror_the_grid (b x y : Z) :
  Go.is_uint64 b -> 0 <= x < 8 -> 0 <= y < 8 ->
  Z.testbit (FlipVertical b) (8 * y + x) = Z.testbit b (8 * (7 - y) + x) /\
  Z.testbit (FlipHorizontal b) (8 * y + x) = Z.testbit b (8 * y + (7 - x)).
Proof.
  intros Hb Hx Hy.
  assert (Hq : (8 * y + x) / 8 = y) by lia_div.
  assert (Hr : (8 * y + x) mod 8 = x) by lia_div.
  split.
  - rewrite FlipVertical_spec by assumption.
    rewrite FlipVertical_bits_mirror by lia. now rewrite Hq, Hr.
  - rewrite FlipHorizontal_spec.
    rewrite FlipHorizontal_bits_mirror by lia. now rewrite Hq, Hr.
Qed.

Lemma flips_mirror_the_grid_witness :
  Z.testbit (FlipVertical 0x8100000000000042) (8 * 7 + 0)
    = Z.testbit 0x8100000000000042 (8 * (7 - 7) + 0) /\
  Z.testbit (FlipHorizontal 0x8100000000000042) (8 * 7 + 0)
    = Z.testbit 0x8100000000000042 (8 * 7 + (7 - 0)).
Proof.
  apply (flips_mirror_the_grid 0x8100000000000042 0 7).
  - unfold Go.is_uint64. lia.
  - lia.
  - lia.
Defined.

(** C4.  For every 64-bit board [b]: [FlipVertical] twice, [FlipHorizontal]
    twice and [Rotate180] twice give [b] back, and so does [Rotate90]
    applied four times. *)
Theorem flips_and_rotations_cycle (b : Z) :
  Go.is_uint64 b ->
  FlipVertical (FlipVertical b) = b /\
  FlipHorizontal (FlipHorizontal b) = b /\
  Rotate180 (Rotate180 b) = b /\
  Rotate90 (Rotate90 (Rotate90 (Rotate90 b))) = b.
Proof.
  intros Hb. split; [| split; [| split]].
  - apply word_eq_on_squares;
      [now apply FlipVertical_uint64, FlipVertical_uint64 | assumption |].
    intros n Hn.
    rewrite FlipVertical_spec by now apply FlipVertical_uint64.
    rewrite (FlipVertical_bits_ext _ _ (FlipVertical_spec b Hb)).
    now apply FlipVertical_bits_twice.
  - apply word_eq_on_squares; [apply FlipHorizontal_uint64 | assumption |].
    intros n Hn.
    rewrite FlipHorizontal_spec.
    rewrite (FlipHorizontal_bits_ext _ _ (FlipHorizontal_spec b)).
    now apply FlipHorizontal_bits_twice.
  - apply word_eq_on_squares; [apply Rotate180_uint64 | assumption |].
    intros n Hn.
    rewrite Rotate180_spec by apply Rotate180_uint64.
    rewrite (Rotate180_bits_ext _ _ (Rotate180_spec b Hb)).
    now apply Rotate180_bits_twice.
  - pose proof (Rotate90_uint64 b Hb) as H1.
    pose proof (Rotate90_uint64 _ H1) as H2.
    pose proof (Rotate90_uint64 _ H2) as H3.
    apply word_eq_on_squares; [now apply Rotate90_uint64 | assumption |].
    intros n Hn.
    rewrite (Rotate90_spec _ H3).
    rewrite (Rotate90_bits_ext _ _ (Rotate90_spec _ H2)).
    rewrite (Rotate90_bits_ext _ _
               (Rotate90_bits_ext _ _ (Rotate90_spec _ H1))).
    rewrite (Rotate90_bits_ext _ _
               (Rotate90_bits_ext _ _
                  (Rotate90_bits_ext _ _ (Rotate90_spec _ Hb)))).
    now apply Rotate90_bits_four_times.
Qed.

Lemma flips_and_rotations_cycle_witness :
  FlipVertical (FlipVertical 0x8100000000000042) = 0x8100000000000042 /\
  FlipHorizontal (FlipHorizontal 0x8100000000000042) = 0x8100000000000042 /\
  Rotate180 (Rotate180 0x8100000000000042) = 0x8100000000000042 /\
  Rotate90 (Rotate90 (Rotate90 (Rotate90 0x8100000000000042)))
    = 0x8100000000000042.
Proof.
  apply (flips_and_rotations_cycle 0x8100000000000042).
  unfold Go.is_uint64. lia.
Defined.


(* ===================================================================== *)
(** * Population count *)
(* ===================================================================== *)

Section Fields.

Lemma testbit_below_pow2 (c k n : Z) :
  0 <= c < 2 ^ k -> k <= n -> Z.testbit c n = false.
Proof.
  intros Hc Hn. destruct (Z.ltb_spec k 0) as [Hk | Hk].
  - rewrite Z.pow_neg_r in Hc by assumption. lia.
  - rewrite <- (Z.mod_small c (2 ^ k)) by lia.
    apply Z.mod_pow2_bits_high. lia.
Qed.

Lemma lt_pow2_of_bits (z k : Z) :
  0 <= k -> 0 <= z -> (forall n, k <= n -> Z.testbit z n = false) -> z < 2 ^ k.
Proof.
  intros Hk Hz Hhigh.
  assert (E : z mod 2 ^ k = z).
  { apply Z.bits_inj'. intros n Hn.
    rewrite Z.testbit_mod_pow2 by lia.
    destruct (Z.ltb_spec n k); cbn; [reflexivity |].
    symmetry. now apply Hhigh. }
  rewrite <- E. apply Z.mod_pos_bound. apply Z.pow_pos_nonneg; lia.
Qed.

Lemma land_below_pow2 (x c k : Z) :
  0 <= k -> 0 <= c < 2 ^ k -> 0 <= Z.land x c < 2 ^ k.
Proof.
  intros Hk Hc. split.
  - apply Z.land_nonneg. lia.
  - apply lt_pow2_of_bits; [assumption | apply Z.land_nonneg; lia |].
    intros n Hn. rewrite Z.land_spec, (testbit_below_pow2 c k n) by assumption.
    apply andb_false_r.
Qed.

(** The bits of a nibble followed by the rest of the word. *)
Lemma testbit_field (a u n : Z) :
  is_nibble a -> 0 <= n ->
  Z.testbit (a + 16 * u) n =
  if n <? 4 then Z.testbit a n else Z.testbit u (n - 4).
Proof.
  unfold is_nibble. intros Ha Hn.
  assert (Hm : (a + 16 * u) mod 2 ^ 4 = a) by (change (2 ^ 4) with 16; lia_div).
  assert (Hd : (a + 16 * u) / 2 ^ 4 = u) by (change (2 ^ 4) with 16; lia_div).
  destruct (Z.ltb_spec n 4).
  - rewrite <- Hm at 2. rewrite Z.mod_pow2_bits_low by lia. reflexivity.
  - rewrite <- Hd at 2. rewrite Z.div_pow2_bits by lia.
    f_equal. lia.
Qed.

(** A shifted word under a mask, nibble by nibble: the mask nibble [c]
    clears what the shift brings in from the next nibble. *)
Lemma land_shr_field (a u c m s : Z) :
  is_nibble a -> 0 <= s < 4 -> 0 <= c < 2 ^ (4 - s) ->
  Z.land (Z.shiftr (a + 16 * u) s) (c + 16 * m) =
  Z.land (Z.shiftr a s) c + 16 * Z.land (Z.shiftr u s) m.
Proof.
  intros Ha Hs Hc.
  assert (Hc16 : is_nibble c).
  { unfold is_nibble. split; [lia |].
    apply Z.lt_le_trans with (2 ^ (4 - s)); [lia |].
    change 16 with (2 ^ 4). apply Z.pow_le_mono_r; lia. }
  assert (HA : is_nibble (Z.land (Z.shiftr a s) c)).
  { unfold is_nibble in *. apply (land_below_pow2 _ c 4); lia. }
  apply Z.bits_inj'. intros n Hn.
  rewrite Z.land_spec, Z.shiftr_spec by assumption.
  rewrite !testbit_field by (assumption || lia).
  destruct (Z.ltb_spec n 4) as [Hlo | Hhi].
  - rewrite Z.land_spec, Z.shiftr_spec by assumption.
    destruct (Z.ltb_spec (n + s) 4) as [Hin | Hout]; [reflexivity |].
    rewrite (testbit_below_pow2 c (4 - s) n) by (assumption || lia).
    now rewrite !andb_false_r.
  - destruct (Z.ltb_spec (n + s) 4); [lia |].
    rewrite Z.land_spec, Z.shiftr_spec by lia.
    do 2 f_equal. lia.
Qed.

Lemma pack_nonneg (l : list Z) : Forall is_nibble l -> 0 <= pack l.
Proof.
  induction 1 as [| a l Ha _ IH]; cbn [pack]; [lia |].
  unfold is_nibble in Ha. lia.
Qed.

Lemma pack_bound (l : list Z) :
  Forall is_nibble l -> 0 <= pack l < 16 ^ Z.of_nat (length l).
Proof.
  induction 1 as [| a l Ha _ IH]; cbn [pack length]; [cbn; lia |].
  rewrite Nat2Z.inj_succ, Z.pow_succ_r by lia.
  unfold is_nibble in Ha. lia.
Qed.

(** The same, along the whole word: the mask is given by its nibbles. *)
Lemma land_shr_pack (s : Z) (l m : list Z) :
  0 <= s < 4 -> length l = length m ->
  Forall is_nibble l -> Forall (fun c => 0 <= c < 2 ^ (4 - s)) m ->
  Z.land (Z.shiftr (pack l) s) (pack m) =
  pack (zip_with (fun a c => Z.land (Z.shiftr a s) c) l m).
Proof.
  intros Hs Hlen Hl. revert m Hlen.
  induction Hl as [| a l Ha Hl IH]; intros [| c m] Hlen Hm;
    try discriminate Hlen.
  - cbn [pack zip_with]. rewrite Z.shiftr_0_l. apply Z.land_0_l.
  - apply Forall_cons_1 in Hm. destruct Hm as [Hc Hm].
    cbn [pack zip_with].
    rewrite land_shr_field by assumption.
    rewrite IH by (assumption || (cbn in Hlen; lia)). reflexivity.
Qed.

Lemma nibbles_length (n : nat) (i : Z) : length (nibbles n i) = n.
Proof. revert i. induction n as [| n IH]; intros i; cbn; [| rewrite IH]; reflexivity. Qed.

Lemma nibbles_are_nibbles (n : nat) (i : Z) : Forall is_nibble (nibbles n i).
Proof.
  revert i. induction n as [| n IH]; intros i; cbn [nibbles]; constructor.
  - unfold is_nibble. apply Z.mod_pos_bound. lia.
  - apply IH.
Qed.

Lemma pack_nibbles (n : nat) (i : Z) :
  0 <= i < 16 ^ Z.of_nat n -> pack (nibbles n i) = i.
Proof.
  revert i. induction n as [| n IH]; intros i Hi; cbn [nibbles pack].
  - cbn in Hi. lia.
  - rewrite Nat2Z.inj_succ, Z.pow_succ_r in Hi by lia.
    rewrite IH by lia_div. lia_div.
Qed.

End Fields.

Section PopCountSteps.

Lemma PopCount_steps (i : Z) :
  util.PopCount i = pc_fold (pc_quads (pc_pairs i)).
Proof.
  cbv beta zeta delta [util.PopCount pc_fold pc_quads pc_pairs].
  reflexivity.
Qed.

Lemma nibble_steps (a : Z) :
  is_nibble a ->
  is_nibble (pairs4 a) /\ 0 <= quads4 (pairs4 a) <= 4 /\
  quads4 (pairs4 a) = count_bits 4 a.
Proof.
  unfold is_nibble. intros Ha.
  assert (H : nibble_checks a = true).
  { apply (Zrange_forallb nibble_checks 16); [vm_compute; reflexivity | lia]. }
  unfold nibble_checks in H.
  repeat (apply andb_true_iff in H; destruct H as [H ?]).
  repeat match goal with
         | E : (_ <=? _) = true |- _ => apply Z.leb_le in E
         | E : (_ <? _) = true |- _ => apply Z.ltb_lt in E
         | E : (_ =? _) = true |- _ => apply Z.eqb_eq in E
         end.
  lia.
Qed.

Lemma shr_shiftr (x s : Z) : s < 64 -> Go.shr x s = Z.shiftr x s.
Proof. intros Hs. unfold Go.shr. now destruct (Z.ltb_spec s 64); [| lia]. Qed.

Lemma zip_with_repeat {A B C} (f : A -> B -> C) (l : list A) (c : B) :
  zip_with f l (repeat c (length l)) = map (fun a => f a c) l.
Proof. induction l as [| a l IH]; cbn; [| rewrite IH]; reflexivity. Qed.

Lemma pack_sub_map (g : Z -> Z) (l : list Z) :
  pack l - pack (map g l) = pack (map (fun a => a - g a) l).
Proof. induction l as [| a l IH]; cbn [pack map]; [reflexivity | lia]. Qed.

Lemma pack_add_map (g h : Z -> Z) (l : list Z) :
  pack (map g l) + pack (map h l) = pack (map (fun a => g a + h a) l).
Proof. induction l as [| a l IH]; cbn [pack map]; [reflexivity | lia]. Qed.

Lemma pack_uint64 (l : list Z) :
  Forall is_nibble l -> length l = 16%nat -> Go.is_uint64 (pack l).
Proof.
  intros Hl Hlen. pose proof (pack_bound l Hl) as H.
  rewrite Hlen in H. exact H.
Qed.

(** First step: every pair of bits is replaced by its count. *)
Lemma pc_pairs_pack (l : list Z) :
  Forall is_nibble l -> length l = 16%nat ->
  pc_pairs (pack l) = pack (map pairs4 l).
Proof.
  intros Hl Hlen. unfold pc_pairs, Go.sub. rewrite shr_shiftr by lia.
  change util.mask1 with (pack (repeat 5 16)). rewrite <- Hlen.
  rewrite land_shr_pack;
    [| lia | now rewrite repeat_length | assumption
     | apply Forall_forall; intros c Hc;
       apply list_elem_of_In, repeat_spec in Hc; subst c; cbn; lia ].
  rewrite zip_with_repeat, pack_sub_map.
  apply wrap_uint64_small, pack_uint64; [| now rewrite length_map].
  apply List.Forall_map. eapply Forall_impl; [exact Hl |].
  intros a Ha. apply (nibble_steps a Ha).
Qed.

(** Second step: every nibble is replaced by the sum of its two pairs. *)
Lemma pc_quads_pack (l : list Z) :
  Forall (fun a => is_nibble a /\ 0 <= quads4 a <= 4) l ->
  length l = 16%nat ->
  pc_quads (pack l) = pack (map quads4 l).
Proof.
  intros Hl Hlen.
  assert (Hnib : Forall is_nibble l)
    by (eapply Forall_impl; [exact Hl | intros a Ha; apply Ha]).
  unfold pc_quads, Go.add. rewrite shr_shiftr by lia.
  rewrite <- (Z.shiftr_0_r (pack l)) at 1.
  change util.mask2 with (pack (repeat 3 16)). rewrite <- Hlen.
  rewrite !land_shr_pack;
    [| lia | now rewrite repeat_length | assumption
     | apply Forall_forall; intros c Hc;
       apply list_elem_of_In, repeat_spec in Hc; subst c; cbn; lia
     | lia | now rewrite repeat_length | assumption
     | apply Forall_forall; intros c Hc;
       apply list_elem_of_In, repeat_spec in Hc; subst c; cbn; lia ].
  rewrite !zip_with_repeat.
  rewrite (pack_add_map (fun a => Z.land (Z.shiftr a 0) 3)
             (fun a => Z.land (Z.shiftr a 2) 3)).
  rewrite (map_ext _ quads4)
    by (intros a; unfold quads4; now rewrite Z.shiftr_0_r).
  apply wrap_uint64_small, pack_uint64; [| now rewrite length_map].
  apply List.Forall_map. eapply Forall_impl; [exact Hl |].
  intros a [_ Ha]. unfold is_nibble. lia.
Qed.


Lemma land_15 (z : Z) : is_nibble z -> Z.land z 15 = z.
Proof.
  unfold is_nibble. intros Hz. change 15 with (Z.ones 4).
  rewrite Z.land_ones by lia. apply Z.mod_small. exact Hz.
Qed.

Lemma div_add_low (lo hi k : Z) : 0 <= lo < k -> (lo + k * hi) / k = hi.
Proof.
  intros H. rewrite Z.add_comm, Z.mul_comm, Z.div_add_l by lia.
  rewrite (Z.div_small lo k) by lia. lia.
Qed.

Section ByteFolds.

Variables a0 a1 a2 a3 a4 a5 a6 a7 : Z.
Hypothesis H0 : 0 <= a0 <= 127.
Hypothesis H1 : 0 <= a1 <= 127.
Hypothesis H2 : 0 <= a2 <= 127.
Hypothesis H3 : 0 <= a3 <= 127.
Hypothesis H4 : 0 <= a4 <= 127.
Hypothesis H5 : 0 <= a5 <= 127.
Hypothesis H6 : 0 <= a6 <= 127.
Hypothesis H7 : 0 <= a7 <= 127.

(** [x + (x >> 8)]: every byte receives the next one; no byte overflows,
    so nothing is carried and nothing wraps. *)
Lemma bytes8_fold8 :
  Go.add (bytes8 a0 a1 a2 a3 a4 a5 a6 a7)
    (Go.shr (bytes8 a0 a1 a2 a3 a4 a5 a6 a7) 8) =
  bytes8 (a0 + a1) (a1 + a2) (a2 + a3) (a3 + a4) (a4 + a5) (a5 + a6)
    (a6 + a7) a7.
Proof using All.
  rewrite shr_shiftr, Z.shiftr_div_pow2 by lia. change (2 ^ 8) with 256.
  unfold bytes8 at 2. rewrite div_add_low by lia.
  unfold Go.add. rewrite wrap_uint64_small.
  - unfold bytes8. ring.
  - unfold Go.is_uint64, bytes8. lia.
Qed.

Lemma bytes8_fold16 :
  Go.add (bytes8 a0 a1 a2 a3 a4 a5 a6 a7)
    (Go.shr (bytes8 a0 a1 a2 a3 a4 a5 a6 a7) 16) =
  bytes8 (a0 + a2) (a1 + a3) (a2 + a4) (a3 + a5) (a4 + a6) (a5 + a7) a6 a7.
Proof using All.
  rewrite shr_shiftr, Z.shiftr_div_pow2 by lia. change (2 ^ 16) with 65536.
  replace (bytes8 a0 a1 a2 a3 a4 a5 a6 a7 / 65536)
    with (a2 + 256 * (a3 + 256 * (a4 + 256 * (a5 + 256 * (a6 + 256 * a7))))).
  2:{ symmetry.
      rewrite <- (div_add_low (a0 + 256 * a1)
                    (a2 + 256 * (a3 + 256 * (a4 + 256 * (a5 + 256 *
                       (a6 + 256 * a7))))) 65536) at 1 by lia.
      f_equal. unfold bytes8. ring. }
  unfold Go.add. rewrite wrap_uint64_small.
  - unfold bytes8. ring.
  - unfold Go.is_uint64, bytes8. lia.
Qed.

Lemma bytes8_fold32 :
  Go.add (bytes8 a0 a1 a2 a3 a4 a5 a6 a7)
    (Go.shr (bytes8 a0 a1 a2 a3 a4 a5 a6 a7) 32) =
  bytes8 (a0 + a4) (a1 + a5) (a2 + a6) (a3 + a7) a4 a5 a6 a7.
Proof using All.
  rewrite shr_shiftr, Z.shiftr_div_pow2 by lia.
  change (2 ^ 32) with 4294967296.
  replace (bytes8 a0 a1 a2 a3 a4 a5 a6 a7 / 4294967296)
    with (a4 + 256 * (a5 + 256 * (a6 + 256 * a7))).
  2:{ symmetry.
      rewrite <- (div_add_low (a0 + 256 * (a1 + 256 * (a2 + 256 * a3)))
                    (a4 + 256 * (a5 + 256 * (a6 + 256 * a7))) 4294967296)
        at 1 by lia.
      f_equal. unfold bytes8. ring. }
  unfold Go.add. rewrite wrap_uint64_small.
  - unfold bytes8. ring.
  - unfold Go.is_uint64, bytes8. lia.
Qed.

(** [int(x & 0x7f)] is the low byte when it is below 128. *)
Lemma bytes8_low7 :
  Go.int_of_uint64 (Z.land (bytes8 a0 a1 a2 a3 a4 a5 a6 a7) 0x7f) = a0.
Proof using H0.
  change 0x7f with (Z.ones 7). rewrite Z.land_ones by lia.
  change (2 ^ 7) with 128.
  replace (bytes8 a0 a1 a2 a3 a4 a5 a6 a7)
    with (a0 + (2 * (a1 + 256 * (a2 + 256 * (a3 + 256 * (a4 + 256 * (a5 +
            256 * (a6 + 256 * a7))))))) * 128)
    by (unfold bytes8; ring).
  rewrite Z.mod_add by lia. rewrite Z.mod_small by lia.
  unfold Go.int_of_uint64. apply wrap_int_small. unfold Go.is_int. lia.
Qed.

End ByteFolds.

(** The last steps: neighbouring nibbles are added into bytes, and the
    eight byte sums are folded into the low byte. *)
Lemma pc_fold_pack (q : list Z) :
  Forall (fun a => 0 <= a <= 4) q -> length q = 16%nat ->
  pc_fold (pack q) = sum_list q.
Proof.
  intros Hq Hlen.
  destruct q as [| q0 [| q1 [| q2 [| q3 [| q4 [| q5 [| q6 [| q7 [| q8 [| q9 [| q10 [| q11 [| q12 [| q13 [| q14 [| q15 [| ? ?]]]]]]]]]]]]]]]]];
    try discriminate Hlen.
  repeat match goal with
         | H : Forall _ (_ :: _) |- _ =>
             apply Forall_cons_1 in H; destruct H as [? H]
         end.
  clear Hq Hlen.
  assert (E1 : Go.shr (pack [q0; q1; q2; q3; q4; q5; q6; q7; q8; q9; q10; q11; q12; q13; q14; q15]) 4 = pack [q1; q2; q3; q4; q5; q6; q7; q8; q9; q10; q11; q12; q13; q14; q15]).
  { rewrite shr_shiftr by lia. rewrite Z.shiftr_div_pow2 by lia.
    change (2 ^ 4) with 16. cbn [pack]. lia_div. }
  assert (E2 : Go.add (pack [q0; q1; q2; q3; q4; q5; q6; q7; q8; q9; q10; q11; q12; q13; q14; q15]) (pack [q1; q2; q3; q4; q5; q6; q7; q8; q9; q10; q11; q12; q13; q14; q15]) = pack [q0 + q1; q1 + q2; q2 + q3; q3 + q4; q4 + q5; q5 + q6; q6 + q7; q7 + q8; q8 + q9; q9 + q10; q10 + q11; q11 + q12; q12 + q13; q13 + q14; q14 + q15; q15]).
  { unfold Go.add. rewrite wrap_uint64_small.
    - cbn [pack]. ring.
    - unfold Go.is_uint64. cbn [pack]. lia. }
  assert (E3 : Z.land (pack [q0 + q1; q1 + q2; q2 + q3; q3 + q4; q4 + q5; q5 + q6; q6 + q7; q7 + q8; q8 + q9; q9 + q10; q10 + q11; q11 + q12; q12 + q13; q13 + q14; q14 + q15; q15]) util.mask4 = pack [q0 + q1; 0; q2 + q3; 0; q4 + q5; 0; q6 + q7; 0; q8 + q9; 0; q10 + q11; 0; q12 + q13; 0; q14 + q15; 0]).
  { rewrite <- (Z.shiftr_0_r (pack [q0 + q1; q1 + q2; q2 + q3; q3 + q4; q4 + q5; q5 + q6; q6 + q7; q7 + q8; q8 + q9; q9 + q10; q10 + q11; q11 + q12; q12 + q13; q13 + q14; q14 + q15; q15])).
    change util.mask4 with (pack [15; 0; 15; 0; 15; 0; 15; 0; 15; 0; 15; 0; 15; 0; 15; 0]).
    rewrite land_shr_pack;
      [| lia | reflexivity
       | repeat constructor; lia
       | repeat constructor; cbn; lia ].
    cbn [zip_with]. rewrite !Z.shiftr_0_r, !Z.land_0_r.
    rewrite !land_15 by (unfold is_nibble; lia). reflexivity. }
  unfold pc_fold. rewrite E1, E2, E3. cbv zeta.
  replace (pack [q0 + q1; 0; q2 + q3; 0; q4 + q5; 0; q6 + q7; 0; q8 + q9; 0; q10 + q11; 0; q12 + q13; 0; q14 + q15; 0])
    with (bytes8 (q0 + q1) (q2 + q3) (q4 + q5) (q6 + q7) (q8 + q9)
            (q10 + q11) (q12 + q13) (q14 + q15))
    by (unfold bytes8; cbn [pack]; ring).
  rewrite bytes8_fold8 by lia.
  rewrite bytes8_fold16 by lia.
  rewrite bytes8_fold32 by lia.
  rewrite bytes8_low7 by lia.
  cbn [sum_list fold_right]. ring.
Qed.

End PopCountSteps.

Section NaiveCount.

Lemma count_bits_S (k : nat) (i : Z) :
  count_bits (S k) i =
  count_bits k i + (if Z.testbit i (Z.of_nat k) then 1 else 0).
Proof. reflexivity. Qed.

Lemma count_bits_shift (n : nat) (i : Z) :
  count_bits (4 + n) i = count_bits 4 i + count_bits n (i / 16).
Proof.
  induction n as [| n IH].
  - change (count_bits 0 (i / 16)) with 0. rewrite Nat.add_0_r. lia.
  - replace (4 + S n)%nat with (S (4 + n)) by lia.
    rewrite (count_bits_S (4 + n)), (count_bits_S n), IH.
    change 16 with (2 ^ 4). rewrite Z.div_pow2_bits by lia.
    replace (Z.of_nat (4 + n)) with (Z.of_nat n + 4) by lia. lia.
Qed.

Lemma count_bits_low (i : Z) : count_bits 4 i = count_bits 4 (i mod 16).
Proof.
  change 16 with (2 ^ 4). cbn [count_bits].
  rewrite !Z.mod_pow2_bits_low by (cbn; lia). reflexivity.
Qed.

(** The per-bit count of a word is the sum of the counts of its nibbles. *)
Lemma count_bits_nibbles (n : nat) (i : Z) :
  count_bits (n * 4) i = sum_list (map (count_bits 4) (nibbles n i)).
Proof.
  revert i. induction n as [| n IH]; intros i; [reflexivity |].
  change (S n * 4)%nat with (4 + n * 4)%nat.
  rewrite count_bits_shift, IH. cbn [nibbles map sum_list fold_right].
  now rewrite <- count_bits_low.
Qed.

Lemma sum_list_ext (g h : Z -> Z) (l : list Z) :
  Forall (fun a => g a = h a) l -> sum_list (map g l) = sum_list (map h l).
Proof.
  induction 1 as [| a l Ha _ IH]; [reflexivity |].
  unfold sum_list in *. cbn [map fold_right]. now rewrite Ha, IH.
Qed.

End NaiveCount.

(** C3.  For every 64-bit input [i], [PopCount i] is the naive per-bit
    count, the number of indices [p] in [0, 64) whose bit is set in [i]; in
    particular [PopCount 0 = 0] and [PopCount 0xFFFFFFFFFFFFFFFF = 64].
    ([PopCount] of package [board64] has the same body.) *)
Theorem PopCount_is_naive_count (i : Z) :
  Go.is_uint64 i ->
  util.PopCount i = naive_popcount i /\
  util.PopCount 0 = 0 /\ util.PopCount 0xFFFFFFFFFFFFFFFF = 64.
Proof.
  intros Hi. split; [| split; reflexivity].
  pose proof (nibbles_are_nibbles 16 i) as Hl.
  pose proof (nibbles_length 16 i) as Hlen.
  assert (Hpack : pack (nibbles 16 i) = i) by (apply pack_nibbles; exact Hi).
  assert (Hsteps : Forall (fun a => is_nibble (pairs4 a) /\
                                    0 <= quads4 (pairs4 a) <= 4 /\
                                    quads4 (pairs4 a) = count_bits 4 a)
                     (nibbles 16 i)).
  { eapply Forall_impl; [exact Hl |]. intros a Ha. now apply nibble_steps. }
  rewrite <- Hpack at 1.
  rewrite PopCount_steps, pc_pairs_pack by assumption.
  rewrite pc_quads_pack;
    [| apply List.Forall_map; eapply Forall_impl; [exact Hsteps |];
       intros a (H1 & H2 & _); now split
     | now rewrite length_map ].
  rewrite pc_fold_pack;
    [| apply List.Forall_map, List.Forall_map;
       eapply Forall_impl; [exact Hsteps |]; intros a (_ & H2 & _); exact H2
     | now rewrite !length_map ].
  rewrite map_map.
  rewrite (sum_list_ext (fun a => quads4 (pairs4 a)) (count_bits 4))
    by (eapply Forall_impl; [exact Hsteps |]; intros a (_ & _ & H3); exact H3).
  unfold naive_popcount. symmetry. apply (count_bits_nibbles 16 i).
Qed.

Lemma PopCount_is_naive_count_witness :
  util.PopCount 0x8100000000000081 = naive_popcount 0x8100000000000081 /\
  util.PopCount 0 = 0 /\ util.PopCount 0xFFFFFFFFFFFFFFFF = 64.
Proof.
  apply (PopCount_is_naive_count 0x8100000000000081).
  unfold Go.is_uint64. lia.
Defined.

(* ===================================================================== *)
(** * Bit primitives: what a user can rely on *)
(* ===================================================================== *)

Section PrimitiveFacts.

Lemma GetBit_range (w p : Z) :
  Go.is_uint64 w -> Go.is_int p -> util.GetBit w p = 0 \/ util.GetBit w p = 1.
Proof.
  intros Hw Hp. destruct (Z.ltb_spec p 0) as [Hneg | Hpos].
  - left. unfold util.GetBit, Go.shr.
    pose proof (uint_of_int_out_of_range p Hp (or_introl Hneg)) as Hu.
    destruct (Z.ltb_spec (Go.uint_of_int p) 64); [lia | reflexivity].
  - rewrite GetBit_b2z by assumption.
    destruct (Z.testbit w p); [right | left]; reflexivity.
Qed.

Lemma land_pow2_eqb (w p : Z) :
  0 <= p -> (Z.land w (2 ^ p) =? 0) = negb (Z.testbit w p).
Proof.
  intros Hp. destruct (Z.testbit w p) eqn:E; cbn [negb].
  - apply Z.eqb_neq. intros H0.
    assert (Hb : Z.testbit (Z.land w (2 ^ p)) p = true)
      by (rewrite Z.land_spec, E, Z.pow2_bits_true by lia; reflexivity).
    rewrite H0, Z.testbit_0_l in Hb. discriminate.
  - apply Z.eqb_eq, Z.bits_inj'. intros n Hn.
    rewrite Z.land_spec, Z.pow2_bits_eqb, Z.testbit_0_l by lia.
    destruct (Z.eqb_spec p n) as [<- | Hne];
      [now rewrite E | apply andb_false_r].
Qed.

End PrimitiveFacts.

(** X1.  Inside the word, [SetBit] and [ClearBit] write one bit and leave
    the others: after [SetBit w p], [GetBit] at [q] is 1 when [q = p] and
    what it was otherwise; after [ClearBit w p] it is 0 when [q = p] and
    what it was otherwise.  Both results are again 64-bit words. *)
Theorem SetBit_ClearBit_write_one_bit (w p q : Z) :
  Go.is_uint64 w -> 0 <= p < 64 -> 0 <= q < 64 ->
  Go.is_uint64 (util.SetBit w p) /\ Go.is_uint64 (util.ClearBit w p) /\
  util.GetBit (util.SetBit w p) q = (if q =? p then 1 else util.GetBit w q) /\
  util.GetBit (util.ClearBit w p) q = (if q =? p then 0 else util.GetBit w q).
Proof.
  intros Hw Hp Hq.
  assert (Hip : Go.is_int p) by (unfold Go.is_int; lia).
  assert (Hiq : Go.is_int q) by (unfold Go.is_int; lia).
  pose proof (is_uint64_SetBit w p Hw) as Hs.
  pose proof (is_uint64_ClearBit w p Hw) as Hc.
  split; [exact Hs | split; [exact Hc |]].
  rewrite !GetBit_b2z by (assumption || lia).
  rewrite SetBit_bits, ClearBit_bits by assumption.
  rewrite (Z.eqb_sym q p).
  destruct (Z.eqb_spec p q); destruct (Z.testbit w q); split; reflexivity.
Qed.

Lemma SetBit_ClearBit_write_one_bit_witness :
  Go.is_uint64 (util.SetBit 5 1) /\ Go.is_uint64 (util.ClearBit 5 1) /\
  util.GetBit (util.SetBit 5 1) 2 = (if 2 =? 1 then 1 else util.GetBit 5 2) /\
  util.GetBit (util.ClearBit 5 1) 2 = (if 2 =? 1 then 0 else util.GetBit 5 2).
Proof.
  apply (SetBit_ClearBit_write_one_bit 5 1 2); unfold Go.is_uint64; lia.
Defined.

(** X2.  Inside the word, [ToggleBit] inverts bit [p] and no other, and
    toggling twice gives the word back. *)
Theorem ToggleBit_inverts_one_bit (w p q : Z) :
  Go.is_uint64 w -> 0 <= p < 64 -> 0 <= q < 64 ->
  util.ToggleBit (util.ToggleBit w p) p = w /\
  Go.is_uint64 (util.ToggleBit w p) /\
  util.GetBit (util.ToggleBit w p) q =
    (if q =? p then 1 - util.GetBit w q else util.GetBit w q).
Proof.
  intros Hw Hp Hq.
  assert (Hip : Go.is_int p) by (unfold Go.is_int; lia).
  assert (Hiq : Go.is_int q) by (unfold Go.is_int; lia).
  assert (Ht : Go.is_uint64 (util.ToggleBit w p))
    by (apply is_uint64_lxor; [assumption | apply is_uint64_shl]).
  split; [| split; [exact Ht |]].
  - unfold util.ToggleBit.
    now rewrite Z.lxor_assoc, Z.lxor_nilpotent, Z.lxor_0_r.
  - rewrite !GetBit_b2z by (assumption || lia).
    unfold util.ToggleBit.
    rewrite uint_of_int_nonneg, shl_1 by (assumption || lia).
    rewrite Z.lxor_spec, Z.pow2_bits_eqb, (Z.eqb_sym q p) by lia.
    destruct (Z.eqb_spec p q); destruct (Z.testbit w q); reflexivity.
Qed.

Lemma ToggleBit_inverts_one_bit_witness :
  util.ToggleBit (util.ToggleBit 5 2) 2 = 5 /\
  Go.is_uint64 (util.ToggleBit 5 2) /\
  util.GetBit (util.ToggleBit 5 2) 2 =
    (if 2 =? 2 then 1 - util.GetBit 5 2 else util.GetBit 5 2).
Proof.
  apply (ToggleBit_inverts_one_bit 5 2 2); unfold Go.is_uint64; lia.
Defined.

(** X3.  [IsBitSet] and [GetBit] agree at every position an [int] can
    hold, outside the word as well (where both report a clear bit), and
    [GetBit] never returns anything but 0 or 1. *)
Theorem IsBitSet_agrees_with_GetBit (w p : Z) :
  Go.is_uint64 w -> Go.is_int p ->
  (util.IsBitSet w p = true <-> util.GetBit w p = 1) /\
  (util.IsBitSet w p = false <-> util.GetBit w p = 0).
Proof.
  intros Hw Hp.
  assert (H : util.IsBitSet w p = negb (util.GetBit w p =? 0)).
  { destruct (Z.ltb_spec p 0) as [Hneg | Hpos];
      [| destruct (Z.ltb_spec p 64) as [Hin | Hout]].
    - pose proof (uint_of_int_out_of_range p Hp (or_introl Hneg)) as Hu.
      unfold util.IsBitSet, util.GetBit, Go.shl, Go.shr.
      destruct (Z.ltb_spec (Go.uint_of_int p) 64); [lia |].
      now rewrite Z.land_0_r.
    - rewrite GetBit_b2z by assumption. unfold util.IsBitSet.
      rewrite uint_of_int_nonneg, shl_1, land_pow2_eqb by (assumption || lia).
      now destruct (Z.testbit w p).
    - pose proof (uint_of_int_out_of_range p Hp (or_intror Hout)) as Hu.
      unfold util.IsBitSet, util.GetBit, Go.shl, Go.shr.
      destruct (Z.ltb_spec (Go.uint_of_int p) 64); [lia |].
      now rewrite Z.land_0_r. }
  rewrite H.
  destruct (GetBit_range w p Hw Hp) as [-> | ->]; cbn; split; split;
    intros; congruence || lia.
Qed.

Lemma IsBitSet_agrees_with_GetBit_witness :
  (util.IsBitSet 5 (-7) = true <-> util.GetBit 5 (-7) = 1) /\
  (util.IsBitSet 5 (-7) = false <-> util.GetBit 5 (-7) = 0).
Proof.
  apply (IsBitSet_agrees_with_GetBit 5 (-7)).
  - unfold Go.is_uint64. lia.
  - unfold Go.is_int. lia.
Defined.

(** X4.  [Union] of no word is 0; a bit of [Union ws] is set exactly when
    it is set in one of the words; and the union of 64-bit words is a
    64-bit word. *)
Theorem Union_is_bitwise_or (ws : list Z) (n : Z) :
  util.Union [] = 0 /\
  (Z.testbit (util.Union ws) n = true <->
   exists w, In w ws /\ Z.testbit w n = true) /\
  (Forall Go.is_uint64 ws -> Go.is_uint64 (util.Union ws)).
Proof.
  split; [reflexivity | split].
  - rewrite Union_bits. apply existsb_exists.
  - apply is_uint64_Union.
Qed.

Lemma Union_is_bitwise_or_witness :
  util.Union [] = 0 /\
  (Z.testbit (util.Union [1; 4]) 2 = true <->
   exists w, In w [1; 4] /\ Z.testbit w 2 = true) /\
  (Forall Go.is_uint64 [1; 4] -> Go.is_uint64 (util.Union [1; 4])).
Proof. apply (Union_is_bitwise_or [1; 4] 2). Defined.

(* ===================================================================== *)
(** * Population count: how it composes *)
(* ===================================================================== *)

Section CountFacts.

(** [PopCount] and the per-bit count, for use below. *)
Lemma PopCount_count_bits (i : Z) :
  Go.is_uint64 i -> util.PopCount i = count_bits 64 i.
Proof.
  intros Hi.
  pose proof (nibbles_are_nibbles 16 i) as Hl.
  assert (Hpack : pack (nibbles 16 i) = i) by (apply pack_nibbles; exact Hi).
  assert (Hsteps : Forall (fun a => is_nibble (pairs4 a) /\
                                    0 <= quads4 (pairs4 a) <= 4 /\
                                    quads4 (pairs4 a) = count_bits 4 a)
                     (nibbles 16 i)).
  { eapply Forall_impl; [exact Hl |]. intros a Ha. now apply nibble_steps. }
  rewrite <- Hpack at 1.
  rewrite PopCount_steps, pc_pairs_pack
    by (assumption || apply nibbles_length).
  rewrite pc_quads_pack;
    [| apply List.Forall_map; eapply Forall_impl; [exact Hsteps |];
       intros a (H1 & H2 & _); now split
     | rewrite length_map; apply nibbles_length ].
  rewrite pc_fold_pack;
    [| apply List.Forall_map, List.Forall_map;
       eapply Forall_impl; [exact Hsteps |]; intros a (_ & H2 & _); exact H2
     | rewrite !length_map; apply nibbles_length ].
  rewrite map_map.
  rewrite (sum_list_ext (fun a => quads4 (pairs4 a)) (count_bits 4))
    by (eapply Forall_impl; [exact Hsteps |]; intros a (_ & _ & H3); exact H3).
  symmetry. apply (count_bits_nibbles 16 i).
Qed.

Lemma count_bits_bounds (n : nat) (i : Z) :
  0 <= count_bits n i <= Z.of_nat n.
Proof.
  induction n as [| n IH]; [cbn; lia |].
  rewrite count_bits_S. destruct (Z.testbit i (Z.of_nat n)); lia.
Qed.

Lemma count_bits_lor (n : nat) (a b : Z) :
  Z.land a b = 0 ->
  count_bits n (Z.lor a b) = count_bits n a + count_bits n b.
Proof.
  intros Hd. induction n as [| n IH]; [reflexivity |].
  rewrite !count_bits_S, IH, Z.lor_spec.
  assert (Hk : Z.testbit a (Z.of_nat n) && Z.testbit b (Z.of_nat n) = false)
    by (rewrite <- Z.land_spec, Hd; apply Z.testbit_0_l).
  destruct (Z.testbit a (Z.of_nat n)), (Z.testbit b (Z.of_nat n));
    cbn in *; try discriminate; lia.
Qed.

(** A word that differs from [w] at bit [p] only. *)
Lemma count_bits_one_bit (n : nat) (w w' p : Z) (v : bool) :
  0 <= p ->
  (forall k, 0 <= k -> Z.testbit w' k = if p =? k then v else Z.testbit w k) ->
  count_bits n w' =
  count_bits n w +
  (if p <? Z.of_nat n then Z.b2z v - Z.b2z (Z.testbit w p) else 0).
Proof.
  intros Hp Hw'. induction n as [| n IH].
  - cbn [count_bits]. destruct (Z.ltb_spec p (Z.of_nat 0)); lia.
  - rewrite !count_bits_S, IH, Hw' by lia.
    destruct (Z.eqb_spec p (Z.of_nat n)) as [-> | Hne].
    + destruct (Z.ltb_spec (Z.of_nat n) (Z.of_nat n)); [lia |].
      destruct (Z.ltb_spec (Z.of_nat n) (Z.of_nat (S n))); [| lia].
      destruct v, (Z.testbit w (Z.of_nat n)); cbn; lia.
    + destruct (Z.ltb_spec p (Z.of_nat n)),
        (Z.ltb_spec p (Z.of_nat (S n))); lia.
Qed.

End CountFacts.

(** X5.  [PopCount] of a 64-bit word lies in [0, 64], and it is additive
    on words that share no bit: [PopCount (a | b) = PopCount a + PopCount b]
    when [a & b = 0]. *)
Theorem PopCount_additive_on_disjoint (a b : Z) :
  Go.is_uint64 a -> Go.is_uint64 b -> Z.land a b = 0 ->
  0 <= util.PopCount a <= 64 /\
  util.PopCount (Z.lor a b) = util.PopCount a + util.PopCount b.
Proof.
  intros Ha Hb Hd.
  rewrite !PopCount_count_bits by (assumption || now apply is_uint64_lor).
  split; [apply (count_bits_bounds 64 a) | now apply count_bits_lor].
Qed.

Lemma PopCount_additive_on_disjoint_witness :
  0 <= util.PopCount 0x0f <= 64 /\
  util.PopCount (Z.lor 0x0f 0xf0) = util.PopCount 0x0f + util.PopCount 0xf0.
Proof.
  apply (PopCount_additive_on_disjoint 0x0f 0xf0);
    [unfold Go.is_uint64; lia | unfold Go.is_uint64; lia | reflexivity].
Defined.

(** X6.  Setting a clear bit inside the word raises [PopCount] by one and
    clearing a set bit lowers it by one; setting a set bit or clearing a
    clear one leaves it. *)
Theorem PopCount_after_SetBit_ClearBit (w p : Z) :
  Go.is_uint64 w -> 0 <= p < 64 ->
  util.PopCount (util.SetBit w p) = util.PopCount w + (1 - util.GetBit w p) /\
  util.PopCount (util.ClearBit w p) = util.PopCount w - util.GetBit w p.
Proof.
  intros Hw Hp.
  assert (Hip : Go.is_int p) by (unfold Go.is_int; lia).
  rewrite !PopCount_count_bits
    by (assumption || now apply is_uint64_SetBit || now apply is_uint64_ClearBit).
  rewrite GetBit_b2z by (assumption || lia). split.
  - rewrite (count_bits_one_bit 64 w (util.SetBit w p) p true);
      [| lia | intros k Hk; rewrite SetBit_bits by assumption;
               destruct (p =? k); [apply orb_true_r | apply orb_false_r] ].
    destruct (Z.ltb_spec p (Z.of_nat 64)); [| lia].
    destruct (Z.testbit w p); cbn; lia.
  - rewrite (count_bits_one_bit 64 w (util.ClearBit w p) p false);
      [| lia | intros k Hk; rewrite ClearBit_bits by assumption;
               destruct (p =? k); [apply andb_false_r | apply andb_true_r] ].
    destruct (Z.ltb_spec p (Z.of_nat 64)); [| lia].
    destruct (Z.testbit w p); cbn; lia.
Qed.

Lemma PopCount_after_SetBit_ClearBit_witness :
  util.PopCount (util.SetBit 5 1) = util.PopCount 5 + (1 - util.GetBit 5 1) /\
  util.PopCount (util.ClearBit 5 1) = util.PopCount 5 - util.GetBit 5 1.
Proof.
  apply (PopCount_after_SetBit_ClearBit 5 1); [unfold Go.is_uint64; lia | lia].
Defined.

(* ===================================================================== *)
(** * The diagonal flips and the algebra of the transforms *)
(* ===================================================================== *)

Section CrossStage.

Variables (k s : Z).
Hypothesis Hk : Go.is_uint64 k.
Hypothesis Hs : 0 < s < 64.

Lemma cross_uint64 (x : Z) :
  Go.is_uint64 x ->
  Go.is_uint64
    (Z.lxor x (Z.land k (Z.lxor (Z.lxor x (Go.shl x s)) (Go.shr x s)))).
Proof using Hk.
  intros Hx. apply is_uint64_lxor; [assumption | now apply is_uint64_land].
Qed.

Lemma cross_spec (x n : Z) :
  Go.is_uint64 x ->
  Z.testbit
    (Z.lxor x (Z.land k (Z.lxor (Z.lxor x (Go.shl x s)) (Go.shr x s)))) n =
  cross_bits k s (Z.testbit x) n.
Proof using Hk Hs.
  intros Hx. unfold cross_bits. destruct (in_word n) eqn:Hn.
  - pose proof (proj1 (in_word_spec n) Hn) as Hr.
    rewrite Z.lxor_spec, Z.land_spec, !Z.lxor_spec, shl_bits, shr_bits, Hn
      by lia.
    cbn [andb].
    destruct (in_word (n - s)) eqn:Hlo;
      [| rewrite (testbit_out_of_word x (n - s) Hx Hlo)];
      (destruct (in_word (n + s)) eqn:Hhi;
       [| rewrite (testbit_out_of_word x (n + s) Hx Hhi)]);
      destruct (Z.testbit k n), (Z.testbit x n);
      try destruct (Z.testbit x (n - s));
      try destruct (Z.testbit x (n + s)); reflexivity.
  - apply testbit_out_of_word; [now apply cross_uint64 | assumption].
Qed.

Lemma cross_ext (f g : Z -> bool) :
  (forall n, f n = g n) -> forall n, cross_bits k s f n = cross_bits k s g n.
Proof using Type. intros E n. unfold cross_bits. now rewrite !E. Qed.

End CrossStage.

Section DiagonalSpecs.

Lemma FlipDiagonalA8H1_uint64 (b : Z) :
  Go.is_uint64 b -> Go.is_uint64 (FlipDiagonalA8H1 b).
Proof.
  intros Hb. unfold FlipDiagonalA8H1; cbv zeta.
  repeat (apply delta_uint64; [uint64_const | lia |]).
  apply cross_uint64; [uint64_const | assumption].
Qed.

Lemma FlipDiagonalA8H1_spec (b : Z) :
  Go.is_uint64 b ->
  forall n,
    Z.testbit (FlipDiagonalA8H1 b) n = FlipDiagonalA8H1_bits (Z.testbit b) n.
Proof.
  intros Hb n. unfold FlipDiagonalA8H1, FlipDiagonalA8H1_bits; cbv zeta.
  rewrite delta_spec;
    [| uint64_const | lia
     | apply delta_uint64; [uint64_const | lia |];
       apply cross_uint64; [uint64_const | assumption] ].
  apply delta_ext. clear n. intros n.
  rewrite delta_spec;
    [| uint64_const | lia | apply cross_uint64; [uint64_const | assumption] ].
  apply delta_ext. clear n. intros n.
  apply cross_spec; [uint64_const | lia | assumption].
Qed.

Lemma FlipDiagonalA8H1_bits_ext (f g : Z -> bool) :
  (forall n, f n = g n) ->
  forall n, FlipDiagonalA8H1_bits f n = FlipDiagonalA8H1_bits g n.
Proof.
  intros E. unfold FlipDiagonalA8H1_bits.
  apply delta_ext, delta_ext, cross_ext, E.
Qed.

Lemma Rotate270_uint64 (b : Z) : Go.is_uint64 b -> Go.is_uint64 (Rotate270 b).
Proof.
  intros Hb. unfold Rotate270.
  now apply FlipDiagonalA1H8_uint64, FlipVertical_uint64.
Qed.

Lemma Rotate270_spec (b : Z) :
  Go.is_uint64 b ->
  forall n, Z.testbit (Rotate270 b) n = Rotate270_bits (Z.testbit b) n.
Proof.
  intros Hb n. unfold Rotate270, Rotate270_bits.
  rewrite FlipDiagonalA1H8_spec by now apply FlipVertical_uint64.
  apply FlipDiagonalA1H8_bits_ext. now apply FlipVertical_spec.
Qed.

Lemma Rotate270_bits_ext (f g : Z -> bool) :
  (forall n, f n = g n) -> forall n, Rotate270_bits f n = Rotate270_bits g n.
Proof.
  intros E. unfold Rotate270_bits.
  apply FlipDiagonalA1H8_bits_ext, FlipVertical_bits_ext, E.
Qed.

End DiagonalSpecs.

(** Evaluation of two readings on each of the 64 squares. *)
Ltac on_squares :=
  apply Forall_squares; unfold squares;
  cbv [map seq Z.of_nat Pos.of_succ_nat Pos.succ];
  repeat (apply List.Forall_cons; [reflexivity |]); apply List.Forall_nil.

Section TransformTables.

Variable f : Z -> bool.

Lemma FlipDiagonalA8H1_bits_antitranspose :
  forall n, 0 <= n < 64 ->
    FlipDiagonalA8H1_bits f n = f (8 * (7 - n mod 8) + (7 - n / 8)).
Proof using Type. on_squares. Qed.

Lemma FlipDiagonalA1H8_bits_twice :
  forall n, 0 <= n < 64 ->
    FlipDiagonalA1H8_bits (FlipDiagonalA1H8_bits f) n = f n.
Proof using Type. on_squares. Qed.

Lemma FlipDiagonalA8H1_bits_twice :
  forall n, 0 <= n < 64 ->
    FlipDiagonalA8H1_bits (FlipDiagonalA8H1_bits f) n = f n.
Proof using Type. on_squares. Qed.

Lemma Rotate90_bits_turn :
  forall n, 0 <= n < 64 -> Rotate90_bits f n = f (8 * (n mod 8) + (7 - n / 8)).
Proof using Type. on_squares. Qed.

Lemma Rotate270_bits_turn :
  forall n, 0 <= n < 64 -> Rotate270_bits f n = f (8 * (7 - n mod 8) + n / 8).
Proof using Type. on_squares. Qed.

Lemma Rotate180_bits_turn :
  forall n, 0 <= n < 64 -> Rotate180_bits f n = f (63 - n).
Proof using Type. on_squares. Qed.

Lemma Rotate90_bits_twice :
  forall n, 0 <= n < 64 ->
    Rotate90_bits (Rotate90_bits f) n = Rotate180_bits f n.
Proof using Type. on_squares. Qed.

Lemma Rotate90_bits_thrice :
  forall n, 0 <= n < 64 ->
    Rotate90_bits (Rotate90_bits (Rotate90_bits f)) n = Rotate270_bits f n.
Proof using Type. on_squares. Qed.

Lemma Rotate270_Rotate90_bits :
  forall n, 0 <= n < 64 -> Rotate270_bits (Rotate90_bits f) n = f n.
Proof using Type. on_squares. Qed.

Lemma Rotate90_Rotate270_bits :
  forall n, 0 <= n < 64 -> Rotate90_bits (Rotate270_bits f) n = f n.
Proof using Type. on_squares. Qed.

Lemma FlipVertical_FlipHorizontal_bits :
  forall n, 0 <= n < 64 ->
    FlipVertical_bits (FlipHorizontal_bits f) n = Rotate180_bits f n.
Proof using Type. on_squares. Qed.

Lemma Rotate180_FlipDiagonalA1H8_bits :
  forall n, 0 <= n < 64 ->
    Rotate180_bits (FlipDiagonalA1H8_bits f) n = FlipDiagonalA8H1_bits f n.
Proof using Type. on_squares. Qed.

End TransformTables.

Section CountUnderTransforms.

Lemma count_bits_on_squares (i : Z) :
  count_bits 64 i = count_on (Z.testbit i) squares.
Proof.
  cbv [count_bits count_on squares sum_list map seq fold_right Z.of_nat
       Pos.of_succ_nat Pos.succ].
  ring.
Qed.

Lemma count_on_ext (f g : Z -> bool) (l : list Z) :
  Forall (fun n => f n = g n) l -> count_on f l = count_on g l.
Proof.
  intros H. unfold count_on. apply sum_list_ext.
  eapply Forall_impl; [exact H |]. intros n Hn. cbv beta. now rewrite Hn.
Qed.

Lemma count_on_squares_ext (f g : Z -> bool) :
  (forall n, 0 <= n < 64 -> f n = g n) ->
  count_on f squares = count_on g squares.
Proof.
  intros H. apply count_on_ext, Forall_forall. intros n Hn.
  apply H. apply list_elem_of_In, in_map_iff in Hn.
  destruct Hn as (k & <- & Hk). apply in_seq in Hk. lia.
Qed.

Lemma count_on_map (f : Z -> bool) (g : Z -> Z) (l : list Z) :
  count_on (fun n => f (g n)) l = count_on f (map g l).
Proof. unfold count_on. now rewrite map_map. Qed.

Variable f : Z -> bool.

(** Each flip visits every square once: the count over the squares does
    not change. *)
Ltac count_permuted g :=
  rewrite (count_on_map f g);
  let L := eval vm_compute in (map g squares) in
  change (map g squares) with L;
  cbv [count_on squares sum_list map seq fold_right Z.of_nat
       Pos.of_succ_nat Pos.succ];
  ring.

Lemma count_on_mirror_ranks :
  count_on (fun n => f (8 * (7 - n / 8) + n mod 8)) squares = count_on f squares.
Proof using Type. count_permuted (fun n => 8 * (7 - n / 8) + n mod 8). Qed.

Lemma count_on_mirror_files :
  count_on (fun n => f (8 * (n / 8) + (7 - n mod 8))) squares = count_on f squares.
Proof using Type. count_permuted (fun n => 8 * (n / 8) + (7 - n mod 8)). Qed.

Lemma count_on_transpose :
  count_on (fun n => f (8 * (n mod 8) + n / 8)) squares = count_on f squares.
Proof using Type. count_permuted (fun n => 8 * (n mod 8) + n / 8). Qed.

Lemma count_on_antitranspose :
  count_on (fun n => f (8 * (7 - n mod 8) + (7 - n / 8))) squares
  = count_on f squares.
Proof using Type. count_permuted (fun n => 8 * (7 - n mod 8) + (7 - n / 8)). Qed.

End CountUnderTransforms.

Section FlipCounts.

Variable b : Z.
Hypothesis Hb : Go.is_uint64 b.

Lemma PopCount_FlipVertical : util.PopCount (FlipVertical b) = util.PopCount b.
Proof using Hb.
  rewrite !PopCount_count_bits by (assumption || now apply FlipVertical_uint64).
  rewrite !count_bits_on_squares, <- (count_on_mirror_ranks (Z.testbit b)).
  apply count_on_squares_ext. intros n Hn.
  rewrite FlipVertical_spec by assumption. now apply FlipVertical_bits_mirror.
Qed.

Lemma PopCount_FlipHorizontal :
  util.PopCount (FlipHorizontal b) = util.PopCount b.
Proof using Hb.
  rewrite !PopCount_count_bits by (assumption || apply FlipHorizontal_uint64).
  rewrite !count_bits_on_squares, <- (count_on_mirror_files (Z.testbit b)).
  apply count_on_squares_ext. intros n Hn.
  rewrite FlipHorizontal_spec. now apply FlipHorizontal_bits_mirror.
Qed.

Lemma PopCount_FlipDiagonalA1H8 :
  util.PopCount (FlipDiagonalA1H8 b) = util.PopCount b.
Proof using Hb.
  rewrite !PopCount_count_bits
    by (assumption || now apply FlipDiagonalA1H8_uint64).
  rewrite !count_bits_on_squares, <- (count_on_transpose (Z.testbit b)).
  apply count_on_squares_ext. intros n Hn.
  rewrite FlipDiagonalA1H8_spec by assumption.
  now apply FlipDiagonalA1H8_bits_transpose.
Qed.

Lemma PopCount_FlipDiagonalA8H1 :
  util.PopCount (FlipDiagonalA8H1 b) = util.PopCount b.
Proof using Hb.
  rewrite !PopCount_count_bits
    by (assumption || now apply FlipDiagonalA8H1_uint64).
  rewrite !count_bits_on_squares, <- (count_on_antitranspose (Z.testbit b)).
  apply count_on_squares_ext. intros n Hn.
  rewrite FlipDiagonalA8H1_spec by assumption.
  now apply FlipDiagonalA8H1_bits_antitranspose.
Qed.

End FlipCounts.

(** X7.  Every flip and every rotation keeps the number of set bits: the
    [PopCount] of the transformed board is the [PopCount] of the board. *)
Theorem transforms_keep_PopCount (b : Z) :
  Go.is_uint64 b ->
  util.PopCount (FlipVertical b) = util.PopCount b /\
  util.PopCount (FlipHorizontal b) = util.PopCount b /\
  util.PopCount (FlipDiagonalA1H8 b) = util.PopCount b /\
  util.PopCount (FlipDiagonalA8H1 b) = util.PopCount b /\
  util.PopCount (Rotate90 b) = util.PopCount b /\
  util.PopCount (Rotate180 b) = util.PopCount b /\
  util.PopCount (Rotate270 b) = util.PopCount b.
Proof.
  intros Hb.
  pose proof (PopCount_FlipVertical b Hb) as Hv.
  pose proof (PopCount_FlipDiagonalA1H8 b Hb) as Hd.
  repeat split.
  - exact Hv.
  - now apply PopCount_FlipHorizontal.
  - exact Hd.
  - now apply PopCount_FlipDiagonalA8H1.
  - unfold Rotate90.
    rewrite PopCount_FlipVertical by now apply FlipDiagonalA1H8_uint64.
    exact Hd.
  - unfold Rotate180.
    rewrite PopCount_FlipHorizontal by now apply FlipVertical_uint64.
    exact Hv.
  - unfold Rotate270.
    rewrite PopCount_FlipDiagonalA1H8 by now apply FlipVertical_uint64.
    exact Hv.
Qed.

Lemma transforms_keep_PopCount_witness :
  util.PopCount (FlipVertical 0x8100000000000042) = util.PopCount 0x8100000000000042 /\
  util.PopCount (FlipHorizontal 0x8100000000000042) = util.PopCount 0x8100000000000042 /\
  util.PopCount (FlipDiagonalA1H8 0x8100000000000042) = util.PopCount 0x8100000000000042 /\
  util.PopCount (FlipDiagonalA8H1 0x8100000000000042) = util.PopCount 0x8100000000000042 /\
  util.PopCount (Rotate90 0x8100000000000042) = util.PopCount 0x8100000000000042 /\
  util.PopCount (Rotate180 0x8100000000000042) = util.PopCount 0x8100000000000042 /\
  util.PopCount (Rotate270 0x8100000000000042) = util.PopCount 0x8100000000000042.
Proof.
  apply (transforms_keep_PopCount 0x8100000000000042).
  unfold Go.is_uint64. lia.
Defined.

(** X8.  On the 8x8 grid, [FlipDiagonalA1H8] exchanges files and ranks
    (bit [8*y + x] of the result is bit [8*x + y] of the board) and
    [FlipDiagonalA8H1] reflects about the other diagonal (bit [8*y + x] is
    bit [8*(7-x) + (7-y)]); each applied twice gives the board back. *)
Theorem diagonal_flips_reflect_the_grid (b x y : Z) :
  Go.is_uint64 b -> 0 <= x < 8 -> 0 <= y < 8 ->
  Z.testbit (FlipDiagonalA1H8 b) (8 * y + x) = Z.testbit b (8 * x + y) /\
  Z.testbit (FlipDiagonalA8H1 b) (8 * y + x)
    = Z.testbit b (8 * (7 - x) + (7 - y)) /\
  FlipDiagonalA1H8 (FlipDiagonalA1H8 b) = b /\
  FlipDiagonalA8H1 (FlipDiagonalA8H1 b) = b.
Proof.
  intros Hb Hx Hy.
  assert (Hq : (8 * y + x) / 8 = y) by lia_div.
  assert (Hr : (8 * y + x) mod 8 = x) by lia_div.
  split; [| split; [| split]].
  - rewrite FlipDiagonalA1H8_spec by assumption.
    rewrite FlipDiagonalA1H8_bits_transpose by lia. now rewrite Hq, Hr.
  - rewrite FlipDiagonalA8H1_spec by assumption.
    rewrite FlipDiagonalA8H1_bits_antitranspose by lia. now rewrite Hq, Hr.
  - pose proof (FlipDiagonalA1H8_uint64 b Hb) as H1.
    apply word_eq_on_squares;
      [now apply FlipDiagonalA1H8_uint64 | assumption |].
    intros n Hn. rewrite (FlipDiagonalA1H8_spec _ H1).
    rewrite (FlipDiagonalA1H8_bits_ext _ _ (FlipDiagonalA1H8_spec b Hb)).
    now apply FlipDiagonalA1H8_bits_twice.
  - pose proof (FlipDiagonalA8H1_uint64 b Hb) as H1.
    apply word_eq_on_squares;
      [now apply FlipDiagonalA8H1_uint64 | assumption |].
    intros n Hn. rewrite (FlipDiagonalA8H1_spec _ H1).
    rewrite (FlipDiagonalA8H1_bits_ext _ _ (FlipDiagonalA8H1_spec b Hb)).
    now apply FlipDiagonalA8H1_bits_twice.
Qed.

Lemma diagonal_flips_reflect_the_grid_witness :
  Z.testbit (FlipDiagonalA1H8 0x8100000000000042) (8 * 0 + 7)
    = Z.testbit 0x8100000000000042 (8 * 7 + 0) /\
  Z.testbit (FlipDiagonalA8H1 0x8100000000000042) (8 * 0 + 7)
    = Z.testbit 0x8100000000000042 (8 * (7 - 7) + (7 - 0)) /\
  FlipDiagonalA1H8 (FlipDiagonalA1H8 0x8100000000000042) = 0x8100000000000042 /\
  FlipDiagonalA8H1 (FlipDiagonalA8H1 0x8100000000000042) = 0x8100000000000042.
Proof.
  apply (diagonal_flips_reflect_the_grid 0x8100000000000042 7 0);
    [unfold Go.is_uint64; lia | lia | lia].
Defined.

(** X9.  [Rotate90] turns the grid clockwise: bit [8*y + x] of the result
    is bit [8*x + (7-y)] of the board, so the piece on a1 goes to a8.
    [Rotate270] turns it the other way (bit [8*(7-x) + y]) and [Rotate180]
    reverses the 64 bits.  Two quarter turns are a half turn, three are
    [Rotate270], and [Rotate270] undoes [Rotate90] on either side. *)
Theorem rotations_turn_the_grid (b x y : Z) :
  Go.is_uint64 b -> 0 <= x < 8 -> 0 <= y < 8 ->
  Z.testbit (Rotate90 b) (8 * y + x) = Z.testbit b (8 * x + (7 - y)) /\
  Z.testbit (Rotate270 b) (8 * y + x) = Z.testbit b (8 * (7 - x) + y) /\
  Z.testbit (Rotate180 b) (8 * y + x) = Z.testbit b (63 - (8 * y + x)) /\
  Rotate90 (Rotate90 b) = Rotate180 b /\
  Rotate90 (Rotate90 (Rotate90 b)) = Rotate270 b /\
  Rotate270 (Rotate90 b) = b /\
  Rotate90 (Rotate270 b) = b.
Proof.
  intros Hb Hx Hy.
  assert (Hq : (8 * y + x) / 8 = y) by lia_div.
  assert (Hr : (8 * y + x) mod 8 = x) by lia_div.
  pose proof (Rotate90_uint64 b Hb) as H1.
  pose proof (Rotate90_uint64 _ H1) as H2.
  pose proof (Rotate270_uint64 b Hb) as H3.
  split; [| split; [| split; [| split; [| split; [| split]]]]].
  - rewrite Rotate90_spec by assumption.
    rewrite Rotate90_bits_turn by lia. now rewrite Hq, Hr.
  - rewrite Rotate270_spec by assumption.
    rewrite Rotate270_bits_turn by lia. now rewrite Hq, Hr.
  - rewrite Rotate180_spec by assumption.
    now rewrite Rotate180_bits_turn by lia.
  - apply word_eq_on_squares; [assumption | apply Rotate180_uint64 |].
    intros n Hn. rewrite (Rotate90_spec _ H1), (Rotate180_spec _ Hb).
    rewrite (Rotate90_bits_ext _ _ (Rotate90_spec _ Hb)).
    now apply Rotate90_bits_twice.
  - apply word_eq_on_squares; [now apply Rotate90_uint64 | assumption |].
    intros n Hn. rewrite (Rotate90_spec _ H2), (Rotate270_spec _ Hb).
    rewrite (Rotate90_bits_ext _ _ (Rotate90_spec _ H1)).
    rewrite (Rotate90_bits_ext _ _
               (Rotate90_bits_ext _ _ (Rotate90_spec _ Hb))).
    now apply Rotate90_bits_thrice.
  - apply word_eq_on_squares; [now apply Rotate270_uint64 | assumption |].
    intros n Hn. rewrite (Rotate270_spec _ H1).
    rewrite (Rotate270_bits_ext _ _ (Rotate90_spec _ Hb)).
    now apply Rotate270_Rotate90_bits.
  - apply word_eq_on_squares; [now apply Rotate90_uint64 | assumption |].
    intros n Hn. rewrite (Rotate90_spec _ H3).
    rewrite (Rotate90_bits_ext _ _ (Rotate270_spec _ Hb)).
    now apply Rotate90_Rotate270_bits.
Qed.

Lemma rotations_turn_the_grid_witness :
  Z.testbit (Rotate90 1) (8 * 7 + 0) = Z.testbit 1 (8 * 0 + (7 - 7)) /\
  Z.testbit (Rotate270 1) (8 * 7 + 0) = Z.testbit 1 (8 * (7 - 0) + 7) /\
  Z.testbit (Rotate180 1) (8 * 7 + 0) = Z.testbit 1 (63 - (8 * 7 + 0)) /\
  Rotate90 (Rotate90 1) = Rotate180 1 /\
  Rotate90 (Rotate90 (Rotate90 1)) = Rotate270 1 /\
  Rotate270 (Rotate90 1) = 1 /\
  Rotate90 (Rotate270 1) = 1.
Proof.
  apply (rotations_turn_the_grid 1 0 7); [unfold Go.is_uint64; lia | lia | lia].
Defined.

(** X10.  The two axis flips commute, and their composition in either
    order is [Rotate180]; the flip about the diagonal a8-h1 is the flip
    about a1-h8 followed by a half turn. *)
Theorem flips_compose (b : Z) :
  Go.is_uint64 b ->
  FlipVertical (FlipHorizontal b) = FlipHorizontal (FlipVertical b) /\
  FlipVertical (FlipHorizontal b) = Rotate180 b /\
  Rotate180 (FlipDiagonalA1H8 b) = FlipDiagonalA8H1 b.
Proof.
  intros Hb.
  assert (E : FlipVertical (FlipHorizontal b) = Rotate180 b).
  { apply word_eq_on_squares;
      [apply FlipVertical_uint64, FlipHorizontal_uint64
      | apply Rotate180_uint64 |].
    intros n Hn.
    rewrite (FlipVertical_spec _ (FlipHorizontal_uint64 b)).
    rewrite (Rotate180_spec _ Hb).
    rewrite (FlipVertical_bits_ext _ _ (FlipHorizontal_spec b)).
    now apply FlipVertical_FlipHorizontal_bits. }
  split; [rewrite E; unfold Rotate180; reflexivity | split; [exact E |]].
  pose proof (FlipDiagonalA1H8_uint64 b Hb) as H1.
  apply word_eq_on_squares;
    [apply Rotate180_uint64 | now apply FlipDiagonalA8H1_uint64 |].
  intros n Hn.
  rewrite (Rotate180_spec _ H1), (FlipDiagonalA8H1_spec _ Hb).
  rewrite (Rotate180_bits_ext _ _ (FlipDiagonalA1H8_spec _ Hb)).
  now apply Rotate180_FlipDiagonalA1H8_bits.
Qed.

Lemma flips_compose_witness :
  FlipVertical (FlipHorizontal 0x42) = FlipHorizontal (FlipVertical 0x42) /\
  FlipVertical (FlipHorizontal 0x42) = Rotate180 0x42 /\
  Rotate180 (FlipDiagonalA1H8 0x42) = FlipDiagonalA8H1 0x42.
Proof.
  apply (flips_compose 0x42). unfold Go.is_uint64. lia.
Defined.

(* ===================================================================== *)
(** * Coordinate conversions: the other directions *)
(* ===================================================================== *)

Section WrapArithmetic.

Lemma wrap_int_mod (a : Z) : Go.wrap_int a mod 2 ^ 64 = a mod 2 ^ 64.
Proof.
  unfold Go.wrap_int. rewrite Zminus_mod_idemp_l. f_equal. lia.
Qed.

Lemma wrap_int_congr (a b : Z) :
  a mod 2 ^ 64 = b mod 2 ^ 64 -> Go.wrap_int a = Go.wrap_int b.
Proof.
  intros H. unfold Go.wrap_int.
  rewrite <- (Zplus_mod_idemp_l a), H, Zplus_mod_idemp_l. reflexivity.
Qed.

Lemma rem_is_int (p files : Z) :
  Go.is_int files -> files <> 0 -> Go.is_int (Z.rem p files).
Proof.
  unfold Go.is_int. intros Hf Hnz.
  pose proof (Z.rem_bound_abs p files Hnz). lia.
Qed.

Lemma div_is_int (p files : Z) :
  Go.is_int p -> 0 <= p -> 0 < files ->
  Go.is_int (p / files) /\ 0 <= p / files <= p.
Proof.
  unfold Go.is_int. intros Hp Hp0 Hf.
  pose proof (Z.div_pos p files Hp0 Hf).
  assert (p / files <= p) by (apply Z.div_le_upper_bound; nia).
  lia.
Qed.

End WrapArithmetic.

(** X11.  For every [int] position and every non-zero [int] width, the
    negative ones included, [BitToCartesian] returns a pair from which
    [CartesianToBit] gives the position back; for a position that is not
    negative and a positive width the pair has [0 <= x < files] and
    [0 <= y]. *)
Theorem CartesianToBit_inverts_BitToCartesian (p files : Z) :
  Go.is_int p -> Go.is_int files -> files <> 0 ->
  exists x y,
    util.BitToCartesian p files = Some (x, y) /\
    util.CartesianToBit x y files = p /\
    (0 <= p -> 0 < files -> 0 <= x < files /\ 0 <= y).
Proof.
  intros Hp Hf Hnz.
  unfold util.BitToCartesian, Go.irem, Go.idiv.
  destruct (Z.eqb_spec files 0) as [? | _]; [contradiction |].
  eexists _, _. split; [reflexivity |].
  rewrite (wrap_int_small (Z.rem p files)) by now apply rem_is_int.
  split.
  - unfold util.CartesianToBit, Go.iadd, Go.imul.
    rewrite <- (wrap_int_small p Hp) at 3. apply wrap_int_congr.
    rewrite Zplus_mod, wrap_int_mod, <- Zplus_mod.
    rewrite Zplus_mod, Zmult_mod, wrap_int_mod, <- Zmult_mod, <- Zplus_mod.
    f_equal. rewrite (Z.quot_rem' p files) at 3. ring.
  - intros Hp0 Hf0.
    rewrite Z.rem_mod_nonneg, Z.quot_div_nonneg by lia.
    destruct (div_is_int p files Hp Hp0 Hf0) as [Hq Hq0].
    rewrite wrap_int_small by assumption.
    pose proof (Z.mod_pos_bound p files Hf0). lia.
Qed.

Lemma CartesianToBit_inverts_BitToCartesian_witness :
  exists x y,
    util.BitToCartesian (-22) 8 = Some (x, y) /\
    util.CartesianToBit x y 8 = -22 /\
    (0 <= -22 -> 0 < 8 -> 0 <= x < 8 /\ 0 <= y).
Proof.
  apply (CartesianToBit_inverts_BitToCartesian (-22) 8);
    [unfold Go.is_int; lia | unfold Go.is_int; lia | lia].
Defined.

(** X12.  On a board of 1 to 8 files, every position of the first nine
    ranks has an algebraic name, and the name reads back as the position:
    [AlgebraicToBit (BitToAlgebraic p files) files = p]. *)
Theorem AlgebraicToBit_inverts_BitToAlgebraic (p files : Z) :
  0 < files <= 8 -> 0 <= p < 9 * files ->
  exists s,
    util.BitToAlgebraic p files = Some s /\
    util.AlgebraicToBit s files = Some p.
Proof.
  intros Hf Hp.
  destruct (CartesianToBit_inverts_BitToCartesian p files)
    as (x & y & Hbc & Hcb & Hrange);
    [unfold Go.is_int; lia | unfold Go.is_int; lia | lia |].
  destruct (Hrange ltac:(lia) ltac:(lia)) as [Hx Hy].
  assert (Hy9 : y < 9).
  { unfold util.BitToCartesian, Go.irem, Go.idiv in Hbc.
    destruct (Z.eqb_spec files 0); [lia |].
    injection Hbc as _ <-.
    rewrite Z.quot_div_nonneg by lia.
    rewrite wrap_int_small
      by (apply div_is_int; [unfold Go.is_int; lia | lia | lia]).
    apply Z.div_lt_upper_bound; lia. }
  destruct (algebraic_round_trip_one_digit x y files) as (s & Hs & Hback);
    [lia | lia |].
  exists s. unfold util.BitToAlgebraic, util.AlgebraicToBit.
  rewrite Hbc, Hs, Hback, Hcb. split; reflexivity.
Qed.

Lemma AlgebraicToBit_inverts_BitToAlgebraic_witness :
  exists s,
    util.BitToAlgebraic 41 7 = Some s /\ util.AlgebraicToBit s 7 = Some 41.
Proof.
  apply (AlgebraicToBit_inverts_BitToAlgebraic 41 7); lia.
Defined.

(** X13.  When the conversions panic: [BitToCartesian] exactly for a zero
    width (division by zero), [CartesianToAlgebraic] exactly for a file
    outside [0, 8) (index out of range in the table of letters), and
    [AlgebraicToCartesian] exactly for a string of fewer than two bytes. *)
Theorem conversions_panic_exactly (p x y files : Z) (s : string) :
  (util.BitToCartesian p files = None <-> files = 0) /\
  (util.CartesianToAlgebraic x y files = None <-> ~ 0 <= x < 8) /\
  (util.AlgebraicToCartesian s files = None <-> (String.length s < 2)%nat).
Proof.
  split; [| split].
  - unfold util.BitToCartesian, Go.irem, Go.idiv.
    destruct (Z.eqb_spec files 0); split; intros; congruence.
  - unfold util.CartesianToAlgebraic.
    change (Z.of_nat (length util.symbols)) with 8.
    destruct (Z.leb_spec 0 x), (Z.ltb_spec x 8); cbn [andb];
      try (split; [lia | reflexivity]).
    destruct (lookup_lt_is_Some_2 util.symbols (Z.to_nat x)) as [v Hv];
      [cbn; lia |].
    rewrite Hv. split; [discriminate | lia].
  - destruct s as [| a [| c r]].
    + split; [cbn; lia | reflexivity].
    + split; [cbn; lia | intros _].
      unfold util.AlgebraicToCartesian. rewrite find_file_byte. reflexivity.
    + rewrite AlgebraicToCartesian_bytes. split; [discriminate | cbn; lia].
Qed.

(* ===================================================================== *)
(** * The aggregate: what the mutators do to a square *)
(* ===================================================================== *)

Section SquareFacts.

(** [GetBit] at any [int] position: outside the word the bit reads 0. *)
Lemma GetBit_b2z_int (w p : Z) :
  Go.is_uint64 w -> Go.is_int p -> util.GetBit w p = Z.b2z (Z.testbit w p).
Proof.
  intros Hw Hp. destruct (Z.ltb_spec p 0) as [Hneg | Hpos].
  - rewrite Z.testbit_neg_r by assumption.
    unfold util.GetBit, Go.shr.
    pose proof (uint_of_int_out_of_range p Hp (or_introl Hneg)).
    destruct (Z.ltb_spec (Go.uint_of_int p) 64); [lia | reflexivity].
  - now apply GetBit_b2z.
Qed.

(** The scan in terms of the bits it reads. *)
Lemma scan_bits (ws : list Z) (i p : Z) :
  Forall Go.is_uint64 ws -> Go.is_int p ->
  scan ws i p =
  match ws with
  | [] => -1
  | w :: ws' => if Z.testbit w p then i else scan ws' (i + 1) p
  end.
Proof.
  intros Hws Hp. destruct Hws as [| w ws Hw _]; [reflexivity |].
  cbn [scan]. rewrite GetBit_b2z_int by assumption.
  now destruct (Z.testbit w p).
Qed.

(** The scan reads bit [p] of each word and nothing else. *)
Lemma scan_ext (ws ws' : list Z) (i p : Z) :
  Forall Go.is_uint64 ws -> Forall Go.is_uint64 ws' -> Go.is_int p ->
  Forall2 (fun w w' => Z.testbit w p = Z.testbit w' p) ws ws' ->
  scan ws i p = scan ws' i p.
Proof.
  intros Hws Hws' Hp H. revert i Hws Hws'.
  induction H as [| w w' ws ws' Hb _ IH]; intros i Hws Hws'; [reflexivity |].
  rewrite (scan_bits (w :: ws)), (scan_bits (w' :: ws')) by assumption.
  apply Forall_cons_1 in Hws, Hws'. rewrite Hb.
  destruct (Z.testbit w' p); [reflexivity | apply IH; tauto].
Qed.


(** The scan finds category [m] when its word has the bit and no other
    word has. *)
Lemma scan_owner (ws : list Z) (m p : Z) (w : Z) :
  Forall Go.is_uint64 ws -> Go.is_int p -> 0 <= p -> 0 <= m ->
  ws !! Z.to_nat m = Some w -> Z.testbit w p = true ->
  others_clear ws 0 m p = true ->
  scan ws 0 p = m.
Proof.
  intros Hws Hi Hp Hm Hw Hbit Hothers.
  destruct (scan_first ws 0 p Hws Hi Hp
              (ex_intro _ (Z.to_nat m) (ex_intro _ w (conj Hw Hbit))))
    as (k & w1 & Hscan & Hk & Hw1 & _).
  rewrite Hscan.
  destruct (Z.eq_dec (0 + Z.of_nat k) m) as [E | Hne]; [exact E |].
  rewrite (others_clear_spec ws 0 m p Hothers k w1 Hk Hne) in Hw1.
  discriminate.
Qed.

Lemma ClearBit_SetBit (w p : Z) :
  Go.is_uint64 w -> 0 <= p < 64 -> Z.testbit w p = false ->
  util.ClearBit (util.SetBit w p) p = w.
Proof.
  intros Hw Hp Hbit.
  assert (Hi : Go.is_int p) by (unfold Go.is_int; lia).
  apply Z.bits_inj'. intros n Hn.
  rewrite ClearBit_bits, SetBit_bits
    by (assumption || now apply is_uint64_SetBit).
  destruct (Z.eqb_spec p n) as [<- | Hne]; cbn.
  - rewrite Hbit. reflexivity.
  - now rewrite orb_false_r, andb_true_r.
Qed.

Lemma others_clear_insert (ws : list Z) (i m p v : Z) (k : nat) :
  i + Z.of_nat k = m ->
  others_clear (<[k := v]> ws) i m p = others_clear ws i m p.
Proof.
  revert i k. induction ws as [| w ws IH]; intros i k Hk; [reflexivity |].
  destruct k as [| k].
  - change (<[0%nat:=v]> (w :: ws)) with (v :: ws). cbn [others_clear].
    replace (i =? m) with true by (symmetry; apply Z.eqb_eq; lia).
    reflexivity.
  - change (<[S k:=v]> (w :: ws)) with (w :: <[k:=v]> ws).
    cbn [others_clear]. rewrite IH by lia. reflexivity.
Qed.

End SquareFacts.

(** Bounds that the witnesses below discharge by evaluation. *)
Ltac closed_uint64 := vm_compute; split; [discriminate | reflexivity].

(** X14.  Placing a piece on an empty square and removing it again
    restores the board: when bit [p] is clear in [Occupied] and in the
    bitmap of category [m], [PlacePieceBit m p] followed by
    [RemovePieceBit m p] returns and leaves the board as it was. *)
Theorem place_then_remove_restores (b : Bitboard) (m p : Z) :
  wf_board b -> cat_in_range b m = true -> 0 <= p < 64 ->
  Z.testbit (Occupied b) p = false ->
  (forall w, Bitmaps b !! Z.to_nat m = Some w -> Z.testbit w p = false) ->
  (PlacePieceBit m p ;; RemovePieceBit m p) b = (Ret tt, b).
Proof.
  intros [Hocc Hws] Hm Hp Hclear Hmclear.
  destruct (PlacePieceBit_run m p b Hm) as (w & Hw & E1).
  pose proof (PlacePieceBit_shape m p b _ Hm E1) as (_ & _ & Hlen).
  assert (Hm1 : cat_in_range
                  (mkBitboard (<[Z.to_nat m := util.SetBit w p]> (Bitmaps b))
                     (Symbols b) (util.SetBit (Occupied b) p)
                     (Ranks b) (Files b)) m = true).
  { unfold cat_in_range in *. now rewrite Hlen. }
  destruct (RemovePieceBit_run m p _ Hm1) as (w1 & Hw1 & E2).
  cbn [Bitmaps Symbols Occupied Ranks Files] in Hw1, E2.
  rewrite list_lookup_insert_eq in Hw1 by (eapply lookup_lt_Some; eauto).
  injection Hw1 as <-.
  change ((PlacePieceBit m p ;; RemovePieceBit m p) b)
    with (match PlacePieceBit m p b with
          | (Ret _, b') => RemovePieceBit m p b'
          | (Panic, b') => (Panic, b')
          end).
  rewrite E1, E2. f_equal.
  rewrite list_insert_insert_eq.
  assert (Hww : Go.is_uint64 w) by (eapply Forall_lookup_1; eauto).
  rewrite (ClearBit_SetBit w p Hww Hp (Hmclear w Hw)).
  rewrite (ClearBit_SetBit (Occupied b) p) by assumption.
  rewrite list_insert_id by assumption. now destruct b.
Qed.

Lemma place_then_remove_restores_witness :
  (PlacePieceBit 5 28 ;; RemovePieceBit 5 28) NewChessBoard
  = (Ret tt, NewChessBoard).
Proof.
  apply (place_then_remove_restores NewChessBoard 5 28).
  - split; [closed_uint64 | repeat constructor; discriminate].
  - reflexivity.
  - lia.
  - reflexivity.
  - intros w Hw. vm_compute in Hw. injection Hw as <-. reflexivity.
Defined.

Section LookupAfterMutation.

Lemma scan_insert (ws : list Z) (k : nat) (w v i q : Z) :
  Forall Go.is_uint64 ws -> Go.is_uint64 v -> Go.is_int q ->
  ws !! k = Some w -> Z.testbit v q = Z.testbit w q ->
  scan (<[k := v]> ws) i q = scan ws i q.
Proof.
  intros Hws Hv Hq. revert k i.
  induction Hws as [| w0 ws Hw0 Hws IH]; intros k i Hk Hbit; [reflexivity |].
  destruct k as [| k].
  - cbn in Hk. injection Hk as ->.
    change (<[0%nat:=v]> (w :: ws)) with (v :: ws).
    rewrite (scan_bits (v :: ws)), (scan_bits (w :: ws))
      by (assumption || now constructor).
    now rewrite Hbit.
  - change (<[S k:=v]> (w0 :: ws)) with (w0 :: <[k:=v]> ws).
    rewrite (scan_bits (w0 :: _)), (scan_bits (w0 :: ws))
      by (assumption || constructor; try assumption;
          apply Forall_insert; assumption).
    destruct (Z.testbit w0 q); [reflexivity |]. now apply IH.
Qed.

Variables (b : Bitboard) (m p : Z).
Hypothesis Hwf : wf_board b.
Hypothesis Hm : cat_in_range b m = true.
Hypothesis Hp : 0 <= p < 64.

Lemma PlacePieceBit_wf (b' : Bitboard) :
  PlacePieceBit m p b = (Ret tt, b') -> wf_board b' /\ cat_in_range b' m = true.
Proof using Hwf Hm.
  intros Hrun. destruct Hwf as [Hocc Hws].
  destruct (PlacePieceBit_run m p b Hm) as (w & Hw & E).
  rewrite E in Hrun. injection Hrun as <-. split; [split |]; cbn.
  - now apply is_uint64_SetBit.
  - apply Forall_insert; [assumption |].
    apply is_uint64_SetBit. eapply Forall_lookup_1; eauto.
  - unfold cat_in_range in *. cbn. now rewrite length_insert.
Qed.

Lemma RemovePieceBit_wf (b' : Bitboard) :
  RemovePieceBit m p b = (Ret tt, b') -> wf_board b' /\ cat_in_range b' m = true.
Proof using Hwf Hm.
  intros Hrun. destruct Hwf as [Hocc Hws].
  destruct (RemovePieceBit_run m p b Hm) as (w & Hw & E).
  rewrite E in Hrun. injection Hrun as <-. split; [split |]; cbn.
  - now apply is_uint64_ClearBit.
  - apply Forall_insert; [assumption |].
    apply is_uint64_ClearBit. eapply Forall_lookup_1; eauto.
  - unfold cat_in_range in *. cbn. now rewrite length_insert.
Qed.

Lemma lookup_placed (b' : Bitboard) :
  PlacePieceBit m p b = (Ret tt, b') ->
  others_clear (Bitmaps b) 0 m p = true ->
  GetBitmapIndex b' p = m /\
  others_clear (Bitmaps b') 0 m p = true.
Proof using Hwf Hm Hp.
  intros Hrun Hothers. destruct Hwf as [Hocc Hws].
  assert (Hi : Go.is_int p) by (unfold Go.is_int; lia).
  destruct (PlacePieceBit_run m p b Hm) as (w & Hw & E).
  rewrite E in Hrun. injection Hrun as <-.
  unfold cat_in_range in Hm. apply andb_true_iff in Hm.
  destruct Hm as [Hm0 Hm1]. apply Z.leb_le in Hm0. apply Z.ltb_lt in Hm1.
  assert (Hw64 : Go.is_uint64 w) by (eapply Forall_lookup_1; eauto).
  assert (Hins : others_clear (<[Z.to_nat m:=util.SetBit w p]> (Bitmaps b))
                   0 m p = true)
    by (rewrite others_clear_insert by lia; exact Hothers).
  split; [| exact Hins].
  unfold GetBitmapIndex; cbn [Occupied Bitmaps].
  rewrite GetBit_b2z, SetBit_bits, Z.eqb_refl, orb_true_r
    by (assumption || lia || now apply is_uint64_SetBit).
  cbn. apply (scan_owner _ m p (util.SetBit w p)); try assumption; try lia.
  - apply Forall_insert; [assumption | now apply is_uint64_SetBit].
  - apply list_lookup_insert_eq. lia.
  - rewrite SetBit_bits, Z.eqb_refl by (assumption || lia).
    apply orb_true_r.
Qed.

Lemma lookup_removed (b' : Bitboard) :
  RemovePieceBit m p b = (Ret tt, b') -> GetBitmapIndex b' p = -1.
Proof using Hwf Hm Hp.
  intros Hrun. destruct Hwf as [Hocc Hws].
  assert (Hi : Go.is_int p) by (unfold Go.is_int; lia).
  destruct (RemovePieceBit_run m p b Hm) as (w & Hw & E).
  rewrite E in Hrun. injection Hrun as <-.
  unfold GetBitmapIndex; cbn [Occupied Bitmaps].
  rewrite GetBit_b2z, ClearBit_bits, Z.eqb_refl, andb_false_r
    by (assumption || lia || now apply is_uint64_ClearBit).
  reflexivity.
Qed.

Lemma lookup_elsewhere_placed (b' : Bitboard) (q : Z) :
  PlacePieceBit m p b = (Ret tt, b') -> 0 <= q < 64 -> q <> p ->
  GetBitmapIndex b' q = GetBitmapIndex b q.
Proof using Hwf Hm Hp.
  intros Hrun Hq Hne. destruct Hwf as [Hocc Hws].
  assert (Hi : Go.is_int p) by (unfold Go.is_int; lia).
  assert (Hiq : Go.is_int q) by (unfold Go.is_int; lia).
  destruct (PlacePieceBit_run m p b Hm) as (w & Hw & E).
  rewrite E in Hrun. injection Hrun as <-.
  assert (Hw64 : Go.is_uint64 w) by (eapply Forall_lookup_1; eauto).
  assert (Hbit : forall x, Z.testbit (util.SetBit x p) q = Z.testbit x q).
  { intros x. rewrite SetBit_bits by assumption.
    destruct (Z.eqb_spec p q); [lia | apply orb_false_r]. }
  unfold GetBitmapIndex; cbn [Occupied Bitmaps].
  rewrite !GetBit_b2z by (assumption || lia || now apply is_uint64_SetBit).
  rewrite Hbit.
  rewrite (scan_insert (Bitmaps b) _ w); try assumption;
    [reflexivity | now apply is_uint64_SetBit | apply Hbit].
Qed.

Lemma lookup_elsewhere_removed (b' : Bitboard) (q : Z) :
  RemovePieceBit m p b = (Ret tt, b') -> 0 <= q < 64 -> q <> p ->
  GetBitmapIndex b' q = GetBitmapIndex b q.
Proof using Hwf Hm Hp.
  intros Hrun Hq Hne. destruct Hwf as [Hocc Hws].
  assert (Hi : Go.is_int p) by (unfold Go.is_int; lia).
  assert (Hiq : Go.is_int q) by (unfold Go.is_int; lia).
  destruct (RemovePieceBit_run m p b Hm) as (w & Hw & E).
  rewrite E in Hrun. injection Hrun as <-.
  assert (Hw64 : Go.is_uint64 w) by (eapply Forall_lookup_1; eauto).
  assert (Hbit : forall x, Go.is_uint64 x ->
                           Z.testbit (util.ClearBit x p) q = Z.testbit x q).
  { intros x Hx. rewrite ClearBit_bits by assumption.
    destruct (Z.eqb_spec p q); [lia | apply andb_true_r]. }
  unfold GetBitmapIndex; cbn [Occupied Bitmaps].
  rewrite !GetBit_b2z by (assumption || lia || now apply is_uint64_ClearBit).
  rewrite Hbit by assumption.
  rewrite (scan_insert (Bitmaps b) _ w); try assumption;
    [reflexivity | now apply is_uint64_ClearBit | now apply Hbit].
Qed.

End LookupAfterMutation.

(** X15.  What [GetBitmapIndex] reports after a mutation inside the word:
    after [PlacePieceBit m p] on a square that no other category holds it
    reports [m] at [p]; after [RemovePieceBit m p] it reports the empty
    sentinel [-1] at [p], whoever held the square; and at every other
    square it reports what it reported before. *)
Theorem lookup_after_place_and_remove (b : Bitboard) (m p q : Z) :
  wf_board b -> cat_in_range b m = true -> 0 <= p < 64 ->
  fst (PlacePieceBit m p b) = Ret tt /\
  fst (RemovePieceBit m p b) = Ret tt /\
  (others_clear (Bitmaps b) 0 m p = true ->
   GetBitmapIndex (snd (PlacePieceBit m p b)) p = m) /\
  GetBitmapIndex (snd (RemovePieceBit m p b)) p = -1 /\
  (0 <= q < 64 -> q <> p ->
   GetBitmapIndex (snd (PlacePieceBit m p b)) q = GetBitmapIndex b q /\
   GetBitmapIndex (snd (RemovePieceBit m p b)) q = GetBitmapIndex b q).
Proof.
  intros Hwf Hm Hp.
  destruct (PlacePieceBit_run m p b Hm) as (w & Hw & E1).
  destruct (RemovePieceBit_run m p b Hm) as (w' & Hw' & E2).
  split; [now rewrite E1 | split; [now rewrite E2 |]].
  split; [| split; [| intros Hq Hne; split]].
  - intros Hothers. rewrite E1. cbn [snd].
    now apply (lookup_placed b m p Hwf Hm Hp _ E1).
  - rewrite E2. cbn [snd]. exact (lookup_removed b m p Hwf Hm Hp _ E2).
  - rewrite E1. cbn [snd].
    exact (lookup_elsewhere_placed b m p Hwf Hm Hp _ q E1 Hq Hne).
  - rewrite E2. cbn [snd].
    exact (lookup_elsewhere_removed b m p Hwf Hm Hp _ q E2 Hq Hne).
Qed.

Lemma lookup_after_place_and_remove_witness :
  fst (PlacePieceBit 5 28 NewChessBoard) = Ret tt /\
  fst (RemovePieceBit 5 28 NewChessBoard) = Ret tt /\
  (others_clear (Bitmaps NewChessBoard) 0 5 28 = true ->
   GetBitmapIndex (snd (PlacePieceBit 5 28 NewChessBoard)) 28 = 5) /\
  GetBitmapIndex (snd (RemovePieceBit 5 28 NewChessBoard)) 28 = -1 /\
  (0 <= 12 < 64 -> 12 <> 28 ->
   GetBitmapIndex (snd (PlacePieceBit 5 28 NewChessBoard)) 12
     = GetBitmapIndex NewChessBoard 12 /\
   GetBitmapIndex (snd (RemovePieceBit 5 28 NewChessBoard)) 12
     = GetBitmapIndex NewChessBoard 12).
Proof.
  apply (lookup_after_place_and_remove NewChessBoard 5 28 12).
  - split; [closed_uint64 | repeat constructor; discriminate].
  - reflexivity.
  - lia.
Defined.

(** X16.  [MovePieceBit m p1 p2] between two different squares of the
    word, the target held by no other category: the call returns; after it
    [GetBitmapIndex] reports [m] at [p2] and the empty sentinel at [p1];
    every other square reports what it reported before. *)
Theorem lookup_after_move (b : Bitboard) (m p1 p2 q : Z) :
  wf_board b -> cat_in_range b m = true ->
  0 <= p1 < 64 -> 0 <= p2 < 64 -> p1 <> p2 ->
  others_clear (Bitmaps b) 0 m p2 = true ->
  fst (MovePieceBit m p1 p2 b) = Ret tt /\
  GetBitmapIndex (snd (MovePieceBit m p1 p2 b)) p2 = m /\
  GetBitmapIndex (snd (MovePieceBit m p1 p2 b)) p1 = -1 /\
  (0 <= q < 64 -> q <> p1 -> q <> p2 ->
   GetBitmapIndex (snd (MovePieceBit m p1 p2 b)) q = GetBitmapIndex b q).
Proof.
  intros Hwf Hm Hp1 Hp2 Hne Hothers.
  destruct (RemovePieceBit_run m p1 b Hm) as (w & Hw & E1).
  destruct (RemovePieceBit_wf b m p1 Hwf Hm _ E1) as [Hwf1 Hm1].
  destruct (PlacePieceBit_run m p2 _ Hm1) as (w' & Hw' & E2).
  assert (Hothers1 :
            others_clear
              (<[Z.to_nat m:=util.ClearBit w p1]> (Bitmaps b)) 0 m p2 = true).
  { unfold cat_in_range in Hm. apply andb_true_iff in Hm.
    destruct Hm as [Hm0 _]. apply Z.leb_le in Hm0.
    rewrite others_clear_insert by lia. exact Hothers. }
  assert (E : MovePieceBit m p1 p2 b = PlacePieceBit m p2
                (mkBitboard (<[Z.to_nat m:=util.ClearBit w p1]> (Bitmaps b))
                   (Symbols b) (util.ClearBit (Occupied b) p1)
                   (Ranks b) (Files b))).
  { unfold MovePieceBit, mbind, M_bind. now rewrite E1. }
  rewrite E, E2. cbn [fst snd].
  split; [reflexivity | split; [| split]].
  - now apply (lookup_placed _ m p2 Hwf1 Hm1 Hp2 _ E2).
  - rewrite (lookup_elsewhere_placed _ m p2 Hwf1 Hm1 Hp2 _ p1 E2 Hp1 Hne).
    exact (lookup_removed b m p1 Hwf Hm Hp1 _ E1).
  - intros Hq Hq1 Hq2.
    rewrite (lookup_elsewhere_placed _ m p2 Hwf1 Hm1 Hp2 _ q E2 Hq Hq2).
    exact (lookup_elsewhere_removed b m p1 Hwf Hm Hp1 _ q E1 Hq Hq1).
Qed.

Lemma lookup_after_move_witness :
  fst (MovePieceBit 5 12 28 NewChessBoard) = Ret tt /\
  GetBitmapIndex (snd (MovePieceBit 5 12 28 NewChessBoard)) 28 = 5 /\
  GetBitmapIndex (snd (MovePieceBit 5 12 28 NewChessBoard)) 12 = -1 /\
  (0 <= 4 < 64 -> 4 <> 12 -> 4 <> 28 ->
   GetBitmapIndex (snd (MovePieceBit 5 12 28 NewChessBoard)) 4
     = GetBitmapIndex NewChessBoard 4).
Proof.
  apply (lookup_after_move NewChessBoard 5 12 28 4).
  - split; [closed_uint64 | repeat constructor; discriminate].
  - reflexivity.
  - lia.
  - lia.
  - lia.
  - reflexivity.
Defined.

(** X17.  A category index outside the slice makes the mutators panic, but
    only after [Occupied] has been written: [PlacePieceBit] leaves the bit
    set in [Occupied], [RemovePieceBit] leaves it cleared, and
    [MovePieceBit] stops in its removal and never places; the bitmaps are
    untouched. *)
Theorem missing_category_panics_after_writing_Occupied
    (b : Bitboard) (m p p2 : Z) :
  cat_in_range b m = false ->
  PlacePieceBit m p b
    = (Panic, set_Occupied (util.SetBit (Occupied b) p) b) /\
  RemovePieceBit m p b
    = (Panic, set_Occupied (util.ClearBit (Occupied b) p) b) /\
  MovePieceBit m p p2 b
    = (Panic, set_Occupied (util.ClearBit (Occupied b) p) b).
Proof.
  intros Hm.
  assert (Hw : forall f v,
             with_Bitmap m f (set_Occupied v b) = (Panic, set_Occupied v b)).
  { intros f v. unfold with_Bitmap. cbn [Bitmaps set_Occupied].
    unfold cat_in_range in Hm. now rewrite Hm. }
  assert (Hr : RemovePieceBit m p b
               = (Panic, set_Occupied (util.ClearBit (Occupied b) p) b)).
  { unfold RemovePieceBit, mbind, M_bind, with_Occupied. now rewrite Hw. }
  split; [| split; [exact Hr |]].
  - unfold PlacePieceBit, mbind, M_bind, with_Occupied. now rewrite Hw.
  - unfold MovePieceBit, mbind, M_bind. now rewrite Hr.
Qed.

Lemma missing_category_panics_after_writing_Occupied_witness :
  PlacePieceBit 2 4 NewTicTacToeBoard
    = (Panic, set_Occupied (util.SetBit (Occupied NewTicTacToeBoard) 4)
                NewTicTacToeBoard) /\
  RemovePieceBit 2 4 NewTicTacToeBoard
    = (Panic, set_Occupied (util.ClearBit (Occupied NewTicTacToeBoard) 4)
                NewTicTacToeBoard) /\
  MovePieceBit 2 4 5 NewTicTacToeBoard
    = (Panic, set_Occupied (util.ClearBit (Occupied NewTicTacToeBoard) 4)
                NewTicTacToeBoard).
Proof.
  apply (missing_category_panics_after_writing_Occupied NewTicTacToeBoard 2 4 5).
  reflexivity.
Defined.

(** X18.  Whatever the board (its [Occupied] need not be the union),
    [GetBitmapIndex] returns the sentinel [-1] or the index of a category
    whose bitmap has the bit; in the second case the bit is also set in
    [Occupied] and the position lies inside the word. *)
Theorem GetBitmapIndex_is_sound (b : Bitboard) (p : Z) :
  wf_board b -> Go.is_int p ->
  GetBitmapIndex b p = -1 \/
  (exists k w,
     GetBitmapIndex b p = Z.of_nat k /\ Bitmaps b !! k = Some w /\
     Z.testbit w p = true /\ Z.testbit (Occupied b) p = true /\ 0 <= p < 64).
Proof.
  intros [Hocc Hws] Hi. unfold GetBitmapIndex.
  rewrite GetBit_b2z_int by assumption.
  destruct (Z.testbit (Occupied b) p) eqn:Eo; cbn; [| now left].
  assert (Hp : 0 <= p < 64).
  { destruct (Z.ltb_spec p 0) as [Hneg | ?];
      [rewrite Z.testbit_neg_r in Eo by assumption; discriminate |].
    destruct (Z.ltb_spec p 64) as [? | Hhigh]; [lia |].
    rewrite testbit_uint64_high in Eo by assumption. discriminate. }
  destruct (existsb (fun w => Z.testbit w p) (Bitmaps b)) eqn:Ex.
  - right. apply existsb_exists in Ex. destruct Ex as (w & Hin & Hbit).
    apply list_elem_of_In, list_elem_of_lookup in Hin. destruct Hin as [j Hj].
    destruct (scan_first (Bitmaps b) 0 p Hws Hi ltac:(lia)
                (ex_intro _ j (ex_intro _ w (conj Hj Hbit))))
      as (k & w1 & Hscan & Hk & Hw1 & _).
    exists k, w1. rewrite Hscan. repeat split; (assumption || lia).
  - left. apply scan_none; try assumption; [lia |].
    intros j w Hj. destruct (Z.testbit w p) eqn:Ew; [| reflexivity].
    assert (existsb (fun w => Z.testbit w p) (Bitmaps b) = true).
    { apply existsb_exists. exists w. split; [| assumption].
      apply list_elem_of_In, list_elem_of_lookup. now exists j. }
    congruence.
Qed.

Lemma GetBitmapIndex_is_sound_witness :
  GetBitmapIndex NewChessBoard 60 = -1 \/
  (exists k w,
     GetBitmapIndex NewChessBoard 60 = Z.of_nat k /\
     Bitmaps NewChessBoard !! k = Some w /\
     Z.testbit w 60 = true /\ Z.testbit (Occupied NewChessBoard) 60 = true /\
     0 <= 60 < 64).
Proof.
  apply (GetBitmapIndex_is_sound NewChessBoard 60).
  - split; [closed_uint64 | repeat constructor; discriminate].
  - unfold Go.is_int. lia.
Defined.

(* ===================================================================== *)
(** * Fair play: the invariants of the data model *)
(* ===================================================================== *)

Section FairPlay.

Lemma pairwise_disjointb_spec (ws : list Z) :
  pairwise_disjointb ws = true ->
  forall i j wi wj,
    ws !! i = Some wi -> ws !! j = Some wj -> i <> j -> Z.land wi wj = 0.
Proof.
  induction ws as [| w ws IH]; intros H i j wi wj Hi Hj Hne;
    [discriminate Hi |].
  cbn [pairwise_disjointb] in H. apply andb_true_iff in H.
  destruct H as [Hw Hrest]. rewrite forallb_forall in Hw.
  assert (Hhead : forall k v, ws !! k = Some v -> Z.land w v = 0).
  { intros k v Hk. apply Z.eqb_eq, Hw.
    apply list_elem_of_In, list_elem_of_lookup. now exists k. }
  destruct i as [| i], j as [| j]; cbn in Hi, Hj.
  - contradiction.
  - injection Hi as <-. now apply (Hhead j).
  - injection Hj as <-. rewrite Z.land_comm. now apply (Hhead i).
  - apply (IH Hrest i j); (assumption || lia).
Qed.

Lemma land_pow2_clear (w p : Z) :
  0 <= p -> Z.testbit w p = false -> Z.land (2 ^ p) w = 0.
Proof.
  intros Hp Hbit. rewrite Z.land_comm. apply Z.eqb_eq.
  rewrite land_pow2_eqb by assumption. now rewrite Hbit.
Qed.

Lemma one_owner_insert (ws : list Z) (k : nat) (w v : Z) :
  (forall i j wi wj,
     ws !! i = Some wi -> ws !! j = Some wj -> i <> j -> Z.land wi wj = 0) ->
  ws !! k = Some w ->
  (forall j wj, ws !! j = Some wj -> j <> k -> Z.land v wj = 0) ->
  forall i j wi wj,
    <[k := v]> ws !! i = Some wi -> <[k := v]> ws !! j = Some wj ->
    i <> j -> Z.land wi wj = 0.
Proof.
  intros Hown Hk Hv i j wi wj Hi Hj Hne.
  pose proof (lookup_lt_Some _ _ _ Hk) as Hlen.
  destruct (Nat.eq_dec i k) as [-> | Hik], (Nat.eq_dec j k) as [-> | Hjk].
  - contradiction.
  - rewrite list_lookup_insert_eq in Hi by assumption. injection Hi as <-.
    rewrite list_lookup_insert_ne in Hj by congruence. now apply (Hv j).
  - rewrite list_lookup_insert_eq in Hj by assumption. injection Hj as <-.
    rewrite list_lookup_insert_ne in Hi by congruence.
    rewrite Z.land_comm. now apply (Hv i).
  - rewrite list_lookup_insert_ne in Hi, Hj by congruence.
    now apply (Hown i j).
Qed.

Lemma SetBit_within (w p N : Z) :
  0 <= w < 2 ^ N -> 0 <= p < N -> N <= 64 ->
  0 <= util.SetBit w p < 2 ^ N.
Proof.
  intros Hw Hp HN.
  assert (Hi : Go.is_int p) by (unfold Go.is_int; lia).
  assert (Hw64 : Go.is_uint64 w).
  { unfold Go.is_uint64. split; [lia |].
    apply Z.lt_le_trans with (2 ^ N); [lia | apply Z.pow_le_mono_r; lia]. }
  pose proof (is_uint64_SetBit w p Hw64) as [H0 _]. split; [exact H0 |].
  apply lt_pow2_of_bits; [lia | exact H0 |]. intros n Hn.
  rewrite SetBit_bits by (assumption || lia).
  rewrite (testbit_below_pow2 w N n) by assumption.
  destruct (Z.eqb_spec p n); [lia | reflexivity].
Qed.

Lemma ClearBit_within (w p N : Z) :
  0 <= w < 2 ^ N -> 0 <= p < N -> N <= 64 ->
  0 <= util.ClearBit w p < 2 ^ N.
Proof.
  intros Hw Hp HN.
  assert (Hi : Go.is_int p) by (unfold Go.is_int; lia).
  assert (Hw64 : Go.is_uint64 w).
  { unfold Go.is_uint64. split; [lia |].
    apply Z.lt_le_trans with (2 ^ N); [lia | apply Z.pow_le_mono_r; lia]. }
  pose proof (is_uint64_ClearBit w p Hw64) as [H0 _]. split; [exact H0 |].
  apply lt_pow2_of_bits; [lia | exact H0 |]. intros n Hn.
  rewrite ClearBit_bits by (assumption || lia).
  now rewrite (testbit_below_pow2 w N n) by assumption.
Qed.

Lemma pos_in_range_spec (b : Bitboard) (p : Z) :
  pos_in_range b p = true <-> 0 <= p < Ranks b * Files b.
Proof.
  unfold pos_in_range. rewrite andb_true_iff, Z.leb_le, Z.ltb_lt. reflexivity.
Qed.

Lemma PlacePieceBit_good (b b' : Bitboard) (m p : Z) :
  good_board b -> cat_in_range b m = true -> pos_in_range b p = true ->
  others_clear (Bitmaps b) 0 m p = true ->
  PlacePieceBit m p b = (Ret tt, b') ->
  good_board b'.
Proof.
  intros (Hinv & Hown & [Hoe Hwe] & Hsym & Hone) Hm Hp Hothers Hrun.
  pose proof (PlacePieceBit_inv m p b b' Hinv Hm Hrun) as Hinv'.
  destruct Hinv as ((Hocc & Hws) & Hdim & Hunion).
  apply pos_in_range_spec in Hp.
  assert (Hi : Go.is_int p) by (unfold Go.is_int; lia).
  destruct (PlacePieceBit_run m p b Hm) as (w & Hw & E).
  rewrite E in Hrun. injection Hrun as <-.
  unfold cat_in_range in Hm. apply andb_true_iff in Hm.
  destruct Hm as [Hm0 _]. apply Z.leb_le in Hm0.
  refine (conj Hinv' (conj _ (conj (conj _ _) (conj _ Hone))));
    unfold one_owner; cbn [Bitmaps Symbols Occupied Ranks Files].
  - apply (one_owner_insert _ _ w); [exact Hown | exact Hw |].
    intros j wj Hj Hne. unfold util.SetBit.
    rewrite uint_of_int_nonneg, shl_1 by (assumption || lia).
    rewrite Z.land_lor_distr_l, (Hown _ _ _ _ Hw Hj) by congruence.
    rewrite land_pow2_clear; [reflexivity | lia |].
    apply (others_clear_spec _ 0 m p Hothers j wj Hj). lia.
  - apply SetBit_within; assumption.
  - apply Forall_insert; [assumption |].
    apply SetBit_within; try assumption.
    exact (Forall_lookup_1 _ _ _ _ Hwe Hw).
  - now rewrite length_insert.
Qed.

Lemma RemovePieceBit_good (b b' : Bitboard) (m p : Z) :
  good_board b -> cat_in_range b m = true -> pos_in_range b p = true ->
  others_clear (Bitmaps b) 0 m p = true ->
  RemovePieceBit m p b = (Ret tt, b') ->
  good_board b'.
Proof.
  intros (Hinv & Hown & [Hoe Hwe] & Hsym & Hone) Hm Hp Hothers Hrun.
  pose proof (RemovePieceBit_inv m p b b' Hinv Hm Hp Hothers Hrun) as Hinv'.
  destruct Hinv as ((Hocc & Hws) & Hdim & Hunion).
  apply pos_in_range_spec in Hp.
  destruct (RemovePieceBit_run m p b Hm) as (w & Hw & E).
  rewrite E in Hrun. injection Hrun as <-.
  refine (conj Hinv' (conj _ (conj (conj _ _) (conj _ Hone))));
    unfold one_owner; cbn [Bitmaps Symbols Occupied Ranks Files].
  - apply (one_owner_insert _ _ w); [exact Hown | exact Hw |].
    intros j wj Hj Hne. unfold util.ClearBit.
    rewrite <- Z.land_assoc, (Z.land_comm (Go.not _)), Z.land_assoc.
    rewrite (Hown _ _ _ _ Hw Hj) by congruence. apply Z.land_0_l.
  - apply ClearBit_within; assumption.
  - apply Forall_insert; [assumption |].
    apply ClearBit_within; try assumption.
    exact (Forall_lookup_1 _ _ _ _ Hwe Hw).
  - now rewrite length_insert.
Qed.

Lemma presets_good (b : Bitboard) : In b presets -> good_board b.
Proof.
  intros Hin. pose proof (presets_inv b Hin) as Hinv.
  unfold presets in Hin. cbn [In] in Hin.
  destruct Hin as [<- | [<- | [<- | [<- | [<- | [<- | []]]]]]];
    (refine (conj Hinv (conj _ (conj (conj _ _) (conj _ _))));
     [ unfold one_owner;
       match goal with
       | |- context [Bitmaps ?x] =>
           exact (pairwise_disjointb_spec (Bitmaps x) eq_refl)
       end
     | vm_compute; split; [discriminate | reflexivity]
     | repeat constructor; discriminate
     | reflexivity
     | repeat constructor ]).
Qed.

Lemma fair_step_good (b b' : Bitboard) (o : op) :
  good_board b -> step plays_fair b o b' -> good_board b'.
Proof.
  intros Hgood [Hguard Hrun].
  unfold plays_fair in Hguard. apply andb_true_iff in Hguard.
  destruct Hguard as [Hrange Hown].
  destruct o as [m p | m p | m p1 p2]; cbn [in_range run_op] in *.
  - apply andb_true_iff in Hrange. destruct Hrange as [Hm Hp].
    exact (PlacePieceBit_good b b' m p Hgood Hm Hp Hown Hrun).
  - apply andb_true_iff in Hrange. destruct Hrange as [Hm Hp].
    exact (RemovePieceBit_good b b' m p Hgood Hm Hp Hown Hrun).
  - apply andb_true_iff in Hrange. destruct Hrange as [Hrange Hp2].
    apply andb_true_iff in Hrange. destruct Hrange as [Hm Hp1].
    apply andb_true_iff in Hown. destruct Hown as [Ho1 Ho2].
    destruct (RemovePieceBit_run m p1 b Hm) as (w & Hw & E1).
    pose proof (RemovePieceBit_good b _ m p1 Hgood Hm Hp1 Ho1 E1) as Hgood1.
    unfold MovePieceBit, mbind, M_bind in Hrun. rewrite E1 in Hrun.
    assert (Hm0 : 0 <= m).
    { unfold cat_in_range in Hm. apply andb_true_iff in Hm.
      destruct Hm as [Hm0 _]. now apply Z.leb_le in Hm0. }
    refine (PlacePieceBit_good _ b' m p2 Hgood1 _ _ _ Hrun).
    + unfold cat_in_range in *. cbn [Bitmaps]. now rewrite length_insert.
    + exact Hp2.
    + cbn [Bitmaps]. rewrite others_clear_insert by lia. exact Ho2.
Qed.

Lemma plays_fair_in_range (b : Bitboard) (o : op) :
  plays_fair b o = true -> in_range b o = true.
Proof. unfold plays_fair. intros H. now apply andb_true_iff in H. Qed.

End FairPlay.

(** X19.  From a preset constructor, along calls at existing categories
    and in-range positions that touch only squares no other category
    holds, every board satisfies the invariants of the data model: a
    square has at most one owner, [Occupied] is the union of the bitmaps,
    no bit beyond square [Ranks * Files - 1] is set, and every category
    keeps its one-character symbol.  Every such call returns. *)
Theorem fair_play_keeps_the_data_model (b : Bitboard) :
  reachable plays_fair b ->
  one_owner b /\ occupied_is_union b /\ within_extent b /\
  length (Symbols b) = length (Bitmaps b) /\
  forall o, plays_fair b o = true -> exists b', step plays_fair b o b'.
Proof.
  intros Hr.
  assert (Hgood : good_board b).
  { induction Hr as [b Hin | b o b' _ IH Hstep].
    - now apply presets_good.
    - exact (fair_step_good b b' o IH Hstep). }
  destruct Hgood as ((_ & _ & Hunion) & Hown & Hext & Hsym & _).
  repeat split; try assumption; try apply Hext.
  intros o Hfair.
  destruct (run_op_returns b o (plays_fair_in_range b o Hfair)) as [b' Hrun].
  exists b'. now split.
Qed.

Lemma fair_play_keeps_the_data_model_witness :
  one_owner (snd (run_op (Move 5 12 28) NewChessBoard)) /\
  occupied_is_union (snd (run_op (Move 5 12 28) NewChessBoard)) /\
  within_extent (snd (run_op (Move 5 12 28) NewChessBoard)) /\
  length (Symbols (snd (run_op (Move 5 12 28) NewChessBoard)))
    = length (Bitmaps (snd (run_op (Move 5 12 28) NewChessBoard))) /\
  forall o,
    plays_fair (snd (run_op (Move 5 12 28) NewChessBoard)) o = true ->
    exists b', step plays_fair (snd (run_op (Move 5 12 28) NewChessBoard)) o b'.
Proof.
  apply (fair_play_keeps_the_data_model
           (snd (run_op (Move 5 12 28) NewChessBoard))).
  apply (reach_step plays_fair NewChessBoard (Move 5 12 28)).
  - apply reach_preset. left. reflexivity.
  - split; reflexivity.
Defined.

(* ===================================================================== *)
(** * The three ways of addressing a square *)
(* ===================================================================== *)

Section Addressing.

Lemma AlgebraicToBit_of_name (b : Bitboard) (s : string) (x y : Z) :
  util.AlgebraicToCartesian s (Files b) = Some (x, y) ->
  AlgebraicToBit b s = Some (CartesianToBit b x y).
Proof.
  intros H. unfold AlgebraicToBit, util.AlgebraicToBit. now rewrite H.
Qed.

Lemma place_by_name (b : Bitboard) (m : Z) (s : string) (x y : Z) :
  util.AlgebraicToCartesian s (Files b) = Some (x, y) ->
  PlacePieceAlgebraic m s b = PlacePieceCartesian m x y b.
Proof.
  intros H.
  unfold PlacePieceAlgebraic, PlacePieceCartesian, mbind, M_bind, get, lift.
  now rewrite (AlgebraicToBit_of_name b s x y H).
Qed.

Lemma remove_by_name (b : Bitboard) (m : Z) (s : string) (x y : Z) :
  util.AlgebraicToCartesian s (Files b) = Some (x, y) ->
  RemovePieceAlgebraic m s b = RemovePieceCartesian m x y b.
Proof.
  intros H.
  unfold RemovePieceAlgebraic, RemovePieceCartesian, mbind, M_bind, get, lift.
  now rewrite (AlgebraicToBit_of_name b s x y H).
Qed.

(** Sequencing two methods: the second runs on the board the first
    leaves, unless the first panicked. *)
Lemma seq_run {A B : Type} (m1 : M A) (m2 : M B) (b : Bitboard) :
  (m1 ;; m2) b =
  match m1 b with
  | (Ret _, b') => m2 b'
  | (Panic, b') => (Panic, b')
  end.
Proof. reflexivity. Qed.

End Addressing.

(** X20.  The algebraic and the Cartesian methods agree: for a file in
    [0, 8) and a rank index in [0, 9) the square has a name, and placing,
    removing or moving by name does to the board what the Cartesian method
    does at the pair.  A name of fewer than two bytes makes the algebraic
    methods panic before the board is touched. *)
Theorem algebraic_and_cartesian_methods_agree
    (b : Bitboard) (m x1 y1 x2 y2 : Z) (t : string) :
  0 <= x1 < 8 -> 0 <= y1 < 9 -> 0 <= x2 < 8 -> 0 <= y2 < 9 ->
  (exists s1 s2,
     CartesianToAlgebraic b x1 y1 = Some s1 /\
     CartesianToAlgebraic b x2 y2 = Some s2 /\
     PlacePieceAlgebraic m s1 b = PlacePieceCartesian m x1 y1 b /\
     RemovePieceAlgebraic m s1 b = RemovePieceCartesian m x1 y1 b /\
     MovePieceAlgebraic m s1 s2 b = MovePieceCartesian m x1 y1 x2 y2 b) /\
  ((String.length t < 2)%nat ->
   PlacePieceAlgebraic m t b = (Panic, b) /\
   RemovePieceAlgebraic m t b = (Panic, b) /\
   MovePieceAlgebraic m t t b = (Panic, b)).
Proof.
  intros Hx1 Hy1 Hx2 Hy2. split.
  - destruct (algebraic_round_trip_one_digit x1 y1 (Files b) Hx1 Hy1)
      as (s1 & Hs1 & Hb1).
    destruct (algebraic_round_trip_one_digit x2 y2 (Files b) Hx2 Hy2)
      as (s2 & Hs2 & Hb2).
    exists s1, s2. split; [exact Hs1 | split; [exact Hs2 |]].
    pose proof (remove_by_name b m s1 x1 y1 Hb1) as Hr.
    split; [now apply place_by_name | split; [exact Hr |]].
    unfold MovePieceAlgebraic, MovePieceCartesian.
    rewrite (seq_run (RemovePieceAlgebraic m s1) (PlacePieceAlgebraic m s2)).
    rewrite (seq_run (RemovePieceCartesian m x1 y1)
               (PlacePieceCartesian m x2 y2)).
    rewrite Hr.
    destruct (RemovePieceCartesian m x1 y1 b) as [[[] |] b']; [| reflexivity].
    apply place_by_name. exact Hb2.
  - intros Ht.
    assert (Hnone : forall b0, AlgebraicToBit b0 t = None).
    { intros b0. unfold AlgebraicToBit, util.AlgebraicToBit.
      destruct t as [| a [| c r]]; [reflexivity | | cbn in Ht; lia].
      unfold util.AlgebraicToCartesian. rewrite find_file_byte. reflexivity. }
    assert (Hp : PlacePieceAlgebraic m t b = (Panic, b)).
    { unfold PlacePieceAlgebraic, mbind, M_bind, get, lift.
      now rewrite Hnone. }
    assert (Hr : RemovePieceAlgebraic m t b = (Panic, b)).
    { unfold RemovePieceAlgebraic, mbind, M_bind, get, lift.
      now rewrite Hnone. }
    split; [exact Hp | split; [exact Hr |]].
    unfold MovePieceAlgebraic.
    rewrite (seq_run (RemovePieceAlgebraic m t) (PlacePieceAlgebraic m t)).
    now rewrite Hr.
Qed.

Lemma algebraic_and_cartesian_methods_agree_witness :
  (exists s1 s2,
     CartesianToAlgebraic NewChessBoard 4 1 = Some s1 /\
     CartesianToAlgebraic NewChessBoard 4 3 = Some s2 /\
     PlacePieceAlgebraic 5 s1 NewChessBoard
       = PlacePieceCartesian 5 4 1 NewChessBoard /\
     RemovePieceAlgebraic 5 s1 NewChessBoard
       = RemovePieceCartesian 5 4 1 NewChessBoard /\
     MovePieceAlgebraic 5 s1 s2 NewChessBoard
       = MovePieceCartesian 5 4 1 4 3 NewChessBoard) /\
  ((String.length "e" < 2)%nat ->
   PlacePieceAlgebraic 5 "e" NewChessBoard = (Panic, NewChessBoard) /\
   RemovePieceAlgebraic 5 "e" NewChessBoard = (Panic, NewChessBoard) /\
   MovePieceAlgebraic 5 "e" "e" NewChessBoard = (Panic, NewChessBoard)).
Proof.
  apply (algebraic_and_cartesian_methods_agree NewChessBoard 5 4 1 4 3 "e");
    lia.
Defined.

(* ===================================================================== *)
(** * Printing *)
(* ===================================================================== *)

Section Printing.



Variable b : Bitboard.
Hypothesis Hsym : (length (Bitmaps b) <= length (Symbols b))%nat.
Hypothesis Hone : Forall (fun s => String.length s = 1%nat) (Symbols b).



End Printing.



(* ===================================================================== *)
(** * [New]: what is accepted *)
(* ===================================================================== *)


(* ===================================================================== *)
(** * Package [board64] against package [bitboard] *)
(* ===================================================================== *)

Section Board64.

Lemma board64_scan (ws : list Z) (i p : Z) :
  board64.scan ws i p = scan ws i p.
Proof.
  revert i. induction ws as [| w ws IH]; intros i; [reflexivity |].
  cbn [board64.scan scan]. rewrite IH. reflexivity.
Qed.

Lemma board64_find_file_byte (a : ascii) :
  board64.find_file (String a EmptyString) board64.files 0 0 = file_of_byte a.
Proof.
  apply Z.eqb_eq.
  apply (ascii_forall (fun a =>
    board64.find_file (String a EmptyString) board64.files 0 0
    =? file_of_byte a)).
  vm_compute. reflexivity.
Qed.

Lemma scan_no_owner (ws : list Z) (i p : Z) :
  Forall Go.is_uint64 ws -> Go.is_int p ->
  existsb (fun w => Z.testbit w p) ws = false ->
  scan ws i p = -1.
Proof.
  intros Hws Hp. revert i.
  induction Hws as [| w ws Hw Hws IH]; intros i Hex; [reflexivity |].
  rewrite scan_bits by (assumption || now constructor).
  cbn [existsb] in Hex. apply orb_false_iff in Hex.
  destruct Hex as [Hb Hex]. rewrite Hb. now apply IH.
Qed.

End Board64.

(** X23.  The fast reject of the later [GetBitmapIndex] changes nothing
    on a board whose [Occupied] is the union: it returns what the scan of
    package [board64], which has no [Occupied], returns on the same
    bitmaps, at every position an [int] can hold. *)
Theorem fast_reject_agrees_with_plain_scan (b : Bitboard) (p : Z) :
  wf_board b -> occupied_is_union b -> Go.is_int p ->
  GetBitmapIndex b p = board64.GetBitmapIndex (without_Occupied b) p.
Proof.
  intros [Hocc Hws] Hunion Hi.
  unfold board64.GetBitmapIndex, without_Occupied; cbn [board64.Bitmaps].
  rewrite board64_scan. unfold GetBitmapIndex.
  rewrite GetBit_b2z_int by assumption.
  rewrite (Occupied_bit b p Hunion).
  destruct (existsb (fun w => Z.testbit w p) (Bitmaps b)) eqn:Ex;
    cbn; [reflexivity |].
  symmetry. now apply scan_no_owner.
Qed.

Lemma fast_reject_agrees_with_plain_scan_witness :
  GetBitmapIndex NewChessBoard (-3)
  = board64.GetBitmapIndex (without_Occupied NewChessBoard) (-3).
Proof.
  apply (fast_reject_agrees_with_plain_scan NewChessBoard (-3)).
  - split; [closed_uint64 | repeat constructor; discriminate].
  - reflexivity.
  - unfold Go.is_int. lia.
Defined.


(** X24.  The coordinate methods of package [board64] compute what the
    later package [util] computes: [CoordsToBit] at a one-byte file and
    the rank a digit stands for is [AlgebraicToBit] of the two-byte name
    (a byte that is no letter of [a..h] counts as file [a] in both), and
    [BitToSquareIndex] is [BitToAlgebraic] at the board's width, panics
    included. *)
Theorem board64_coordinates_agree_with_util
    (b : board64.Bitboard) (a c : ascii) (p : Z) :
  (Go.is_digit c = true ->
   util.AlgebraicToBit (String a (String c EmptyString)) (board64.Files b)
   = Some (board64.CoordsToBit b (String a EmptyString)
             (Z.of_N (N_of_ascii c) - 48))) /\
  board64.BitToSquareIndex b p = util.BitToAlgebraic p (board64.Files b).
Proof.
  split.
  - intros Hd. unfold util.AlgebraicToBit.
    rewrite AlgebraicToCartesian_bytes.
    unfold board64.CoordsToBit, util.CartesianToBit; cbv zeta.
    rewrite board64_find_file_byte.
    assert (E : rank_of_byte c = Go.isub (Z.of_N (N_of_ascii c) - 48) 1).
    { unfold rank_of_byte. unfold Go.is_digit in Hd. rewrite Hd.
      apply andb_true_iff in Hd. destruct Hd as [H1 H2].
      apply N.leb_le in H1, H2.
      unfold Go.isub. rewrite wrap_int_small by (unfold Go.is_int; lia).
      lia. }
    now rewrite E.
  - unfold board64.BitToSquareIndex, util.BitToAlgebraic,
      util.BitToCartesian, util.CartesianToAlgebraic, Go.idiv, Go.irem.
    destruct (board64.Files b =? 0); reflexivity.
Qed.

Lemma board64_coordinates_agree_with_util_witness :
  (Go.is_digit "4" = true ->
   util.AlgebraicToBit "e4" (board64.Files (board64.mkBitboard [] [] 8 8))
   = Some (board64.CoordsToBit (board64.mkBitboard [] [] 8 8) "e"
             (Z.of_N (N_of_ascii "4") - 48))) /\
  board64.BitToSquareIndex (board64.mkBitboard [] [] 8 8) 28
  = util.BitToAlgebraic 28 (board64.Files (board64.mkBitboard [] [] 8 8)).
Proof.
  apply (board64_coordinates_agree_with_util
           (board64.mkBitboard [] [] 8 8) "e" "4" 28).
Defined.

Lemma conversions_panic_exactly_witness :
  (util.BitToCartesian 5 0 = None <-> 0 = 0) /\
  (util.CartesianToAlgebraic 8 0 8 = None <-> ~ 0 <= 8 < 8) /\
  (util.AlgebraicToCartesian "e" 8 = None <-> (String.length "e" < 2)%nat).
Proof. apply (conversions_panic_exactly 5 8 0 0 "e"). Defined.

